(** * ZFace: a shallow embedding of the Z-wrapping core

    The development follows the three source modules of the ZFace workbench:
    [QuadTree.py] (the spatial cache), [ZFaceSection.py] (the tool/surface
    intersection with its retry chain) and [ZFace.py] (discretisation,
    projection, stepdown and feed interpolation).

    Python floats are modelled by exact rationals [Q] wherever the code only
    adds, subtracts, multiplies, halves and compares; the feed interpolation,
    which takes square roots, is modelled over the reals [R].  Exceptions are
    explicit: a computation returns [Ok v] or [Raise e]. *)

From Stdlib Require Import QArith Qabs Qround Reals List String Bool ZArith Arith.
From Stdlib Require Import Permutation Psatz.
Import ListNotations.

Set Implicit Arguments.
Set Warnings "-register-all".

(** ** Exceptions *)

Module Py.

Inductive exn : Type :=
| RecursionError      (* the interpreter's recursion limit was hit *)
| GeometryError       (* raised by the geometry kernel *)
| ValueError
| AttributeError      (* attribute access on None *)
| OutOfFuel.          (* not a Python exception: a loop of the model ran
                         past the number of iterations it was given *)

Inductive Exc (A : Type) : Type :=
| Ok (a : A)
| Raise (e : exn).

Arguments Ok {A} a.
Arguments Raise {A} e.

Definition bind {A B} (m : Exc A) (k : A -> Exc B) : Exc B :=
  match m with
  | Ok a => k a
  | Raise e => Raise e
  end.


End Py.

Import Py.

Notation "x <- m ;; k" := (Py.bind m (fun x => k))
  (at level 61, m at next level, right associativity).
Notation "' p <- m ;; k" := (Py.bind m (fun p => k))
  (at level 61, p pattern, m at next level, right associativity).

(** ** Comparisons on rationals as booleans *)

Definition Qleb (a b : Q) : bool := Qle_bool a b.
Definition Qltb (a b : Q) : bool := negb (Qle_bool b a).

(** * QuadTree.py *)

Module QuadTree.

Open Scope Q_scope.

(** A stored point [(x, y, z)]. *)
Definition Sample : Type := (Q * Q * Q)%type.

(** [class QuadTree.Node]: [children] is [None] or the list
    [[nw, ne, sw, se]]. *)
Inductive Node : Type := mkNode {
  xmin : Q; xmax : Q; ymin : Q; ymax : Q;
  capacity : nat;
  points : list Sample;
  children : option (list Node)
}.

Definition set_points (n : Node) (pts : list Sample) : Node :=
  mkNode (xmin n) (xmax n) (ymin n) (ymax n) (capacity n) pts (children n).

Definition set_children (n : Node) (chs : option (list Node)) : Node :=
  mkNode (xmin n) (xmax n) (ymin n) (ymax n) (capacity n) (points n) chs.

(** [Node.__init__] *)
Definition new_node (x0 x1 y0 y1 : Q) (cap : nat) : Node :=
  mkNode x0 x1 y0 y1 cap [] None.

(** [Node.contains] *)
Definition contains (n : Node) (x y : Q) : bool :=
  (Qleb (xmin n) x && Qleb x (xmax n)) && (Qleb (ymin n) y && Qleb y (ymax n)).

(** [Node.subdivide]: the four fresh children, in the order NW, NE, SW, SE. *)
Definition subdivide (n : Node) : list Node :=
  let mx := (1#2) * (xmin n + xmax n) in
  let my := (1#2) * (ymin n + ymax n) in
  [ new_node (xmin n) mx my (ymax n) (capacity n);
    new_node mx (xmax n) my (ymax n) (capacity n);
    new_node (xmin n) mx (ymin n) my (capacity n);
    new_node mx (xmax n) (ymin n) my (capacity n) ].

(** [for ch in self.children: if ch.insert(...): ...]: offer the point to
    the children in order and stop at the first that accepts it.  Every
    call mutates the child it is made on, so the children after the loop
    are returned next to its outcome: [Ok true] when a child accepted,
    [Ok false] when none did, [Raise e] when a call raised. *)
Fixpoint insert_first (ins : Node -> Node * Exc bool) (chs : list Node)
  : list Node * Exc bool :=
  match chs with
  | [] => ([], Ok false)
  | ch :: rest =>
      let '(ch', r) := ins ch in
      match r with
      | Raise e => (ch' :: rest, Raise e)
      | Ok true => (ch' :: rest, Ok true)
      | Ok false =>
          let '(rest', r') := insert_first ins rest in
          (ch' :: rest', r')
      end
  end.

(** The loop that moves the points of a node that has just been subdivided
    into its children; a point no child accepts goes back to the node's
    own list ([kept]). *)
Fixpoint move_points (ins : Sample -> Node -> Node * Exc bool)
         (pts : list Sample) (chs : list Node) (kept : list Sample)
  : list Node * list Sample * Exc unit :=
  match pts with
  | [] => (chs, kept, Ok tt)
  | p :: pts' =>
      let '(chs', r) := insert_first (ins p) chs in
      match r with
      | Raise e => (chs', kept, Raise e)
      | Ok true => move_points ins pts' chs' kept
      | Ok false => move_points ins pts' chs' (kept ++ [p])
      end
  end.

(** The tail of [Node.insert], once the node has children. *)
Definition insert_into_children (ins : Node -> Node * Exc bool)
           (n : Node) (chs : list Node) (p : Sample) : Node * Exc bool :=
  let '(chs', r) := insert_first ins chs in
  match r with
  | Raise e => (set_children n (Some chs'), Raise e)
  | Ok true => (set_children n (Some chs'), Ok true)
  | Ok false =>
      (set_children (set_points n (points n ++ [p])) (Some chs'), Ok true)
  end.

(** [Node.insert].  The method mutates the node and returns a boolean; the
    model returns the node after the call together with the boolean.  The
    recursion is on the depth of the Python call stack: [fuel] is the
    number of frames left below the frame of the call.  [self.contains]
    takes one of them; [self.subdivide()] takes one and the
    [QuadTree.Node(...)] it builds a second, so without two frames left
    [subdivide] raises [RecursionError] before [self.children] and
    [self.points] are assigned, and the leaf is as it was; a call on a
    child has one frame less.  An exception of a call on a child leaves
    the node as the unfinished call had it. *)
Fixpoint insert (fuel : nat) (n : Node) (x y z : Q) {struct fuel}
  : Node * Exc bool :=
  match fuel with
  | O => (n, Raise RecursionError)
  | S fuel' =>
      if negb (contains n x y) then (n, Ok false)
      else
        match children n with
        | None =>
            if (List.length (points n) <? capacity n)%nat then
              (set_points n (points n ++ [(x, y, z)]), Ok true)
            else
              match fuel' with
              | O => (n, Raise RecursionError)
              | S _ =>
                  let '(chs, kept, r) :=
                    move_points
                      (fun p ch =>
                         let '(px, py, pz) := p in insert fuel' ch px py pz)
                      (points n) (subdivide n) [] in
                  match r with
                  | Raise e =>
                      (set_children (set_points n kept) (Some chs), Raise e)
                  | Ok _ =>
                      insert_into_children (fun ch => insert fuel' ch x y z)
                                           (set_points n kept) chs (x, y, z)
                  end
              end
        | Some chs =>
            insert_into_children (fun ch => insert fuel' ch x y z)
                                 n chs (x, y, z)
        end
  end.

(** [best]: a tuple [(best_dist_sq, (bx, by, bz))] or [None]. *)
Definition Best : Type := (Q * Sample)%type.

(** Squared planar distance from a stored point to the query point, as the
    loop body of [nearest] computes it. *)
Definition dist_sq (p : Sample) (x y : Q) : Q :=
  let '(px, py, _) := p in
  let ddx := px - x in
  let ddy := py - y in
  ddx * ddx + ddy * ddy.

(** Minimal possible squared distance from the query point to the node's
    bounding box. *)
Definition min_dist_sq (n : Node) (x y : Q) : Q :=
  let dx := if Qltb x (xmin n) then xmin n - x
            else if Qltb (xmax n) x then x - xmax n else 0 in
  let dy := if Qltb y (ymin n) then ymin n - y
            else if Qltb (ymax n) y then y - ymax n else 0 in
  dx * dx + dy * dy.

(** [for px, py, pz in self.points: ...] *)
Fixpoint scan_points (pts : list Sample) (x y : Q) (best : option Best)
  : option Best :=
  match pts with
  | [] => best
  | p :: pts' =>
      let d2 := dist_sq p x y in
      let best' :=
        match best with
        | None => Some (d2, p)
        | Some (b0, _) => if Qltb d2 b0 then Some (d2, p) else best
        end in
      scan_points pts' x y best'
  end.

(** Python's three-argument [max(a, 0, b)]. *)
Definition max3 (a b c : Q) : Q :=
  let m := if Qltb a b then b else a in
  if Qltb m c then c else m.

(** The sort key of a child in [nearest]. *)
Definition child_key (ch : Node) (x y : Q) : Q :=
  let kx := max3 (xmin ch - x) 0 (x - xmax ch) in
  let ky := max3 (ymin ch - y) 0 (y - ymax ch) in
  kx * kx + ky * ky.

(** [sorted(..., key=...)] is stable: equal keys keep their input order. *)
Fixpoint insert_by_key {A} (kv : Q * A) (l : list (Q * A)) : list (Q * A) :=
  match l with
  | [] => [kv]
  | h :: t => if Qleb (fst kv) (fst h) then kv :: h :: t
              else h :: insert_by_key kv t
  end.

Fixpoint sorted_by_key {A} (l : list (Q * A)) : list (Q * A) :=
  match l with
  | [] => []
  | kv :: t => insert_by_key kv (sorted_by_key t)
  end.

(** [Node.nearest].  Each child is paired with its key and with its own
    search, the pairs are sorted by key, and the searches run in that
    order, threading [best]. *)
Fixpoint nearest (n : Node) (x y : Q) (best : option Best) {struct n}
  : option Best :=
  let pruned :=
    match best with
    | Some (b0, _) => Qleb b0 (min_dist_sq n x y)
    | None => false
    end in
  if pruned then best
  else
    let best := scan_points (points n) x y best in
    match children n with
    | None => best
    | Some chs =>
        let child_order :=
          sorted_by_key
            (map (fun ch => (child_key ch x y, nearest ch x y)) chs) in
        fold_left (fun b kv => snd kv b) child_order best
    end.

(** [class QuadTree]: the tree is its root node. *)
Definition QuadTree_init (x0 x1 y0 y1 : Q) (cap : nat) : Node :=
  let x1 := if Qleb x1 x0 then x0 + 1 else x1 in
  let y1 := if Qleb y1 y0 then y0 + 1 else y1 in
  new_node x0 x1 y0 y1 cap.

Definition QuadTree_insert (fuel : nat) (root : Node) (x y z : Q)
  : Node * Exc bool :=
  insert fuel root x y z.

(** [QuadTree.nearest].  The code returns [(px, py, pz, math.sqrt(d2))];
    the model returns the squared distance [d2] itself, the square root
    being monotone on non-negative numbers. *)
Definition QuadTree_nearest (root : Node) (x y : Q) : option (Sample * Q) :=
  match nearest root x y None with
  | None => None
  | Some (d2, p) => Some (p, d2)
  end.

(** Python's [min] and [max] of a sequence with first element [a]. *)
Definition py_min (a : Q) (l : list Q) : Q :=
  fold_left (fun m v => if Qltb v m then v else m) l a.

Definition py_max (a : Q) (l : list Q) : Q :=
  fold_left (fun m v => if Qltb m v then v else m) l a.

(** [for x, y, z in points: qt.insert(x, y, z)]: the boolean is dropped,
    an exception leaves the loop. *)
Fixpoint insert_each (fuel : nat) (root : Node) (pts : list Sample)
  : Exc Node :=
  match pts with
  | [] => Ok root
  | (x, y, z) :: pts' =>
      let '(root', r) := QuadTree_insert fuel root x y z in
      match r with
      | Raise e => Raise e
      | Ok _ => insert_each fuel root' pts'
      end
  end.

(** [QuadTree.from_point_list]; [None] for an empty list. *)
Definition from_point_list (fuel : nat) (pts : list Sample)
           (bounds_padding : Q) (cap : nat) : Exc (option Node) :=
  match pts with
  | [] => Ok None
  | (x0, y0, _) :: rest =>
      let xs := map (fun p => fst (fst p)) rest in
      let ys := map (fun p => snd (fst p)) rest in
      let x_lo := py_min x0 xs in
      let x_hi := py_max x0 xs in
      let y_lo := py_min y0 ys in
      let y_hi := py_max y0 ys in
      let dx := x_hi - x_lo in
      let dy := y_hi - y_lo in
      let dx := if Qeq_bool dx 0 then 1 else dx in
      let dy := if Qeq_bool dy 0 then 1 else dy in
      let padx := if Qltb 0 bounds_padding then bounds_padding else (1#100) * dx in
      let pady := if Qltb 0 bounds_padding then bounds_padding else (1#100) * dy in
      qt <- insert_each fuel
              (QuadTree_init (x_lo - padx) (x_hi + padx) (y_lo - pady) (y_hi + pady) cap)
              pts ;;
      Ok (Some qt)
  end.

End QuadTree.

(** * ZFaceSection.py *)

Module ZFaceSection.

Open Scope Q_scope.

(** A face of the selected surface, as a handle into the host document. *)
Definition Face : Type := nat.

(** What a [section] call is made against: the compound of the selected
    faces, or one face. *)
Inductive Geometry : Type :=
| Compound (faces : list Face)
| SingleFace (f : Face).

Inductive Axis : Type := AxisX | AxisY | AxisZ.

(** The tool volume handed to the kernel: an exact or a polygonal cylinder
    ([segments] sides), based at [(cx, cy, cz)], and the rotations applied
    to it, in order. *)
Record Tool : Type := mkTool {
  segments : option nat;
  t_radius : Q;
  t_height : Q;
  cx : Q; cy : Q; cz : Q;
  rotations : list (Axis * Q)
}.

Record BoundBox : Type := mkBoundBox {
  XMin : Q; XMax : Q; YMin : Q; YMax : Q; ZMin : Q; ZMax : Q
}.

(** What the code reads of the shape that [section] returns. *)
Record Shape : Type := mkShape {
  isValid : bool;
  isNull : bool;
  BoundBox_ : BoundBox;
  Length : Q;
  Edges : nat            (* len(section.Edges) *)
}.

(** The geometry kernel: [cyl.section(target, approximation)] followed by
    [section.tessellate(0.01)].  It either returns a shape or raises. *)
Definition Kernel : Type := Tool -> Geometry -> bool -> Exc Shape.

(** Keyword arguments of [try_intersect_z], with their defaults. *)
Record RunParams : Type := mkRun {
  radius : Q;
  tool_height : Q;
  rotate_x : option Q;
  rotate_y : option Q;
  rotate_z : option Q;
  use_approximation : bool;
  use_compound : bool;
  use_poly_cylinder : bool;
  rule_out_short_length : bool
}.

Definition default_run (r h : Q) : RunParams :=
  mkRun r h None None None false true false true.

Definition N_POLY_SEGMENTS : nat := 32.

(** [if rotate_z:] is true for a number other than zero. *)
Definition truthy (a : option Q) : bool :=
  match a with
  | Some v => negb (Qeq_bool v 0)
  | None => false
  end.

Definition rotation (ax : Axis) (a : option Q) : list (Axis * Q) :=
  match a with
  | Some v => if truthy a then [(ax, v)] else []
  | None => []
  end.

(** The cylinder of a run: built at [(x, y, -tool_height/2)], rotated about
    Z, then X, then Y. *)
Definition make_tool (run : RunParams) (x y : Q) : Tool :=
  mkTool (if use_poly_cylinder run then Some N_POLY_SEGMENTS else None)
         (radius run) (tool_height run)
         x y (- (tool_height run) / 2)
         (rotation AxisZ (rotate_z run) ++
          rotation AxisX (rotate_x run) ++
          rotation AxisY (rotate_y run)).

Definition bound_list (bb : BoundBox) : list Q :=
  [XMin bb; XMax bb; YMin bb; YMax bb; ZMin bb; ZMax bb].

(** [is_valid_section] *)
Definition is_valid_section (s : Shape) (r : Q) : bool :=
  if negb (isValid s) then false
  else if isNull s then false
  else if existsb (fun v => Qltb 1000000 (Qabs v)) (bound_list (BoundBox_ s))
       then false
  else true.

(** [is_full_length] *)
Definition is_full_length (s : Shape) (r : Q) : bool :=
  let min_len := 2 * (314159 # 100000) * r * (98 # 100) in
  if Qltb (Length s) min_len then false else true.

(** [is_empty_section]: [False] for a section without edges. *)
Definition is_empty_section (s : Shape) : bool :=
  if Nat.eqb (Edges s) 0 then false else true.

(** The per-face loop of [try_intersect_z]. *)
Fixpoint face_sections (k : Kernel) (cyl : Tool) (faces : list Face)
         (approx : bool) (r : Q) (sections : list Shape) : Exc (list Shape) :=
  match faces with
  | [] => Ok sections
  | f :: faces' =>
      s <- k cyl (SingleFace f) approx ;;
      if negb (is_valid_section s r) then
        face_sections k cyl faces' approx r sections
      else if negb (is_empty_section s) then
        face_sections k cyl faces' approx r (sections ++ [s])
      else
        face_sections k cyl faces' approx r sections
  end.

Definition sumQ (l : list Q) : Q := fold_left Qplus l 0.

(** [try_intersect_z]: returns [(success, best_guess_zmax)].  The bounding
    box of a shape holds numbers, so the test [zmax is None] of the
    compound branch never fires and has no counterpart here. *)
Definition try_intersect_z (k : Kernel) (faces_compound : Geometry)
           (faces : list Face) (x y : Q) (run : RunParams)
  : Exc (bool * option Q) :=
  let cyl := make_tool run x y in
  if use_compound run then
    s <- k cyl faces_compound (use_approximation run) ;;
    let zmax := ZMax (BoundBox_ s) in
    if negb (is_valid_section s (radius run)) then Ok (false, None)
    else if rule_out_short_length run && negb (is_full_length s (radius run))
         then Ok (false, Some zmax)
    else Ok (true, Some zmax)
  else
    sections <- face_sections k cyl faces (use_approximation run) (radius run) [] ;;
    match sections with
    | [] => Ok (false, None)
    | s0 :: rest =>
        let min_len := 2 * (314159 # 100000) * radius run * (98 # 100) in
        let length := sumQ (map Length sections) in
        let zmax := QuadTree.py_max (ZMax (BoundBox_ s0))
                                    (map (fun s => ZMax (BoundBox_ s)) rest) in
        if rule_out_short_length run && Qltb length min_len
        then Ok (false, Some zmax)
        else Ok (true, Some zmax)
    end.

(** The eight runs of [intersect_z], in order. *)
Definition runs (tool_radius : Q) : list RunParams :=
  let tool_height := 1000 in
  [ mkRun tool_radius tool_height None None None false true false true;
    mkRun tool_radius tool_height None None (Some 180) false true false true;
    mkRun tool_radius tool_height None None (Some 45) false true false true;
    mkRun tool_radius tool_height None None None true true false false;
    mkRun tool_radius tool_height None None (Some 180) true true false false;
    mkRun tool_radius tool_height None None None false false false false;
    mkRun tool_radius tool_height None None None false true true false;
    mkRun tool_radius tool_height None None None false false true false ].

(** [max(zmaxs)]; [ValueError] on an empty list. *)
Definition max_of (zmaxs : list Q) : Exc Q :=
  match zmaxs with
  | [] => Raise ValueError
  | z :: rest => Ok (QuadTree.py_max z rest)
  end.

(** The [for] loop of [intersect_z] over the runs still to try, with the
    list [zmaxs] collected so far; falling out of the loop returns
    [None]. *)
Fixpoint intersect_loop (k : Kernel) (faces_compound : Geometry)
         (faces : list Face) (x y : Q) (todo : list RunParams)
         (zmaxs : list Q) : Exc (option Q) :=
  match todo with
  | [] => Ok None
  | run :: todo' =>
      '(success, z) <- try_intersect_z k faces_compound faces x y run ;;
      let zmaxs := match z with
                   | Some v => zmaxs ++ [v]
                   | None => zmaxs
                   end in
      if (success : bool) then
        m <- max_of zmaxs ;;
        Ok (Some m)
      else intersect_loop k faces_compound faces x y todo' zmaxs
  end.

(** [intersect_z] *)
Definition intersect_z (k : Kernel) (faces_compound : Geometry)
           (faces : list Face) (tool_radius : Q) (x y : Q) : Exc (option Q) :=
  intersect_loop k faces_compound faces x y (runs tool_radius) [].

End ZFaceSection.

(** * ZFace.py: commands, discretisation, projection, stepdown *)

Module ZFace.

Import QuadTree ZFaceSection.
Open Scope string_scope.
Open Scope list_scope.
Open Scope Q_scope.

(** ** Host primitives *)

(** Modelled from the spec: [isRoughly] is imported from the host's
    [Path.Geom] and is not part of the sources.  The spec speaks of values
    that are approximately equal, within a tolerance; it is taken as the
    host has it, [math.fabs(float1 - float2) <= error] with the default
    [error = Tolerance = 0.000001]. *)
Definition Tolerance : Q := 1 # 1000000.

Definition isRoughly (float1 float2 : Q) : bool :=
  Qleb (Qabs (float1 - float2)) Tolerance.

(** [FreeCAD.Vector] *)
Record Vector : Type := mkVector { vx : Q; vy : Q; vz : Q }.

(** Modelled from the spec: the name lists [CmdMoveStraight], [CmdMoveArc]
    and [CmdMoveRapid] of the host's [Path.Geom] are not part of the
    sources; a command name is kept as the class the spec's data model
    gives it (Straight, Arc, Rapid, Other), [OtherCmd] carrying the name of
    a command outside the three move lists. *)
Inductive CmdName : Type :=
| MoveStraight                 (* G1: what [Path.Command("G1", ...)] builds *)
| MoveArc
| MoveRapid                    (* G0 *)
| OtherCmd (name : string).

(** [Path.Command]: a name and the dictionary [Parameters]. *)
Record Command : Type := mkCommand {
  Name : CmdName;
  Parameters : list (string * Q)
}.

Fixpoint lookup (k : string) (d : list (string * Q)) : option Q :=
  match d with
  | [] => None
  | (k', v) :: d' => if String.eqb k k' then Some v else lookup k d'
  end.

(** [cmd.x], [cmd.y], [cmd.z], [cmd.Z]: the parameter, or [None]. *)
Definition attr (cmd : Command) (k : string) : option Q :=
  lookup k (Parameters cmd).

(** [d.get(k, default)] *)
Definition get (d : list (string * Q)) (k : string) (default : Q) : Q :=
  match lookup k d with
  | Some v => v
  | None => default
  end.

(** The edge primitives of the host: [PathGeom.edgeForCmd], which can
    return [None], and the two ways of sampling an edge. *)
Record PathGeom : Type := mkPathGeom {
  Edge : Type;
  edgeForCmd : Command -> Vector -> option Edge;
  discretize_Deflection : Edge -> Q -> list Vector;
  discretize_Distance : Edge -> Q -> list Vector
}.

(** ** Segments *)

Inductive SegmentKind : Type :=
| IS_ON_PLANE
| IS_HIGH
| OTHER.

Record TaggedSegment : Type := mkSegment {
  kind : SegmentKind;
  command : Command;
  pointlist : list Vector
}.

(** [is_on_plane]: the guard [cmd.Z] is the truth value of a number. *)
Definition is_on_plane (cmd : Command) (prev_location : Vector) : bool :=
  match attr cmd "Z" with
  | Some z =>
      if negb (Qeq_bool z 0) then isRoughly z 0
      else isRoughly (vz prev_location) 0
  | None => isRoughly (vz prev_location) 0
  end.

(** [is_motion] *)
Definition is_motion (cmd : Command) : bool :=
  match Name cmd with
  | MoveStraight | MoveArc | MoveRapid => true
  | OtherCmd _ => false
  end.

Definition is_arc (cmd : Command) : bool :=
  match Name cmd with
  | MoveArc => true
  | _ => false
  end.

(** The classification step of [discretize_commands]. *)
Definition classify (c : Command) (temp_location : Vector) : SegmentKind :=
  if negb (is_motion c) then OTHER
  else if is_on_plane c temp_location then IS_ON_PLANE
  else IS_HIGH.

(** The segments one command contributes: a motion without an edge
    contributes none. *)
Definition segments_of (g : PathGeom) (c : Command) (temp_location : Vector)
           (sampleD curveD : Q) : list TaggedSegment :=
  let kind := classify c temp_location in
  if is_motion c then
    match edgeForCmd g c temp_location with
    | Some edge =>
        let pointlist :=
          if is_arc c then discretize_Deflection g edge curveD
          else discretize_Distance g edge sampleD in
        [mkSegment kind c pointlist]
    | None => []
    end
  else [mkSegment kind c []].

Definition update_location (c : Command) (temp_location : Vector) : Vector :=
  mkVector (get (Parameters c) "X" (vx temp_location))
           (get (Parameters c) "Y" (vy temp_location))
           (get (Parameters c) "Z" (vz temp_location)).

(** The loop of [discretize_commands]. *)
Fixpoint discretize_loop (g : PathGeom) (commands : list Command)
         (temp_location : Vector) (sampleD curveD : Q) : list TaggedSegment :=
  match commands with
  | [] => []
  | c :: rest =>
      segments_of g c temp_location sampleD curveD ++
      discretize_loop g rest (update_location c temp_location) sampleD curveD
  end.

(** [discretize_commands] *)
Definition discretize_commands (g : PathGeom) (commands : list Command)
           (start_location : Vector) (safe_height clearance_height : Q)
           (sampleD curveD : Q) : list TaggedSegment :=
  let temp_location :=
    mkVector (vx start_location) (vy start_location) (vz start_location) in
  discretize_loop g commands temp_location sampleD curveD.

(** ** The object and its cache *)

(** [obj.PointCache]: a dictionary, with or without the key ["points"], or
    something that is not a dictionary. *)
Inductive PointCacheT : Type :=
| NotADict
| Dict (pts : option (list Sample)).

(** The mutable state an execution works on: properties of the document
    object ([PointCache], [_CacheStateHash], [BlockCacheInvalidation],
    [Path]) and attributes of the proxy ([_runtime_quadtree],
    [commandlist]). *)
Record Obj : Type := mkObj {
  PointCache : PointCacheT;
  runtime_quadtree : option Node;
  CacheStateHash : string;
  BlockCacheInvalidation : bool;
  Path : list Command;
  commandlist : list Command
}.

Definition set_PointCache (o : Obj) (pc : PointCacheT) : Obj :=
  mkObj pc (runtime_quadtree o) (CacheStateHash o)
        (BlockCacheInvalidation o) (Path o) (commandlist o).

Definition set_runtime_quadtree (o : Obj) (qt : option Node) : Obj :=
  mkObj (PointCache o) qt (CacheStateHash o)
        (BlockCacheInvalidation o) (Path o) (commandlist o).

Definition set_CacheStateHash (o : Obj) (h : string) : Obj :=
  mkObj (PointCache o) (runtime_quadtree o) h
        (BlockCacheInvalidation o) (Path o) (commandlist o).

Definition set_Path (o : Obj) (p : list Command) : Obj :=
  mkObj (PointCache o) (runtime_quadtree o) (CacheStateHash o)
        (BlockCacheInvalidation o) p (commandlist o).

Definition set_commandlist (o : Obj) (l : list Command) : Obj :=
  mkObj (PointCache o) (runtime_quadtree o) (CacheStateHash o)
        (BlockCacheInvalidation o) (Path o) l.

(** The base feature [obj.BasePath], of which the code reads
    [Path.Commands]. *)
Record BaseFeature : Type := mkBase {
  Commands : list Command
}.

(** What an execution reads and does not write: the tool controller, the
    heights and depths (after [updateDepths]), the sampling parameters, the
    faces collected from the links and their bounding box, the state hash
    of the current geometry, the base feature ([None] when it is missing
    or not a path feature), and what the host's
    [PathUtils.getPathWithPlacement(obj.BasePath)] returns or raises. *)
Record Setup : Type := mkSetup {
  ShapeID : string;
  ToolDiameter : Q;
  HorizFeed : Q; VertFeed : Q; HorizRapid : Q; VertRapid : Q;
  SafeHeight : Q; ClearanceHeight : Q;
  CacheGrid : Q;
  SegInterpolate : Q; ArcInterpolate : Q;
  OpStockZMax : Q;
  StepDown : Q; StartDepth : Q;
  collected_faces : list Face;
  compound_bounds : option (Q * Q * Q * Q);
  current_hash : string;
  BasePath : option BaseFeature;
  PathWithPlacement : Exc (list Command)
}.

(** Computations on the object: the state after, and a value or an
    exception. *)
Definition M (A : Type) : Type := Obj -> Obj * Exc A.

Definition ret {A} (a : A) : M A := fun o => (o, Ok a).

Definition raise {A} (e : exn) : M A := fun o => (o, Raise e).

Definition mbind {A B} (m : M A) (k : A -> M B) : M B :=
  fun o =>
    let '(o', r) := m o in
    match r with
    | Ok a => k a o'
    | Raise e => (o', Raise e)
    end.

(** [try: m except Exception: h] *)
Definition try_except {A} (m : M A) (h : M A) : M A :=
  fun o =>
    let '(o', r) := m o in
    match r with
    | Ok a => (o', Ok a)
    | Raise _ => h o'
    end.

Definition modify (f : Obj -> Obj) : M unit := fun o => (f o, Ok tt).

Notation "x <~ m ;; k" := (mbind m (fun x => k))
  (at level 61, m at next level, right associativity).
Notation "m ;;; k" := (mbind m (fun _ => k))
  (at level 61, right associativity).

(** [_clear_cache] *)
Definition _clear_cache : M unit :=
  fun o =>
    if negb (BlockCacheInvalidation o) then
      (set_runtime_quadtree (set_PointCache o (Dict None)) None, Ok tt)
    else (o, Ok tt).

(** [_rebuild_quadtree] *)
Definition _rebuild_quadtree (fuel : nat) (bounds : option (Q * Q * Q * Q))
  : M unit :=
  fun o =>
    let pts := match PointCache o with
               | Dict (Some l) => l
               | _ => []
               end in
    match pts with
    | _ :: _ =>
        match from_point_list fuel pts 0 8 with
        | Ok qt => (set_runtime_quadtree o qt, Ok tt)
        | Raise e => (o, Raise e)
        end
    | [] =>
        let '(x0, x1, y0, y1) :=
          match bounds with
          | Some b => b
          | None => (-(1000), 1000, -(1000), 1000)
          end in
        (set_runtime_quadtree o (Some (QuadTree_init x0 x1 y0 y1 8)), Ok tt)
    end.

(** [_insert_cache_point] *)
Definition _insert_cache_point (fuel : nat) (x y z : Q) : M unit :=
  fun o =>
    match PointCache o with
    | NotADict => (o, Raise AttributeError)
    | Dict d =>
        let pts := match d with Some l => l | None => [] end in
        let o := set_PointCache o (Dict (Some (pts ++ [(x, y, z)]))) in
        match runtime_quadtree o with
        | None => (o, Raise AttributeError)
        | Some qt =>
            let '(qt', r) := QuadTree_insert fuel qt x y z in
            let o := set_runtime_quadtree o (Some qt') in
            match r with
            | Raise e => (o, Raise e)
            | Ok true => (o, Ok tt)
            | Ok false => (o, Raise ValueError)
            end
        end
    end.

(** The handler of [get_surface_z]: persist the point even if the runtime
    insert failed. *)
Definition persist_point (x y z : Q) : M unit :=
  fun o =>
    let pts := match PointCache o with
               | Dict (Some l) => l
               | _ => []
               end in
    (set_PointCache o (Dict (Some (pts ++ [(x, y, z)]))), Ok tt).

(** [dist <= tol] for [dist = math.sqrt(d2)], on the squared distance the
    model of the tree returns. *)
Definition within (d2 tol : Q) : bool :=
  Qleb 0 tol && Qleb d2 (tol * tol).

(** [get_surface_z] *)
Definition get_surface_z (k : Kernel) (fuel : nat) (cfg : Setup) (x y : Q)
  : M (option Q) :=
  fun o =>
    match runtime_quadtree o with
    | None => (o, Raise AttributeError)
    | Some qt =>
        let hit :=
          match QuadTree_nearest qt x y with
          | Some ((_, _, pz), d2) =>
              if within d2 (CacheGrid cfg) then Some pz else None
          | None => None
          end in
        match hit with
        | Some pz => (o, Ok (Some pz))
        | None =>
            match intersect_z k (Compound (collected_faces cfg))
                              (collected_faces cfg)
                              (ToolDiameter cfg / 2) x y with
            | Raise e => (o, Raise e)
            | Ok None => (o, Ok None)
            | Ok (Some z_val) =>
                (try_except (_insert_cache_point fuel x y z_val)
                            (persist_point x y z_val) ;;;
                 ret (Some z_val)) o
            end
        end
    end.

(** ** Projection *)

(** The body of the loop over the points of a segment. *)
Definition project_point (k : Kernel) (fuel : nat) (cfg : Setup)
           (seg_kind : SegmentKind) (z_original_min : Q) (point : Vector)
  : M Command :=
  z_surface <~ match seg_kind with
               | IS_ON_PLANE => get_surface_z k fuel cfg (vx point) (vy point)
               | _ => ret (Some (vz point + OpStockZMax cfg))
               end ;;
  let z_surface := match z_surface with
                   | Some v => v
                   | None => SafeHeight cfg
                   end in
  let internal_offset := vz point - z_original_min in
  let final_z := z_surface + internal_offset in
  let final_z := if Qltb (SafeHeight cfg) final_z then SafeHeight cfg
                 else final_z in
  ret (mkCommand MoveStraight
                 [("X", vx point); ("Y", vy point); ("Z", final_z)]).

Fixpoint project_points (k : Kernel) (fuel : nat) (cfg : Setup)
         (seg_kind : SegmentKind) (z_original_min : Q) (pts : list Vector)
  : M (list Command) :=
  match pts with
  | [] => ret []
  | point :: pts' =>
      c <~ project_point k fuel cfg seg_kind z_original_min point ;;
      cs <~ project_points k fuel cfg seg_kind z_original_min pts' ;;
      ret (c :: cs)
  end.

(** The commands one segment contributes to [newcommandlist]. *)
Definition project_segment (k : Kernel) (fuel : nat) (cfg : Setup)
           (z_original_min : Q) (seg : TaggedSegment) : M (list Command) :=
  match kind seg with
  | OTHER => ret [command seg]
  | _ =>
      match pointlist seg with
      | [] => ret [command seg]
      | pts => project_points k fuel cfg (kind seg) z_original_min pts
      end
  end.

Fixpoint project_segments (k : Kernel) (fuel : nat) (cfg : Setup)
         (z_original_min : Q) (segs : list TaggedSegment)
  : M (list Command) :=
  match segs with
  | [] => ret []
  | seg :: segs' =>
      cs <~ project_segment k fuel cfg z_original_min seg ;;
      rest <~ project_segments k fuel cfg z_original_min segs' ;;
      ret (cs ++ rest)
  end.

(** [z_original_min]: the least Z of the sampled points, [0.0] without
    points. *)
Definition original_min (segs : list TaggedSegment) : Q :=
  match flat_map pointlist segs with
  | [] => 0
  | p :: ps => py_min (vz p) (map vz ps)
  end.

(** ** Stepdown *)

(** [getPoint]: the first X, the first Y and the first Z met, as soon as
    all three are known. *)
Fixpoint getPoint_loop (commands : list Command) (x y z : option Q)
  : option Vector :=
  match commands with
  | [] => None
  | cmd :: rest =>
      let first (a b : option Q) :=
        match a, b with
        | None, Some v => Some v
        | _, _ => a
        end in
      let x := first x (attr cmd "X") in
      let y := first y (attr cmd "Y") in
      let z := first z (attr cmd "Z") in
      match x, y, z with
      | Some a, Some b, Some c => Some (mkVector a b c)
      | _, _, _ => getPoint_loop rest x y z
      end
  end.

Definition getPoint (commands : list Command) : option Vector :=
  getPoint_loop commands None None None.

(** [isClosedPath] *)
Definition isClosedPath (point1 point2 : option Vector) : bool :=
  match point1, point2 with
  | Some p1, Some p2 =>
      if negb (isRoughly (vx p1) (vx p2)) then false
      else if negb (isRoughly (vy p1) (vy p2)) then false
      else true
  | _, _ => false
  end.

(** [isLower] *)
Definition isLower (z1 z2 : option Q) : bool :=
  match z1, z2 with
  | Some a, Some b =>
      if isRoughly a b then false
      else if Qltb a b then true
      else false
  | _, _ => false
  end.

(** [a == b] for a parameter that may be [None] and a number. *)
Definition eq_value (a : option Q) (b : Q) : bool :=
  match a with
  | Some v => Qeq_bool v b
  | None => false
  end.

Definition is_None (a : option Q) : bool :=
  match a with
  | Some _ => false
  | None => true
  end.

Definition rapid_margin : Q := 1 # 2.

Section Stepdown.

(** [interpolate_feedrate]: it takes square roots, so its model lives
    over the reals (module [Feed]); here it is the function that gives
    the F word of a cutting move, which nothing else depends on. *)
Variable interpolate_feedrate : Vector -> Vector -> Q -> Q -> Q.

Variables step_depth start_depth clearance_height safe_height : Q.
Variables h_feed v_feed h_rapid v_rapid : Q.
Variable rapid_through_cleared : bool.

(** The condition under which the loop body skips a command. *)
Definition skipped (skipZ : bool) (cmd : Command) : bool :=
  skipZ && is_None (attr cmd "X") && is_None (attr cmd "Y") &&
  (eq_value (attr cmd "Z") clearance_height ||
   eq_value (attr cmd "Z") safe_height).

(** One turn of [for cmd in path.Commands] on a command that is not
    skipped: the cursor after it, the flag [repeat] after it, and the
    command emitted. *)
Definition step_command (limit_depth : Q) (prevPoint : Vector)
           (cur : Vector) (repeat : bool) (cmd : Command)
  : Vector * bool * Command :=
  let current_x := match attr cmd "X" with Some v => v | None => vx cur end in
  let current_y := match attr cmd "Y" with Some v => v | None => vy cur end in
  let '(current_z, repeat) :=
    match attr cmd "Z" with
    | Some z =>
        if isLower (Some z) (Some limit_depth) then (limit_depth, true)
        else (z, repeat)
    | None => (vz cur, repeat)
    end in
  let '(current_z, repeat) :=
    if isLower (attr cmd "Z") (Some limit_depth) then (limit_depth, true)
    else (current_z, repeat) in
  let '(current_z, thisFeed) :=
    if rapid_through_cleared &&
       negb (isLower (Some current_z)
                     (Some (limit_depth + step_depth + rapid_margin)))
    then (current_z + rapid_margin, h_rapid)
    else (current_z,
          interpolate_feedrate prevPoint
            (mkVector current_x current_y current_z) h_feed v_feed) in
  (mkVector current_x current_y current_z, repeat,
   mkCommand MoveStraight
     [("X", current_x); ("Y", current_y); ("Z", current_z); ("F", thisFeed)]).

(** [for cmd in path.Commands] of one pass: the commands emitted and the
    final value of [repeat]. *)
Fixpoint pass_loop (skipZ : bool) (limit_depth : Q) (prevPoint : Vector)
         (cmds : list Command) (cur : Vector) (repeat : bool)
  : list Command * bool :=
  match cmds with
  | [] => ([], repeat)
  | cmd :: rest =>
      if skipped skipZ cmd then
        pass_loop skipZ limit_depth prevPoint rest cur repeat
      else
        let '(cur', repeat', out) :=
          step_command limit_depth prevPoint cur repeat cmd in
        let '(outs, r) :=
          pass_loop skipZ limit_depth prevPoint rest cur' repeat' in
        (out :: outs, r)
  end.

(** One pass of the [while] loop, for the ceiling [limit_depth] already
    lowered: the commands it appends and whether another pass is due.
    Reading [startPoint.x] of a path without a start point raises. *)
Definition run_pass (path : list Command) (startPoint endPoint : option Vector)
           (limit_depth : Q) (firstStep : bool) : Exc (list Command * bool) :=
  let skipZ := negb firstStep && isClosedPath startPoint endPoint in
  match startPoint with
  | None => Raise AttributeError
  | Some sp =>
      let lead :=
        if negb skipZ then
          [ mkCommand MoveRapid [("Z", vz sp)];
            mkCommand MoveRapid [("X", vx sp); ("Y", vy sp)] ]
        else [] in
      let prevPoint := mkVector (vx sp) (vy sp) (vz sp) in
      let '(body, repeat) :=
        pass_loop skipZ limit_depth prevPoint path sp false in
      Ok (lead ++ body, repeat)
  end.

(** [while repeat:], with at most [passes] passes. *)
Fixpoint stepdown_loop (passes : nat) (path : list Command)
         (startPoint endPoint : option Vector) (limit_depth : Q)
         (firstStep : bool) : Exc (list Command) :=
  match passes with
  | O => Raise OutOfFuel
  | S passes' =>
      let limit_depth := limit_depth - step_depth in
      '(cmds, repeat) <-
         run_pass path startPoint endPoint limit_depth firstStep ;;
      if (repeat : bool) then
        rest <- stepdown_loop passes' path startPoint endPoint
                              limit_depth false ;;
        Ok (cmds ++ rest)
      else Ok cmds
  end.

(** [process_stepdown] *)
Definition process_stepdown (passes : nat) (path : list Command)
  : Exc (list Command) :=
  let startPoint := getPoint path in
  let endPoint := getPoint (rev path) in
  stepdown_loop passes path startPoint endPoint start_depth true.

End Stepdown.

(** ** Execute *)

(** The base feature when it passes the sanity check of [opExecute]. *)
Definition usable_base (cfg : Setup) : option BaseFeature :=
  match BasePath cfg with
  | Some b => match Commands b with
              | [] => None
              | _ :: _ => Some b
              end
  | None => None
  end.

Definition lift {A} (r : Exc A) : M A := fun o => (o, r).

(** [opExecute], from the tool check to the assignment of
    [self.commandlist]. *)
Definition opExecute (k : Kernel) (g : PathGeom)
           (interpolate_feedrate : Vector -> Vector -> Q -> Q -> Q)
           (fuel passes : nat) (cfg : Setup) : M unit :=
  fun o =>
    if negb (String.eqb (ShapeID cfg) "endmill") then (o, Ok tt)
    else
      ((fun o1 =>
          if negb (String.eqb (current_hash cfg) (CacheStateHash o1))
          then _clear_cache o1 else (o1, Ok tt)) ;;;
       modify (fun o1 => set_CacheStateHash o1 (current_hash cfg)) ;;;
       match collected_faces cfg with
       | [] =>
           original <~ lift (PathWithPlacement cfg) ;;
           modify (fun o1 => set_Path o1 original)
       | _ :: _ =>
           match usable_base cfg with
           | None => modify (fun o1 => set_Path o1 [])
           | Some b =>
               _rebuild_quadtree fuel (compound_bounds cfg) ;;;
               let start_location := mkVector 0 0 (SafeHeight cfg) in
               let segments :=
                 discretize_commands g (Commands b) start_location
                   (SafeHeight cfg) (ClearanceHeight cfg)
                   (SegInterpolate cfg) (ArcInterpolate cfg) in
               let z_original_min := original_min segments in
               newcommandlist <~
                 project_segments k fuel cfg z_original_min segments ;;
               stepped_down <~
                 lift (process_stepdown interpolate_feedrate
                         (StepDown cfg) (StartDepth cfg)
                         (ClearanceHeight cfg) (SafeHeight cfg)
                         (HorizFeed cfg) (VertFeed cfg) (HorizRapid cfg)
                         true passes newcommandlist) ;;
               modify (fun o1 => set_commandlist o1 stepped_down)
           end
       end) o.

End ZFace.

(** * ZFace.py: feed interpolation, over the reals *)

Module Feed.

Open Scope R_scope.

(** Modelled from the spec: [isRoughly] of the host's [Path.Geom], as in
    module [ZFace]: [math.fabs(float1 - float2) <= error] with the default
    [error = Tolerance = 0.000001]. *)
Definition Tolerance : R := 1 / 1000000.

Definition isRoughly (float1 float2 : R) : bool :=
  if Rle_dec (Rabs (float1 - float2)) Tolerance then true else false.

Definition gt (a b : R) : bool :=
  if Rlt_dec b a then true else false.

(** [math.hypot] *)
Definition hypot (a b : R) : R := sqrt (a * a + b * b).

Definition Point : Type := (R * R * R)%type.

Definition px (p : Point) : R := fst (fst p).
Definition py (p : Point) : R := snd (fst p).
Definition pz (p : Point) : R := snd p.

(** [interpolate_feedrate(p0, p1, horiz_feed, vert_feed)] *)
Definition interpolate_feedrate (p0 p1 : Point) (horiz_feed vert_feed : R)
  : R :=
  let dx := px p1 - px p0 in
  let dy := py p1 - py p0 in
  let dz := pz p1 - pz p0 in
  let dist_xy := hypot dx dy in
  let dist := sqrt (dx * dx + dy * dy + dz * dz) in
  if negb (isRoughly dist 0) then
    if isRoughly dist_xy 0 then
      if gt dz 0 then horiz_feed else vert_feed
    else if isRoughly dz 0 then horiz_feed
    else
      let Fh := horiz_feed * dist / dist_xy in
      if gt dz 0 then Fh
      else
        let Fv := vert_feed * dist / Rabs dz in
        Rmin Fh Fv
  else vert_feed.

(** The components that the call with [test_feeds=True] returns next to
    the feed: [(h_comp, v_comp)]. *)
Definition feed_components (p0 p1 : Point) (horiz_feed vert_feed : R)
  : R * R :=
  let dx := px p1 - px p0 in
  let dy := py p1 - py p0 in
  let dz := pz p1 - pz p0 in
  let dist_xy := hypot dx dy in
  let dist := sqrt (dx * dx + dy * dy + dz * dz) in
  let F := interpolate_feedrate p0 p1 horiz_feed vert_feed in
  (if gt dist 0 then F * dist_xy / dist else 0,
   if gt dist 0 then F * Rabs dz / dist else 0).

End Feed.

(** * Specification vocabulary *)

Unset Implicit Arguments.

Module QuadTreeSpec.

Import QuadTree.
Open Scope Q_scope.

(** All the points stored in a node and below it. *)
Fixpoint tree_points (n : Node) : list Sample :=
  match n with
  | mkNode _ _ _ _ _ pts chs =>
      pts ++ match chs with
             | None => []
             | Some l => flat_map tree_points l
             end
  end.

(** The point lies in the node's region. *)
Definition in_box (n : Node) (p : Sample) : Prop :=
  let '(px, py, _) := p in
  (xmin n <= px /\ px <= xmax n) /\ (ymin n <= py /\ py <= ymax n).

(** The invariant of the data model: every sample stored under a node lies
    within that node's region, at every level. *)
Inductive node_inv : Node -> Prop :=
| node_inv_intro n :
    Forall (in_box n) (tree_points n) ->
    (forall chs, children n = Some chs -> Forall node_inv chs) ->
    node_inv n.

(** [inserted_from root0 S root]: [root] is [root0] after a sequence of
    calls of [insert], and [S] lists the samples of the calls that
    returned [True]. *)
Inductive inserted_from (root0 : Node) : list Sample -> Node -> Prop :=
| inserted_none : inserted_from root0 [] root0
| inserted_accept S root fuel x y z root' :
    inserted_from root0 S root ->
    QuadTree_insert fuel root x y z = (root', Ok true) ->
    inserted_from root0 ((x, y, z) :: S) root'
| inserted_reject S root fuel x y z root' :
    inserted_from root0 S root ->
    QuadTree_insert fuel root x y z = (root', Ok false) ->
    inserted_from root0 S root'.

(** [b] is a best answer for the query [(x, y)] among the points that
    satisfy [P]: nothing when there is no such point, else one of them at
    the least squared distance, with that distance. *)
Definition best_for (x y : Q) (P : Sample -> Prop) (b : option Best) : Prop :=
  match b with
  | None => forall q, ~ P q
  | Some (d2, p) =>
      P p /\ d2 = dist_sq p x y /\ forall q, P q -> d2 <= dist_sq q x y
  end.

(** Induction on nodes that reaches into the list of children. *)
Section NodeInduction.

Variable P : Node -> Prop.
Hypothesis Hleaf : forall x0 x1 y0 y1 cap pts,
    P (mkNode x0 x1 y0 y1 cap pts None).
Hypothesis Hsplit : forall x0 x1 y0 y1 cap pts chs,
    Forall P chs -> P (mkNode x0 x1 y0 y1 cap pts (Some chs)).

Fixpoint Node_nested_ind (n : Node) : P n :=
  match n with
  | mkNode x0 x1 y0 y1 cap pts None => Hleaf x0 x1 y0 y1 cap pts
  | mkNode x0 x1 y0 y1 cap pts (Some chs) =>
      Hsplit x0 x1 y0 y1 cap pts chs
        ((fix go (l : list Node) : Forall P l :=
            match l with
            | [] => Forall_nil P
            | ch :: t => Forall_cons ch (Node_nested_ind ch) (go t)
            end) chs)
  end.

End NodeInduction.

Definition same_box (n n' : Node) : Prop :=
  xmin n' = xmin n /\ xmax n' = xmax n /\ ymin n' = ymin n /\ ymax n' = ymax n.

(** What a call [ins] that offers the point [p] to a node may do: keep the
    region; on [True] add exactly [p] below the node and keep the
    invariant; on [False] leave the node alone. *)
Definition ins_spec (ins : Node -> Node * Exc bool) (p : Sample) : Prop :=
  forall ch ch' r,
    ins ch = (ch', r) ->
    same_box ch ch' /\
    (r = Ok true ->
     in_box ch p /\
     Permutation (tree_points ch') (p :: tree_points ch) /\
     (node_inv ch -> node_inv ch')) /\
    (r = Ok false -> ch' = ch).

(** A small index of capacity one.  It starts as a subdivided root that
    has kept one sample of its own; three samples are added, so that a
    child is subdivided in turn. *)
Definition demo_root0 : Node :=
  let root := QuadTree_init 0 8 0 8 1 in
  set_children (set_points root [(4, 4, 9)]) (Some (subdivide root)).
Definition demo_root1 : Node := fst (QuadTree_insert 5 demo_root0 1 1 5).
Definition demo_root2 : Node := fst (QuadTree_insert 5 demo_root1 6 6 7).
Definition demo_root3 : Node := fst (QuadTree_insert 5 demo_root2 7 7 2).

End QuadTreeSpec.

Module ZFaceSectionSpec.

Import ZFaceSection.
Open Scope Q_scope.

(** The values of a list of optional heights that are not [None]. *)
Definition non_null (zs : list (option Q)) : list Q :=
  flat_map (fun z => match z with Some v => [v] | None => [] end) zs.

(** [m] is a greatest element of [l]. *)
Definition is_max (m : Q) (l : list Q) : Prop :=
  In m l /\ forall v, In v l -> v <= m.

(** The outcomes of the runs [rs], tried in order: each run returned
    without raising, with the pair listed for it. *)
Definition outcomes (k : Kernel) (faces_compound : Geometry)
           (faces : list Face) (x y : Q)
           (rs : list RunParams) (res : list (bool * option Q)) : Prop :=
  Forall2 (fun run r => try_intersect_z k faces_compound faces x y run = Ok r)
          rs res.

(** Sample shapes: a valid section of length [len] reaching up to [z], and
    an invalid one. *)
Definition section_shape (len z : Q) : Shape :=
  mkShape true false (mkBoundBox 0 1 0 1 0 z) len 1.

Definition invalid_shape : Shape :=
  mkShape false true (mkBoundBox 0 0 0 0 0 0) 0 0.

(** A kernel that only ever finds a partial section, 3 high, and only for
    the exact cylinder against the compound without approximation. *)
Definition partial_kernel : Kernel :=
  fun tool geom approx =>
    if approx then Ok invalid_shape
    else match segments tool, geom with
         | None, Compound _ => Ok (section_shape 0 3)
         | _, _ => Ok invalid_shape
         end.

(** A kernel whose section is partial (and 10 high) for the tool as built,
    and complete (and 5 high) once the tool is rotated. *)
Definition flaky_kernel : Kernel :=
  fun tool geom approx =>
    match rotations tool with
    | [] => Ok (section_shape 1 10)
    | _ :: _ => Ok (section_shape 7 5)
    end.

(** A kernel that raises on every call. *)
Definition raising_kernel : Kernel :=
  fun _ _ _ => Raise GeometryError.

(** The kernel raises [e] in the run: on the one section call of a run
    against the compound; or, in a per-face run, on the section call for a
    face, the calls for the faces before it having returned. *)
Inductive raises_in_run (k : Kernel) (faces_compound : Geometry)
          (faces : list Face) (x y : Q) (run : RunParams) (e : exn) : Prop :=
| raises_on_compound :
    use_compound run = true ->
    k (make_tool run x y) faces_compound (use_approximation run) = Raise e ->
    raises_in_run k faces_compound faces x y run e
| raises_on_face (before : list Face) (f : Face) (rest : list Face) :
    use_compound run = false ->
    faces = before ++ f :: rest ->
    Forall (fun f' =>
              exists s, k (make_tool run x y) (SingleFace f')
                          (use_approximation run) = Ok s) before ->
    k (make_tool run x y) (SingleFace f) (use_approximation run) = Raise e ->
    raises_in_run k faces_compound faces x y run e.

(** A kernel that finds nothing valid against the compound and raises on
    every single face. *)
Definition face_raising_kernel : Kernel :=
  fun _ geom _ =>
    match geom with
    | Compound _ => Ok invalid_shape
    | SingleFace _ => Raise GeometryError
    end.

End ZFaceSectionSpec.

Module ZFaceSpec.

Import QuadTree ZFaceSection ZFaceSectionSpec ZFace.
Open Scope string_scope.
Open Scope list_scope.
Open Scope Q_scope.

(** A host whose [edgeForCmd] never builds an edge. *)
Definition no_edge_geom : PathGeom :=
  @mkPathGeom unit (fun _ _ => None) (fun _ _ => []) (fun _ _ => []).

(** A host that builds the straight edge to the command's target and
    samples it at its two ends. *)
Definition line_geom : PathGeom :=
  @mkPathGeom (Vector * Vector)%type
             (fun c loc => Some (loc, update_location c loc))
             (fun e _ => [fst e; snd e])
             (fun e _ => [fst e; snd e]).

(** A kernel that finds the complete section of a flat face at height 5. *)
Definition flat_kernel : Kernel :=
  fun _ _ _ => Ok (section_shape 100 5).

Definition demo_setup : Setup :=
  mkSetup "endmill" 4 100 50 1000 500 25 30 12 1 (1 # 10) 0 1 0
          [0%nat] (Some (0, 10, 0, 10)) "h1" None (Ok []).

(** An object with an empty cache and a fresh runtime index. *)
Definition demo_obj : Obj :=
  mkObj (Dict None) (Some (QuadTree_init 0 10 0 10 8)) "h1" false [] [].

(** [G1 Z0], a plunge to the reference plane. *)
Definition plunge_to_zero : Command := mkCommand MoveStraight [("Z", 0)].

(** The query misses the cache: no stored sample within the tolerance. *)
Definition cache_miss (qt : Node) (tol x y : Q) : Prop :=
  match QuadTree_nearest qt x y with
  | Some (_, d2) => within d2 tol = false
  | None => True
  end.




(** The projection of two on-plane points, the second 30 above the
    baseline, over the flat face at height 5 with safe height 25: the
    object after, and the commands. *)
Definition project_points_demo : Obj * list Command :=
  match project_points flat_kernel 10 demo_setup IS_ON_PLANE 0
                       [mkVector 1 1 0; mkVector 2 1 30] demo_obj with
  | (o, Ok cs) => (o, cs)
  | (o, Raise _) => (o, [])
  end.

(** One of the preconditions of [opExecute] fails: the tool is not an
    endmill, no face was collected, or there is no base program. *)
Definition precondition_fails (cfg : Setup) : Prop :=
  ShapeID cfg <> "endmill" \/
  collected_faces cfg = [] \/
  usable_base cfg = None.

(** The cache invalidation of [opExecute] fires: the tool check passed,
    the stored hash is not the current one, and invalidation is not
    blocked. *)
Definition invalidates (cfg : Setup) (o : Obj) : bool :=
  String.eqb (ShapeID cfg) "endmill" &&
  negb (String.eqb (current_hash cfg) (CacheStateHash o)) &&
  negb (BlockCacheInvalidation o).

(** The setup of the demonstration without faces, and without a base
    program. *)
Definition no_faces_setup : Setup :=
  mkSetup "endmill" 4 100 50 1000 500 25 30 12 1 (1 # 10) 0 1 0
          [] None "h1" (Some (mkBase [plunge_to_zero])) (Ok [plunge_to_zero]).

Definition no_base_setup : Setup :=
  mkSetup "endmill" 4 100 50 1000 500 25 30 12 1 (1 # 10) 0 1 0
          [0%nat] (Some (0, 10, 0, 10)) "h1" None (Raise AttributeError).

Definition ball_setup : Setup :=
  mkSetup "ballend" 4 100 50 1000 500 25 30 12 1 (1 # 10) 0 1 0
          [0%nat] (Some (0, 10, 0, 10)) "h1" None (Raise AttributeError).

(** An object with a cached sample, an output path and a stale hash. *)
Definition used_obj : Obj :=
  mkObj (Dict (Some [(1, 1, 5)])) None "h0" false
        [mkCommand MoveStraight [("X", 1); ("Y", 1); ("Z", 5)]] [].

(** A feed function to run the stepdown with. *)
Definition flat_feed : Vector -> Vector -> Q -> Q -> Q :=
  fun _ _ h _ => h.

(** A path of one cutting move three units below the start depth 0. *)
Definition deep_path : list Command :=
  [mkCommand MoveStraight [("X", 0); ("Y", 0); ("Z", -(3))]].


(** A small program: plunge to the reference plane, cut along X, stop the
    spindle. *)
Definition plunge_and_cut : list Command :=
  [ plunge_to_zero;
    mkCommand MoveStraight [("X", 4); ("Y", 0)];
    mkCommand (OtherCmd "M5") [] ].

End ZFaceSpec.

Module FeedSpec.

Import Feed.
Open Scope R_scope.

(** The branch taken by [interpolate_feedrate], read off the lengths. *)
Definition feed_branch (dz dist_xy dist h v : R) : R :=
  if negb (isRoughly dist 0) then
    if isRoughly dist_xy 0 then
      if gt dz 0 then h else v
    else if isRoughly dz 0 then h
    else
      if gt dz 0 then h * dist / dist_xy
      else Rmin (h * dist / dist_xy) (v * dist / Rabs dz)
  else v.

(** A short descent, 12e-7 along X and 9e-7 down. *)
Definition origin : Point := (0, 0, 0).
Definition shallow_target : Point := (12 / 10000000, 0, - (9 / 10000000)).

(** A descent of length 5e-7, 3e-7 along X and 4e-7 down. *)
Definition tiny_target : Point := (3 / 10000000, 0, - (4 / 10000000)).

End FeedSpec.

Module QuadTreeMoreSpec.

Import QuadTree QuadTreeSpec.
Open Scope Q_scope.

(** No leaf holds more samples than its capacity. *)
Inductive leaves_within_capacity : Node -> Prop :=
| within_capacity_leaf n :
    children n = None ->
    (List.length (points n) <= capacity n)%nat ->
    leaves_within_capacity n
| within_capacity_inner n chs :
    children n = Some chs ->
    Forall leaves_within_capacity chs ->
    leaves_within_capacity n.

(** The sample lies at the planar position [(x, y)]. *)
Definition at_xy (x y : Q) (p : Sample) : Prop :=
  fst (fst p) = x /\ snd (fst p) = y.

(** A full leaf: capacity one, one sample at (1, 1). *)
Definition demo_root1_nw : Node :=
  set_points (new_node 0 4 0 4 1) [(1, 1, 5)].

(** The tree that [from_point_list] builds from three points with
    capacity one (the root itself when the construction raises). *)
Definition from_point_list_demo : Node :=
  match from_point_list 5 [(1, 1, 5); (6, 6, 7); (7, 7, 2)] 0 1 with
  | Ok (Some qt) => qt
  | _ => new_node 0 1 0 1 1
  end.

End QuadTreeMoreSpec.

Module ZFaceSectionMoreSpec.

Import ZFaceSection ZFaceSectionSpec.
Open Scope Q_scope.

(** A kernel that cuts every face along an edge, 4 high. *)
Definition cutting_kernel : Kernel :=
  fun _ _ _ => Ok (mkShape true false (mkBoundBox 0 1 0 1 0 4) 100 3).

End ZFaceSectionMoreSpec.

Module ZFaceMoreSpec.

Import QuadTree QuadTreeSpec ZFaceSection ZFaceSectionSpec ZFace ZFaceSpec.
Open Scope string_scope.
Open Scope list_scope.
Open Scope Q_scope.

(** The samples of the persistent cache. *)
Definition cache_points (o : Obj) : list Sample :=
  match PointCache o with
  | Dict (Some l) => l
  | _ => []
  end.

Definition is_dict (o : Obj) : Prop :=
  exists d, PointCache o = Dict d.

(** [o'] differs from [o] at most in the cache and the runtime index, and
    its cache holds the samples of [o], in order, followed by more. *)
Definition cache_grown (o o' : Obj) : Prop :=
  (exists added, cache_points o' = cache_points o ++ added) /\
  (is_dict o -> is_dict o') /\
  CacheStateHash o' = CacheStateHash o /\
  BlockCacheInvalidation o' = BlockCacheInvalidation o /\
  Path o' = Path o /\
  commandlist o' = commandlist o.

(** [l1] is [l2] with some elements left out. *)
Inductive subseq {A : Type} : list A -> list A -> Prop :=
| subseq_nil : subseq [] []
| subseq_keep a l1 l2 : subseq l1 l2 -> subseq (a :: l1) (a :: l2)
| subseq_drop a l1 l2 : subseq l1 l2 -> subseq l1 (a :: l2).

(** The first value of the parameter [k] in a list of commands. *)
Fixpoint first_attr (k : string) (cmds : list Command) : option Q :=
  match cmds with
  | [] => None
  | cmd :: rest =>
      match attr cmd k with
      | Some v => Some v
      | None => first_attr k rest
      end
  end.

(** [len(seg.pointlist) if seg.pointlist else 1], the steps that
    [opExecute] counts for a segment. *)
Definition steps (seg : TaggedSegment) : nat :=
  match pointlist seg with
  | [] => 1%nat
  | pts => List.length pts
  end.

(** An object whose runtime index holds the sample (1, 1, 5). *)
Definition warm_obj : Obj :=
  mkObj (Dict (Some [(1, 1, 5)]))
        (Some (fst (QuadTree_insert 5 (QuadTree_init 0 10 0 10 8) 1 1 5)))
        "h1" false [] [].

(** The command is not a motion: what [discretize_commands] tags [OTHER]. *)
Definition non_motion (c : Command) : bool := negb (is_motion c).

(** The segment asks nothing of the surface oracle: it is not on the
    reference plane, or it has no sampled point. *)
Definition off_oracle (seg : TaggedSegment) : Prop :=
  kind seg <> IS_ON_PLANE \/ pointlist seg = [].

(** A rapid that was sampled at two points, above the reference plane. *)
Definition high_segment : TaggedSegment :=
  mkSegment IS_HIGH (mkCommand MoveRapid [("X", 4); ("Z", 10)])
            [mkVector 0 0 10; mkVector 4 0 10].

(** A kernel that finds no section anywhere. *)
Definition blind_kernel : Kernel :=
  fun _ _ _ => Ok invalid_shape.

(** The computation [m] only ever grows the cache, whatever it returns or
    raises. *)
Definition grows {A : Type} (m : M A) : Prop :=
  forall o, cache_grown o (fst (m o)).

(** A segment on the reference plane with one sampled point. *)
Definition plane_segment : TaggedSegment :=
  mkSegment IS_ON_PLANE plunge_to_zero [mkVector 1 1 0].

(** [a] if it is known, else [b]. *)
Definition or_else (a b : option Q) : option Q :=
  match a with
  | Some _ => a
  | None => b
  end.

(** The point of three coordinates, when all three are known. *)
Definition point_of (x y z : option Q) : option Vector :=
  match x, y, z with
  | Some a, Some b, Some c => Some (mkVector a b c)
  | _, _, _ => None
  end.

(** Every Z that the commands carry is at least [floor]. *)
Definition z_not_below (floor : Q) (cmds : list Command) : Prop :=
  Forall (fun c => forall z, attr c "Z" = Some z -> floor <= z) cmds.

(** A path that only moves in Z. *)
Definition z_only_path : list Command :=
  [mkCommand MoveStraight [("Z", 5)]; mkCommand MoveStraight [("Z", 0)]].

(** [m] leaves every object in relation [R] to what it was, whatever it
    returns or raises. *)
Definition keeps {A : Type} (R : Obj -> Obj -> Prop) (m : M A) : Prop :=
  forall o, R o (fst (m o)).

(** [o'] has the cached samples of [o], in order, followed by more; its
    cache is a dictionary if that of [o] was; and it has the state hash and
    the invalidation flag of [o]. *)
Definition cache_kept (o o' : Obj) : Prop :=
  (exists added, cache_points o' = cache_points o ++ added) /\
  (is_dict o -> is_dict o') /\
  CacheStateHash o' = CacheStateHash o /\
  BlockCacheInvalidation o' = BlockCacheInvalidation o.

(** A setup with a face and a base program, and an object whose cache was
    filled for the same state hash. *)
Definition cut_setup : Setup :=
  mkSetup "endmill" 4 100 50 1000 500 25 30 12 1 (1 # 10) 0 1 0
          [0%nat] (Some (0, 10, 0, 10)) "h1"
          (Some (mkBase plunge_and_cut)) (Ok plunge_and_cut).

Definition cached_obj : Obj :=
  mkObj (Dict (Some [(1, 1, 5)])) None "h1" false [] [].

(** The commands of a program, each with the location tracked before it:
    [temp_location] starts as given and takes the X, Y and Z of every
    command that carries them. *)
Fixpoint located (cmds : list Command) (loc : Vector)
  : list (Command * Vector) :=
  match cmds with
  | [] => []
  | c :: rest => (c, loc) :: located rest (update_location c loc)
  end.

(** The command gets a segment: it is not a motion, or the host builds an
    edge for it from the tracked location. *)
Definition has_segment (g : PathGeom) (cl : Command * Vector) : bool :=
  non_motion (fst cl) ||
  match edgeForCmd g (fst cl) (snd cl) with
  | Some _ => true
  | None => false
  end.

(** [seg] is the segment of the command [fst cl] met at the location
    [snd cl]: it carries the command, the tag the command has at that
    location, and the points sampled on its edge, by deflection for an arc
    and by distance otherwise; no points for a command that is not a
    motion. *)
Definition segment_of (g : PathGeom) (sampleD curveD : Q)
           (cl : Command * Vector) (seg : TaggedSegment) : Prop :=
  command seg = fst cl /\
  kind seg = classify (fst cl) (snd cl) /\
  pointlist seg =
    (if is_motion (fst cl) then
       match edgeForCmd g (fst cl) (snd cl) with
       | Some edge =>
           if is_arc (fst cl) then discretize_Deflection g edge curveD
           else discretize_Distance g edge sampleD
       | None => []
       end
     else []).

End ZFaceMoreSpec.

Module FeedMoreSpec.

Import Feed FeedSpec.
Open Scope R_scope.

(** The table of the self-test that runs when the module is loaded:
    [(p0, p1, hfeed, vfeed, expected feed)]. *)
Definition tests : list (Point * Point * R * R * R) :=
  [ ((0, 0, 0), (0, 0, 0), 100, 50, 50);
    ((0, 0, 0), (10, 0, 0), 100, 50, 100);
    ((0, 0, 0), (0, 10, 0), 120, 60, 120);
    ((0, 0, 0), (0, 0, 10), 100, 50, 100);
    ((0, 0, 0), (0, 0, -10), 100, 50, 50);
    ((0, 0, 0), (10, 0, 10), 100, 50, 14142 / 100);
    ((0, 0, 0), (10, 0, -10), 100, 50, 7071 / 100);
    ((0, 0, 0), (1, 0, 100), 100, 50, 1000050 / 100);
    ((0, 0, 0), (1, 0, -100), 100, 50, 500025 / 10000);
    ((0, 0, 0), (100, 0, -1), 100, 50, 1000050 / 10000) ].

(** The three assertions of the loop over the table; [isRoughly] with
    [error=1e-2] is [math.fabs(result - expected) <= 1e-2]. *)
Definition test_passes (t : Point * Point * R * R * R) : Prop :=
  let '(p0, p1, hf, vf, expected) := t in
  let is_uphill := pz p0 < pz p1 in
  let result := interpolate_feedrate p0 p1 hf vf in
  let h_comp := fst (feed_components p0 p1 hf vf) in
  let v_comp := snd (feed_components p0 p1 hf vf) in
  Rabs (result - expected) <= 1 / 100 /\
  h_comp <= hf + 1 / 1000000 /\
  (is_uphill \/ v_comp <= vf + 1 / 1000000).

End FeedMoreSpec.

(** * Theorems *)

Lemma Qleb_le a b : Qleb a b = true <-> (a <= b)%Q.
Proof. apply Qle_bool_iff. Qed.

Lemma Qleb_gt a b : Qleb a b = false <-> (b < a)%Q.
Proof.
  unfold Qleb. split; intro H.
  - apply Qnot_le_lt. intro Hle. apply Qle_bool_iff in Hle. congruence.
  - destruct (Qle_bool a b) eqn:E; [|reflexivity].
    apply Qle_bool_iff in E. exfalso. exact (Qlt_not_le _ _ H E).
Qed.

Lemma Qltb_lt a b : Qltb a b = true <-> (a < b)%Q.
Proof.
  unfold Qltb. rewrite negb_true_iff. apply Qleb_gt.
Qed.

Lemma Qltb_ge a b : Qltb a b = false <-> (b <= a)%Q.
Proof.
  unfold Qltb. rewrite negb_false_iff. apply Qleb_le.
Qed.


(** * Facts about the quadtree *)

Module QuadTreeFacts.

Import QuadTree QuadTreeSpec.
Open Scope Q_scope.

Lemma sq_le_sq (a b : Q) : 0 <= b -> (b <= a \/ b <= - a) -> b * b <= a * a.
Proof. intros Hb [H | H]; nra. Qed.

Lemma min_dist_sq_le n p x y :
  in_box n p -> min_dist_sq n x y <= dist_sq p x y.
Proof.
  destruct p as [[px py] pz]. unfold in_box, min_dist_sq, dist_sq.
  cbv beta iota zeta. intros [[Hx0 Hx1] [Hy0 Hy1]].
  apply Qplus_le_compat.
  - destruct (Qltb x (xmin n)) eqn:E1.
    + apply Qltb_lt in E1. apply sq_le_sq; [lra | left; lra].
    + apply Qltb_ge in E1. destruct (Qltb (xmax n) x) eqn:E2.
      * apply Qltb_lt in E2. apply sq_le_sq; [lra | right; lra].
      * generalize (px - x); intro a; nra.
  - destruct (Qltb y (ymin n)) eqn:E1.
    + apply Qltb_lt in E1. apply sq_le_sq; [lra | left; lra].
    + apply Qltb_ge in E1. destruct (Qltb (ymax n) y) eqn:E2.
      * apply Qltb_lt in E2. apply sq_le_sq; [lra | right; lra].
      * generalize (py - y); intro a; nra.
Qed.

(** *** Searching *)

Lemma best_for_ext x y (P P' : Sample -> Prop) b :
  (forall q, P q <-> P' q) -> best_for x y P b -> best_for x y P' b.
Proof.
  intros Hext. destruct b as [[d2 p]|]; simpl.
  - intros (Hp & Hd & Hmin). repeat split.
    + now apply Hext.
    + exact Hd.
    + intros q Hq. apply Hmin. now apply Hext.
  - intros Hnone q Hq. apply (Hnone q). now apply Hext.
Qed.

Lemma scan_points_best x y pts :
  forall P b,
    best_for x y P b ->
    best_for x y (fun q => P q \/ In q pts) (scan_points pts x y b).
Proof.
  induction pts as [|p pts IH]; intros P b Hb; simpl.
  - eapply best_for_ext; [|exact Hb]. intros q; tauto.
  - eapply best_for_ext;
      [|apply (IH (fun q => P q \/ q = p))].
    + intros q; simpl. intuition congruence.
    + destruct b as [[b0 p0]|]; simpl in *.
      * destruct Hb as (Hp0 & Hd0 & Hmin).
        destruct (Qltb (dist_sq p x y) b0) eqn:E; simpl.
        -- apply Qltb_lt in E. repeat split; [now right|].
           intros q [Hq | ->]; [|apply Qle_refl].
           apply Qle_trans with b0; [now apply Qlt_le_weak | now apply Hmin].
        -- apply Qltb_ge in E. repeat split; [now left | exact Hd0 |].
           intros q [Hq | ->]; [now apply Hmin | exact E].
      * repeat split; [now right|].
        intros q [Hq | ->]; [now elim (Hb q) | apply Qle_refl].
Qed.

Lemma insert_by_key_perm {A} (kv : Q * A) l :
  Permutation (insert_by_key kv l) (kv :: l).
Proof.
  induction l as [|h t IH]; simpl; [reflexivity|].
  destruct (Qleb (fst kv) (fst h)); [reflexivity|].
  rewrite IH. apply perm_swap.
Qed.

(** Sorting a list of keyed items is visiting the items in some order. *)
Lemma sorted_by_key_map {A B} (f : A -> Q * B) (l : list A) :
  exists l', Permutation l' l /\ sorted_by_key (map f l) = map f l'.
Proof.
  induction l as [|a l (l' & Hperm & Heq)]; simpl.
  - exists []. split; [constructor | reflexivity].
  - rewrite Heq. clear Heq.
    assert (Hins : forall m, exists m',
               Permutation m' (a :: m) /\
               insert_by_key (f a) (map f m) = map f m').
    { induction m as [|h t (t' & Hp & He)]; simpl.
      - exists [a]. split; reflexivity.
      - destruct (Qleb (fst (f a)) (fst (f h))).
        + exists (a :: h :: t). split; reflexivity.
        + exists (h :: t'). split.
          * rewrite Hp. apply perm_swap.
          * simpl. now rewrite He. }
    destruct (Hins l') as (m' & Hp & He).
    exists m'. split; [|exact He].
    rewrite Hp. now constructor.
Qed.

Lemma nearest_unfold n x y best :
  nearest n x y best =
  if match best with
     | Some (b0, _) => Qleb b0 (min_dist_sq n x y)
     | None => false
     end
  then best
  else
    let best := scan_points (points n) x y best in
    match children n with
    | None => best
    | Some chs =>
        fold_left (fun b kv => snd kv b)
          (sorted_by_key (map (fun ch => (child_key ch x y, nearest ch x y)) chs))
          best
    end.
Proof. destruct n; reflexivity. Qed.

Lemma tree_points_unfold n :
  tree_points n =
  points n ++ match children n with
              | None => []
              | Some l => flat_map tree_points l
              end.
Proof. destruct n; reflexivity. Qed.

(** In the code's own words: the children are searched one after the
    other, in some order. *)
Lemma nearest_children_order n x y best chs :
  children n = Some chs ->
  exists order,
    Permutation order chs /\
    nearest n x y best =
    if match best with
       | Some (b0, _) => Qleb b0 (min_dist_sq n x y)
       | None => false
       end
    then best
    else fold_left (fun b ch => nearest ch x y b) order
                   (scan_points (points n) x y best).
Proof.
  intros Hch.
  destruct (sorted_by_key_map (fun ch => (child_key ch x y, nearest ch x y)) chs)
    as (order & Hperm & Heq).
  exists order. split; [exact Hperm|].
  rewrite nearest_unfold, Hch. cbv zeta. rewrite Heq.
  destruct (match best with Some (b0, _) => _ | None => _ end); [reflexivity|].
  generalize (scan_points (points n) x y best).
  clear. induction order as [|ch t IH]; intro b; simpl; [reflexivity|].
  apply IH.
Qed.

Lemma fold_children_best x y chs :
  Forall (fun ch => forall P b,
              best_for x y P b ->
              best_for x y (fun q => P q \/ In q (tree_points ch))
                       (nearest ch x y b)) chs ->
  forall P b,
    best_for x y P b ->
    best_for x y (fun q => P q \/ In q (flat_map tree_points chs))
             (fold_left (fun b ch => nearest ch x y b) chs b).
Proof.
  induction 1 as [|ch t Hch _ IH]; intros P b Hb; simpl.
  - eapply best_for_ext; [|exact Hb]. intros q; tauto.
  - eapply best_for_ext; [|apply IH, Hch, Hb].
    intros q; simpl. rewrite in_app_iff. tauto.
Qed.

(** The search keeps a best answer: started with a best answer among the
    points [P] seen so far, it ends with a best answer among [P] and the
    points of the subtree.  Pruning is sound because the subtree's points
    lie in the node's region. *)
Lemma nearest_best x y n :
  node_inv n ->
  forall P b,
    best_for x y P b ->
    best_for x y (fun q => P q \/ In q (tree_points n)) (nearest n x y b).
Proof.
  induction n as [x0 x1 y0 y1 cap pts | x0 x1 y0 y1 cap pts chs IH]
    using Node_nested_ind; intros Hinv P b Hb.
  - rewrite nearest_unfold. cbn [children points].
    destruct b as [[b0 p0]|].
    + destruct (Qleb b0 _) eqn:E.
      * apply Qleb_le in E. destruct Hb as (Hp0 & Hd0 & Hmin).
        repeat split; [now left | exact Hd0 |].
        intros q [Hq | Hq]; [now apply Hmin|].
        inversion Hinv as [? Hbox _]; subst.
        rewrite Forall_forall in Hbox.
        eapply Qle_trans; [exact E|]. apply min_dist_sq_le. now apply Hbox.
      * cbv zeta. eapply best_for_ext; [|apply scan_points_best, Hb].
        intros q. rewrite tree_points_unfold. cbn [children points].
        rewrite app_nil_r. tauto.
    + cbv zeta. eapply best_for_ext; [|apply scan_points_best, Hb].
      intros q. rewrite tree_points_unfold. cbn [children points].
      rewrite app_nil_r. tauto.
  - inversion Hinv as [? Hbox Hchs]; subst.
    specialize (Hchs chs eq_refl).
    destruct (nearest_children_order
                (mkNode x0 x1 y0 y1 cap pts (Some chs)) x y b chs eq_refl)
      as (order & Hperm & Heq).
    rewrite Heq. clear Heq. cbn [points].
    assert (Hfold : forall P0 b0,
               best_for x y P0 b0 ->
               best_for x y (fun q => P0 q \/ In q (flat_map tree_points chs))
                        (fold_left (fun b ch => nearest ch x y b) order b0)).
    { intros P0 b0 Hb0.
      eapply best_for_ext; [|apply fold_children_best; [|exact Hb0]].
      - intros q. split; (intros [Hq|Hq]; [now left | right]).
        + eapply Permutation_in; [|exact Hq].
          now apply Permutation_flat_map.
        + eapply Permutation_in; [|exact Hq].
          apply Permutation_flat_map. now symmetry.
      - rewrite Forall_forall in *. intros ch Hin.
        assert (Hin' : In ch chs) by (eapply Permutation_in; eauto).
        intros P1 b1 Hb1. apply IH; auto. }
    destruct (match b with Some (b0, _) => _ | None => _ end) eqn:E.
    + destruct b as [[b0 p0]|]; [|discriminate].
      apply Qleb_le in E. destruct Hb as (Hp0 & Hd0 & Hmin).
      repeat split; [now left | exact Hd0 |].
      intros q [Hq | Hq]; [now apply Hmin|].
      rewrite Forall_forall in Hbox.
      eapply Qle_trans; [exact E|]. apply min_dist_sq_le. now apply Hbox.
    + eapply best_for_ext; [|apply Hfold, scan_points_best, Hb].
      intros q. rewrite tree_points_unfold. cbn [children points].
      rewrite in_app_iff. tauto.
Qed.

(** *** Inserting *)

Lemma same_box_refl n : same_box n n.
Proof. repeat split. Qed.

Ltac same_box_tac := unfold same_box; cbn; repeat split; reflexivity.

Lemma in_box_same n n' p : same_box n n' -> in_box n p -> in_box n' p.
Proof.
  destruct p as [[px py] pz]. unfold in_box.
  intros (-> & -> & -> & ->). tauto.
Qed.

Lemma contains_in_box n x y z : contains n x y = true -> in_box n (x, y, z).
Proof.
  unfold contains, in_box. rewrite !andb_true_iff, !Qleb_le. tauto.
Qed.

Lemma insert_first_spec ins p :
  ins_spec ins p ->
  forall chs chs' r,
    insert_first ins chs = (chs', r) ->
    (r = Ok true ->
     Permutation (flat_map tree_points chs') (p :: flat_map tree_points chs) /\
     (Forall node_inv chs -> Forall node_inv chs')) /\
    (r = Ok false -> chs' = chs).
Proof.
  intros Hins. induction chs as [|ch rest IH]; intros chs' r; simpl.
  - intros [= <- <-]. split; [discriminate | reflexivity].
  - destruct (ins ch) as [ch1 r1] eqn:E1.
    destruct (Hins _ _ _ E1) as (_ & Hacc & Hrej).
    destruct r1 as [[|]|e].
    + intros [= <- <-]. split; [intros _ | discriminate].
      destruct (Hacc eq_refl) as (_ & Hperm & Hinv). split.
      * simpl. rewrite Hperm. reflexivity.
      * intros Hall. inversion Hall; subst. constructor; auto.
    + destruct (insert_first ins rest) as [rest1 r2] eqn:E2.
      intros [= <- <-]. rewrite (Hrej eq_refl).
      destruct (IH _ _ eq_refl) as (Hacc2 & Hrej2). split.
      * intros ->. destruct (Hacc2 eq_refl) as (Hperm & Hinv). split.
        -- simpl. rewrite Hperm. symmetry. apply Permutation_middle.
        -- intros Hall. inversion Hall; subst. constructor; auto.
      * intros ->. now rewrite (Hrej2 eq_refl).
    + intros [= <- <-]. split; discriminate.
Qed.

Lemma move_points_spec ins :
  (forall p, ins_spec (ins p) p) ->
  forall pts chs kept chs' kept' u,
    move_points ins pts chs kept = (chs', kept', Ok u) ->
    Permutation (kept' ++ flat_map tree_points chs')
                (pts ++ kept ++ flat_map tree_points chs) /\
    (Forall node_inv chs -> Forall node_inv chs').
Proof.
  intros Hins. induction pts as [|p pts IH]; intros chs kept chs' kept' u; simpl.
  - intros [= <- <-]. split; [reflexivity | auto].
  - destruct (insert_first (ins p) chs) as [chs1 r1] eqn:E1.
    destruct (insert_first_spec _ _ (Hins p) _ _ _ E1) as (Hacc & Hrej).
    destruct r1 as [[|]|e]; [| |discriminate].
    + intros Hmv. destruct (IH _ _ _ _ _ Hmv) as (Hperm & Hinv).
      destruct (Hacc eq_refl) as (Hperm1 & Hinv1). split; [|auto].
      rewrite Hperm, Hperm1.
      rewrite <- Permutation_middle. symmetry.
      rewrite <- Permutation_middle. reflexivity.
    + intros Hmv. destruct (IH _ _ _ _ _ Hmv) as (Hperm & Hinv).
      rewrite (Hrej eq_refl) in *. split; [|auto].
      rewrite Hperm. rewrite <- !app_assoc. simpl.
      rewrite <- Permutation_middle. symmetry.
      rewrite <- Permutation_middle. reflexivity.
Qed.

Lemma insert_into_children_spec ins p n chs n' r :
  ins_spec ins p ->
  insert_into_children ins n chs p = (n', r) ->
  same_box n n' /\
  r <> Ok false /\
  (r = Ok true ->
   Permutation (tree_points n')
               (p :: points n ++ flat_map tree_points chs) /\
   (in_box n p ->
    Forall (in_box n) (points n ++ flat_map tree_points chs) ->
    Forall node_inv chs -> node_inv n')).
Proof.
  intros Hins. unfold insert_into_children.
  destruct (insert_first ins chs) as [chs1 r1] eqn:E1.
  destruct (insert_first_spec _ _ Hins _ _ _ E1) as (Hacc & Hrej).
  destruct r1 as [[|]|e]; intros [= <- <-].
  - split; [same_box_tac|]. split; [discriminate|]. intros _.
    destruct (Hacc eq_refl) as (Hperm & Hinv).
    assert (Htp : Permutation
                    (tree_points (set_children n (Some chs1)))
                    (p :: points n ++ flat_map tree_points chs)).
    { rewrite tree_points_unfold. cbn [set_children points children].
      rewrite Hperm. symmetry. apply Permutation_middle. }
    split; [exact Htp|].
    intros Hp Hbox Hall. constructor.
    + eapply Permutation_Forall; [symmetry; exact Htp|].
      constructor; [exact Hp | exact Hbox].
    + cbn [set_children children]. intros l [= <-]. auto.
  - split; [same_box_tac|]. split; [discriminate|]. intros _.
    rewrite (Hrej eq_refl).
    assert (Htp : Permutation
                    (tree_points
                       (set_children (set_points n (points n ++ [p])) (Some chs)))
                    (p :: points n ++ flat_map tree_points chs)).
    { rewrite tree_points_unfold.
      cbn [set_children set_points points children].
      rewrite <- app_assoc. simpl. symmetry. apply Permutation_middle. }
    split; [exact Htp|].
    intros Hp Hbox Hall. constructor.
    + eapply Permutation_Forall; [symmetry; exact Htp|].
      constructor; [exact Hp | exact Hbox].
    + cbn [set_children children]. intros l [= <-]. auto.
  - split; [same_box_tac|]. split; discriminate.
Qed.

Lemma subdivide_inv n : Forall node_inv (subdivide n).
Proof.
  unfold subdivide, new_node.
  repeat constructor; simpl; try discriminate.
Qed.

Lemma subdivide_points n : flat_map tree_points (subdivide n) = [].
Proof. reflexivity. Qed.

(** [insert] meets [ins_spec], whatever the stack depth. *)
Lemma insert_spec fuel :
  forall x y z, ins_spec (fun n => insert fuel n x y z) (x, y, z).
Proof.
  induction fuel as [|fuel IH]; intros x y z n n' r; simpl.
  - intros [= <- <-]. split; [same_box_tac|]. split; discriminate.
  - destruct (contains n x y) eqn:Hc; simpl.
    2:{ intros [= <- <-]. split; [same_box_tac|].
        split; [discriminate | reflexivity]. }
    pose proof (contains_in_box n x y z Hc) as Hp.
    destruct (children n) as [chs|] eqn:Hch.
    + intros Hins.
      destruct (insert_into_children_spec _ _ _ _ _ _ (IH x y z) Hins)
        as (Hsame & Hnf & Hacc).
      split; [exact Hsame|]. split; [|intros ->; congruence].
      intros ->. destruct (Hacc eq_refl) as (Hperm & Hinv).
      split; [exact Hp|]. rewrite (tree_points_unfold n), Hch.
      split; [exact Hperm|].
      intros Hn. inversion Hn as [? Hbox Hchs]; subst.
      apply Hinv; auto.
      rewrite (tree_points_unfold n), Hch in Hbox. exact Hbox.
    + destruct (List.length (points n) <? capacity n)%nat.
      * intros [= <- <-]. split; [same_box_tac|].
        split; [intros _ | discriminate].
        assert (Htp : Permutation
                        (tree_points (set_points n (points n ++ [(x, y, z)])))
                        ((x, y, z) :: tree_points n)).
        { rewrite !tree_points_unfold. cbn [set_points points children].
          rewrite Hch, !app_nil_r. symmetry. apply Permutation_cons_append. }
        split; [exact Hp|]. split; [exact Htp|].
        intros Hn. inversion Hn as [? Hbox _]; subst. constructor.
        -- eapply Permutation_Forall; [symmetry; exact Htp|].
           constructor; [exact Hp | exact Hbox].
        -- cbn [set_points children]. rewrite Hch. discriminate.
      * destruct fuel as [|f] eqn:Ef.
        { intros [= <- <-]. split; [same_box_tac|]. split; discriminate. }
        cbv match. rewrite <- Ef in *.
        destruct (move_points _ (points n) (subdivide n) [])
          as [[chs1 kept] r1] eqn:Emv.
        destruct r1 as [u|e].
        2:{ intros [= <- <-]. split; [same_box_tac|].
            split; discriminate. }
        assert (Hmv := move_points_spec
                         (fun p ch => let '(px, py, pz) := p in
                                      insert fuel ch px py pz)
                         (fun p => match p with (px, py, pz) => IH px py pz end)
                         _ _ _ _ _ _ Emv).
        destruct Hmv as (Hperm1 & Hinv1).
        rewrite subdivide_points, !app_nil_r in Hperm1.
        intros Hins.
        destruct (insert_into_children_spec _ _ _ _ _ _ (IH x y z) Hins)
          as (Hsame & Hnf & Hacc).
        split; [exact Hsame|]. split; [|intros ->; congruence].
        intros ->. destruct (Hacc eq_refl) as (Hperm & Hinv).
        cbn [set_points points] in Hperm, Hinv.
        split; [exact Hp|].
        assert (Htp : Permutation (tree_points n') ((x, y, z) :: tree_points n)).
        { rewrite Hperm, Hperm1, (tree_points_unfold n), Hch, app_nil_r.
          reflexivity. }
        split; [exact Htp|].
        intros Hn. inversion Hn as [? Hbox _]; subst.
        apply Hinv; [exact Hp | | apply Hinv1, subdivide_inv].
        eapply Permutation_Forall; [symmetry; exact Hperm1|].
        rewrite (tree_points_unfold n), Hch, app_nil_r in Hbox. exact Hbox.
Qed.

(** *** The index as a whole *)

Lemma inserted_from_inv root0 S root :
  node_inv root0 ->
  inserted_from root0 S root ->
  node_inv root /\ Permutation (tree_points root) (S ++ tree_points root0).
Proof.
  intros H0. induction 1 as [|S root fuel x y z root' _ [IHinv IHperm] Hins
                             |S root fuel x y z root' _ [IHinv IHperm] Hins].
  - split; [exact H0 | reflexivity].
  - destruct (insert_spec fuel x y z _ _ _ Hins) as (_ & Hacc & _).
    destruct (Hacc eq_refl) as (_ & Hperm & Hinv).
    split; [auto|]. rewrite Hperm, IHperm. reflexivity.
  - destruct (insert_spec fuel x y z _ _ _ Hins) as (_ & _ & Hrej).
    rewrite (Hrej eq_refl). auto.
Qed.

Lemma empty_root_inv x0 x1 y0 y1 cap : node_inv (QuadTree_init x0 x1 y0 y1 cap).
Proof.
  constructor; simpl; [constructor | discriminate].
Qed.

(** C1.  For every index obtained from a well-formed one by calls of
    [insert], and every query point, [nearest] returns nothing exactly when
    no sample is stored, and otherwise returns a stored sample together
    with its squared planar distance to the query point, which no stored
    sample undercuts.  (The code returns the square root of that number.)
    Pruning by bounding boxes, the order of the children and samples kept
    in an inner node do not change this. *)
Theorem nearest_returns_closest_sample root0 S root x y :
  node_inv root0 ->
  inserted_from root0 S root ->
  let stored := S ++ tree_points root0 in
  (QuadTree_nearest root x y = None <-> stored = []) /\
  (forall p d2,
      QuadTree_nearest root x y = Some (p, d2) ->
      In p stored /\
      d2 = dist_sq p x y /\
      forall q, In q stored -> d2 <= dist_sq q x y).
Proof.
  intros H0 Hfrom stored.
  destruct (inserted_from_inv _ _ _ H0 Hfrom) as (Hinv & Hperm).
  fold stored in Hperm.
  assert (Hbest : best_for x y (fun q => In q stored) (nearest root x y None)).
  { eapply best_for_ext;
      [|apply (nearest_best x y root Hinv (fun _ => False) None); simpl; tauto].
    intros q. split.
    - intros [[]|Hq]. eapply Permutation_in; eauto.
    - intros Hq. right. eapply Permutation_in; [symmetry|]; eauto. }
  unfold QuadTree_nearest.
  destruct (nearest root x y None) as [[d2 p]|]; simpl in Hbest.
  - destruct Hbest as (Hp & Hd & Hmin). split.
    + split; [discriminate|]. intros Hnil. rewrite Hnil in Hp. destruct Hp.
    + intros p' d2' [= <- <-]. auto.
  - split.
    + split; [intros _ | reflexivity].
      destruct stored as [|q l]; [reflexivity|].
      elim (Hbest q). now left.
    + discriminate.
Qed.

Lemma nearest_returns_closest_sample_witness :
  node_inv demo_root0 /\
  inserted_from demo_root0 [(7, 7, 2); (6, 6, 7); (1, 1, 5)] demo_root3 /\
  ((QuadTree_nearest demo_root3 4 5 = None <->
    [(7, 7, 2); (6, 6, 7); (1, 1, 5)] ++ tree_points demo_root0 = []) /\
   (forall p d2,
       QuadTree_nearest demo_root3 4 5 = Some (p, d2) ->
       In p ([(7, 7, 2); (6, 6, 7); (1, 1, 5)] ++ tree_points demo_root0) /\
       d2 = dist_sq p 4 5 /\
       forall q,
         In q ([(7, 7, 2); (6, 6, 7); (1, 1, 5)] ++ tree_points demo_root0) ->
         d2 <= dist_sq q 4 5)).
Proof.
  assert (H0 : node_inv demo_root0).
  { constructor.
    - repeat constructor; simpl; lra.
    - intros chs [= <-]. apply subdivide_inv. }
  assert (H1 : inserted_from demo_root0
                 [(7, 7, 2); (6, 6, 7); (1, 1, 5)] demo_root3).
  { apply (@inserted_accept demo_root0 _ demo_root2 5 7 7 2 demo_root3);
      [|reflexivity].
    apply (@inserted_accept demo_root0 _ demo_root1 5 6 6 7 demo_root2);
      [|reflexivity].
    apply (@inserted_accept demo_root0 _ demo_root0 5 1 1 5 demo_root1);
      [|reflexivity].
    apply inserted_none. }
  split; [exact H0|]. split; [exact H1|].
  exact (nearest_returns_closest_sample demo_root0 _ demo_root3 4 5 H0 H1).
Defined.

Example demo_root3_answers :
  points demo_root3 = [(4, 4, 9)] /\
  QuadTree_nearest demo_root3 4 5 = Some ((4, 4, 9), 1) /\
  QuadTree_nearest demo_root3 6 5 = Some ((6, 6, 7), 1).
Proof. vm_compute. repeat split. Qed.

(** More samples at one spot than a node holds never settle: every
    subdivision puts them into one child again, until the stack is
    exhausted. *)
Example coincident_samples_exhaust_stack :
  snd (insert 50 (fst (insert 50 (QuadTree_init 0 8 0 8 1) 1 1 5)) 1 1 6)
  = Raise RecursionError.
Proof. vm_compute. reflexivity. Qed.

End QuadTreeFacts.

(** * Facts about the intersection retries *)

Module ZFaceSectionFacts.

Import QuadTree ZFaceSection ZFaceSectionSpec.
Open Scope Q_scope.

Lemma py_max_is_max l : forall a, is_max (py_max a l) (a :: l).
Proof.
  unfold is_max, py_max. induction l as [|v l IH]; intro a; simpl.
  - split; [now left|]. intros w [<-|[]]. apply Qle_refl.
  - destruct (Qltb a v) eqn:E.
    + destruct (IH v) as (Hin & Hmax). split.
      * simpl in Hin. tauto.
      * apply Qltb_lt in E. intros w [<-|Hw]; [|now apply Hmax].
        apply Qle_trans with v; [now apply Qlt_le_weak|]. apply Hmax. now left.
    + destruct (IH a) as (Hin & Hmax). split.
      * simpl in Hin. tauto.
      * apply Qltb_ge in E. intros w [<-|[<-|Hw]].
        -- apply Hmax. now left.
        -- apply Qle_trans with a; [exact E|]. apply Hmax. now left.
        -- apply Hmax. now right.
Qed.

Lemma max_of_is_max zs m : max_of zs = Ok m -> is_max m zs.
Proof.
  destruct zs as [|z rest]; simpl; [discriminate|].
  intros [= <-]. apply py_max_is_max.
Qed.

(** A run that reports success reports a height. *)
Lemma try_intersect_z_success k fc faces x y run z :
  try_intersect_z k fc faces x y run = Ok (true, z) -> exists v, z = Some v.
Proof.
  unfold try_intersect_z.
  destruct (use_compound run).
  - destruct (k _ fc _) as [s|e]; simpl; [|discriminate].
    destruct (negb (is_valid_section s (radius run))); [discriminate|].
    destruct (_ && _); intros [= <-]; eauto.
  - destruct (face_sections _ _ _ _ _ _) as [[|s0 rest]|e]; simpl;
      try discriminate.
    destruct (_ && _); intros [= <-]; eauto.
Qed.

(** The loop falls through every run that fails validation, whatever it
    has collected. *)
Lemma intersect_loop_all_fail k fc faces x y todo :
  forall zmaxs,
    (forall run, In run todo ->
                 exists z, try_intersect_z k fc faces x y run = Ok (false, z)) ->
    intersect_loop k fc faces x y todo zmaxs = Ok None.
Proof.
  induction todo as [|run todo IH]; intros zmaxs Hall; simpl; [reflexivity|].
  destruct (Hall run (or_introl eq_refl)) as (z & ->). simpl.
  apply IH. intros run' Hin. apply Hall. now right.
Qed.

(** The loop stops at the first run that validates, and answers with the
    greatest height collected up to and including that run. *)
Lemma intersect_loop_first_success k fc faces x y pre :
  forall res run post z zmaxs,
    outcomes k fc faces x y pre res ->
    Forall (fun r => fst r = false) res ->
    try_intersect_z k fc faces x y run = Ok (true, Some z) ->
    intersect_loop k fc faces x y (pre ++ run :: post) zmaxs =
    (m <- max_of (zmaxs ++ non_null (map snd res) ++ [z]) ;; Ok (Some m)).
Proof.
  induction pre as [|run0 pre IH]; intros res run post z zmaxs Hout Hfail Hrun.
  - inversion Hout; subst. simpl. rewrite Hrun. simpl. reflexivity.
  - inversion Hout as [|? r ? res' Hr Hrest]; subst.
    inversion Hfail as [|? ? Hf Hfail']; subst.
    destruct r as [ok z0]. simpl in Hf. subst ok.
    simpl. rewrite Hr. simpl.
    rewrite (IH res' run post z _ Hrest Hfail' Hrun).
    destruct z0 as [v|]; simpl; [|reflexivity].
    now rewrite <- app_assoc.
Qed.

(** An exception of a run leaves the loop. *)
Lemma intersect_loop_raise k fc faces x y pre :
  forall res run post e zmaxs,
    outcomes k fc faces x y pre res ->
    Forall (fun r => fst r = false) res ->
    try_intersect_z k fc faces x y run = Raise e ->
    intersect_loop k fc faces x y (pre ++ run :: post) zmaxs = Raise e.
Proof.
  induction pre as [|run0 pre IH]; intros res run post e zmaxs Hout Hfail Hrun.
  - simpl. now rewrite Hrun.
  - inversion Hout as [|? r ? res' Hr Hrest]; subst.
    inversion Hfail as [|? ? Hf Hfail']; subst.
    destruct r as [ok z0]. simpl in Hf. subst ok.
    simpl. rewrite Hr. simpl. eapply IH; eauto.
Qed.

(** C2, as the code has it.  When every one of the eight runs fails
    validation, [intersect_z] returns none, also when some of the runs
    produced a height: the heights collected are only used once a run
    validates. *)
Theorem intersect_z_none_when_all_fail k fc faces tool_radius x y :
  (forall run, In run (runs tool_radius) ->
               exists z, try_intersect_z k fc faces x y run = Ok (false, z)) ->
  intersect_z k fc faces tool_radius x y = Ok None.
Proof.
  intros Hall. unfold intersect_z. now apply intersect_loop_all_fail.
Qed.

Lemma partial_kernel_outcomes :
  map (try_intersect_z partial_kernel (Compound [0%nat]) [0%nat] 0 0) (runs 2) =
  [ Ok (false, Some 3); Ok (false, Some 3); Ok (false, Some 3);
    Ok (false, None); Ok (false, None);
    Ok (false, None); Ok (false, None); Ok (false, None) ].
Proof. vm_compute. reflexivity. Qed.

Lemma intersect_z_none_when_all_fail_witness :
  (forall run, In run (runs 2) ->
     exists z, try_intersect_z partial_kernel (Compound [0%nat]) [0%nat] 0 0 run
               = Ok (false, z)) /\
  intersect_z partial_kernel (Compound [0%nat]) [0%nat] 2 0 0 = Ok None.
Proof.
  assert (H : forall run, In run (runs 2) ->
     exists z, try_intersect_z partial_kernel (Compound [0%nat]) [0%nat] 0 0 run
               = Ok (false, z)).
  { intros run Hin. simpl in Hin.
    repeat (destruct Hin as [<-|Hin]; [eexists; vm_compute; reflexivity|]).
    destruct Hin. }
  split; [exact H|].
  exact (intersect_z_none_when_all_fail partial_kernel (Compound [0%nat])
           [0%nat] 2 0 0 H).
Defined.

(** C2, as the specification states it, fails: here all eight runs fail
    validation, three of them produced the height 3, and the query returns
    none instead of 3. *)
Lemma intersect_z_drops_best_guess :
  map (try_intersect_z partial_kernel (Compound [0%nat]) [0%nat] 0 0) (runs 2) =
  [ Ok (false, Some 3); Ok (false, Some 3); Ok (false, Some 3);
    Ok (false, None); Ok (false, None);
    Ok (false, None); Ok (false, None); Ok (false, None) ] /\
  intersect_z partial_kernel (Compound [0%nat]) [0%nat] 2 0 0 = Ok None /\
  intersect_z partial_kernel (Compound [0%nat]) [0%nat] 2 0 0 <> Ok (Some 3).
Proof.
  split; [exact partial_kernel_outcomes|].
  split; [vm_compute; reflexivity | vm_compute; discriminate].
Qed.

Lemma flaky_kernel_runs :
  try_intersect_z flaky_kernel (Compound [0%nat]) [0%nat] 0 0
                  (nth 0 (runs 1) (default_run 1 1000)) = Ok (false, Some 10) /\
  try_intersect_z flaky_kernel (Compound [0%nat]) [0%nat] 0 0
                  (nth 1 (runs 1) (default_run 1 1000)) = Ok (true, Some 5).
Proof. split; vm_compute; reflexivity. Qed.

(** C10.  When a run of [intersect_z] is the first to validate, the height
    returned is the greatest of the heights produced by the runs up to and
    including it, the rejected ones too; and there are inputs for which it
    exceeds the height of the validated run (here: a first run rejected
    for its short length at height 10, a second run validated at
    height 5, and 10 returned). *)
Theorem intersect_z_returns_max_of_attempts :
  (forall k fc faces tool_radius x y pre run post res z,
      runs tool_radius = pre ++ run :: post ->
      outcomes k fc faces x y pre res ->
      Forall (fun r => fst r = false) res ->
      try_intersect_z k fc faces x y run = Ok (true, Some z) ->
      exists m,
        intersect_z k fc faces tool_radius x y = Ok (Some m) /\
        is_max m (non_null (map snd res) ++ [z])) /\
  (exists k fc faces tool_radius x y run1 run2 post z1 z2 m,
      runs tool_radius = run1 :: run2 :: post /\
      try_intersect_z k fc faces x y run1 = Ok (false, Some z1) /\
      try_intersect_z k fc faces x y run2 = Ok (true, Some z2) /\
      intersect_z k fc faces tool_radius x y = Ok (Some m) /\
      z2 < m).
Proof.
  split.
  - intros k fc faces r x y pre run post res z Hruns Hout Hfail Hrun.
    unfold intersect_z. rewrite Hruns.
    rewrite (intersect_loop_first_success k fc faces x y pre res run post z []
               Hout Hfail Hrun).
    simpl app at 1.
    destruct (max_of (non_null (map snd res) ++ [z])) as [m|e] eqn:E.
    + exists m. split; [reflexivity|]. now apply max_of_is_max.
    + destruct (non_null (map snd res)); discriminate.
  - exists flaky_kernel, (Compound [0%nat]), [0%nat], 1, 0, 0.
    do 3 eexists. exists 10, 5, 10.
    split; [reflexivity|].
    split; [vm_compute; reflexivity|].
    split; [vm_compute; reflexivity|].
    split; [vm_compute; reflexivity|].
    reflexivity.
Qed.

Lemma intersect_z_returns_max_of_attempts_witness :
  exists m,
    intersect_z flaky_kernel (Compound [0%nat]) [0%nat] 1 0 0 = Ok (Some m) /\
    is_max m (non_null (map snd [(false, Some 10)]) ++ [5]).
Proof.
  apply (proj1 intersect_z_returns_max_of_attempts
               flaky_kernel (Compound [0%nat]) [0%nat] 1 0 0
               [nth 0 (runs 1) (default_run 1 1000)]
               (nth 1 (runs 1) (default_run 1 1000))
               (skipn 2 (runs 1))
               [(false, Some 10)] 5).
  - reflexivity.
  - constructor; [|constructor]. exact (proj1 flaky_kernel_runs).
  - constructor; [reflexivity | constructor].
  - exact (proj2 flaky_kernel_runs).
Defined.

End ZFaceSectionFacts.

(** * Facts about discretisation and projection *)

Module ZFaceFacts.

Import QuadTree ZFaceSection ZFaceSectionSpec ZFace ZFaceSpec.
Open Scope string_scope.
Open Scope list_scope.
Open Scope Q_scope.

(** *** Classification *)

Lemma classify_other c loc : classify c loc = OTHER <-> is_motion c = false.
Proof.
  unfold classify. destruct (is_motion c); simpl.
  - destruct (is_on_plane c loc); split; discriminate.
  - tauto.
Qed.

(** What [is_on_plane] looks at: the explicit Z, unless it is absent or
    equal to zero, in which case the tracked Z. *)
Lemma is_on_plane_cases c loc :
  is_on_plane c loc =
  match attr c "Z" with
  | Some z => if Qeq_bool z 0 then isRoughly (vz loc) 0 else isRoughly z 0
  | None => isRoughly (vz loc) 0
  end.
Proof.
  unfold is_on_plane. destruct (attr c "Z") as [z|]; [|reflexivity].
  now destruct (Qeq_bool z 0).
Qed.

(** C8, at the input where the code departs from it: a straight move with
    an explicit [Z = 0.0], met while the tracked position is at height 5,
    is classified elevated, not on-plane.  The guard [cmd.Z] is false for
    the number zero, so the tracked Z is looked at instead. *)
Theorem explicit_zero_z_classified_high :
  is_motion plunge_to_zero = true /\
  attr plunge_to_zero "Z" = Some 0 /\
  isRoughly 0 0 = true /\
  is_on_plane plunge_to_zero (mkVector 0 0 5) = false /\
  classify plunge_to_zero (mkVector 0 0 5) = IS_HIGH /\
  map kind (discretize_commands line_geom [plunge_to_zero]
              (mkVector 0 0 5) 25 30 1 (1 # 10)) = [IS_HIGH].
Proof. repeat split. Qed.

(** What the classification of the plunge entails: over a flat face at
    height 5, the cut along X is projected to Z = 5, and the plunge itself,
    classified elevated, is sampled down to Z = 0. *)
Example plunge_and_cut_projection :
  let segments :=
    discretize_commands line_geom plunge_and_cut (mkVector 0 0 25)
                        25 30 1 (1 # 10) in
  map kind segments = [IS_HIGH; IS_ON_PLANE; OTHER] /\
  match snd (project_segments flat_kernel 10 demo_setup
                              (original_min segments) segments demo_obj) with
  | Ok cmds => map (fun c => attr c "Z") cmds
  | Raise _ => []
  end = [Some 25; Some 0; Some 5; Some 5; None].
Proof. vm_compute. split; reflexivity. Qed.

(** *** Degenerate moves *)

Lemma project_segment_empty k fuel cfg z0 seg o :
  pointlist seg = [] ->
  project_segment k fuel cfg z0 seg o = (o, Ok [command seg]).
Proof.
  unfold project_segment. intros ->. now destruct (kind seg).
Qed.

(** C4, as the code has it.  A motion command whose edge cannot be built
    contributes no segment at all: the loop goes on with the next command
    from the position updated by the command's explicit axes, and nothing
    stands for the command in the projected program.  A segment with an
    empty point list, when there is one, is passed through unchanged. *)
Theorem edgeless_motion_is_dropped g c loc sampleD curveD k fuel cfg z0 :
  is_motion c = true ->
  edgeForCmd g c loc = None ->
  segments_of g c loc sampleD curveD = [] /\
  (forall rest,
      discretize_loop g (c :: rest) loc sampleD curveD =
      discretize_loop g rest (update_location c loc) sampleD curveD) /\
  (forall o,
      project_segments k fuel cfg z0 (segments_of g c loc sampleD curveD) o =
      (o, Ok [])) /\
  (forall seg o,
      pointlist seg = [] ->
      project_segment k fuel cfg z0 seg o = (o, Ok [command seg])).
Proof.
  intros Hm He.
  assert (Hs : segments_of g c loc sampleD curveD = []).
  { unfold segments_of. now rewrite Hm, He. }
  split; [exact Hs|]. split; [|split].
  - intros rest. simpl. now rewrite Hs.
  - intros o. now rewrite Hs.
  - intros seg o. apply project_segment_empty.
Qed.

Lemma edgeless_motion_is_dropped_witness :
  is_motion (mkCommand MoveStraight [("X", 1); ("Y", 2); ("Z", 0)]) = true /\
  edgeForCmd no_edge_geom
             (mkCommand MoveStraight [("X", 1); ("Y", 2); ("Z", 0)])
             (mkVector 0 0 0) = None /\
  segments_of no_edge_geom
              (mkCommand MoveStraight [("X", 1); ("Y", 2); ("Z", 0)])
              (mkVector 0 0 0) 1 (1 # 10) = [].
Proof.
  split; [reflexivity|]. split; [reflexivity|].
  exact (proj1 (edgeless_motion_is_dropped
                  no_edge_geom
                  (mkCommand MoveStraight [("X", 1); ("Y", 2); ("Z", 0)])
                  (mkVector 0 0 0) 1 (1 # 10)
                  flat_kernel 10%nat demo_setup 0 eq_refl eq_refl)).
Defined.

(** C4, as the specification states it, fails: the move [G1 X1 Y2 Z0],
    whose edge cannot be built, yields no segment (not a segment with an
    empty point list), and the projected program is empty: the command
    has been dropped. *)
Lemma edgeless_motion_not_passed_through :
  let c := mkCommand MoveStraight [("X", 1); ("Y", 2); ("Z", 0)] in
  let segments :=
    discretize_commands no_edge_geom [c] (mkVector 0 0 25) 25 30 1 (1 # 10) in
  is_motion c = true /\
  segments = [] /\
  segments <> [mkSegment (classify c (mkVector 0 0 25)) c []] /\
  snd (project_segments flat_kernel 10 demo_setup (original_min segments)
                        segments demo_obj) = Ok [].
Proof.
  cbv zeta. split; [reflexivity|]. split; [reflexivity|].
  split; [discriminate | reflexivity].
Qed.

(** *** The safety ceiling *)

Lemma mbind_ok {A B} (m : M A) (f : A -> M B) o o' b :
  mbind m f o = (o', Ok b) ->
  exists o1 a, m o = (o1, Ok a) /\ f a o1 = (o', Ok b).
Proof.
  unfold mbind. destruct (m o) as [o1 [a|e]]; [eauto | discriminate].
Qed.

Lemma project_point_z k fuel cfg seg_kind z0 point o o' c :
  project_point k fuel cfg seg_kind z0 point o = (o', Ok c) ->
  exists r final_z,
    c = mkCommand MoveStraight
                  [("X", vx point); ("Y", vy point); ("Z", final_z)] /\
    final_z = (if Qltb (SafeHeight cfg) (r + (vz point - z0))
               then SafeHeight cfg else r + (vz point - z0)) /\
    final_z <= SafeHeight cfg.
Proof.
  unfold project_point. intros H.
  apply mbind_ok in H. destruct H as (o1 & zs & _ & H).
  unfold ret in H. injection H as _ <-.
  set (r := match zs with Some v => v | None => SafeHeight cfg end).
  exists r. eexists. split; [reflexivity|]. split; [reflexivity|].
  destruct (Qltb (SafeHeight cfg) (r + (vz point - z0))) eqn:E.
  - apply Qle_refl.
  - now apply Qltb_ge in E.
Qed.

(** C7.  For every sampled point the projection emits one straight move to
    the point's X and Y whose Z is [resolved + (point.z - z_baseline)], or
    the safe height when that sum is above it; in either case the Z does
    not exceed the safe height. *)
Theorem projected_z_below_safe_height k fuel cfg seg_kind z0 pts o o' cs :
  project_points k fuel cfg seg_kind z0 pts o = (o', Ok cs) ->
  Forall2
    (fun point c =>
       exists resolved final_z,
         c = mkCommand MoveStraight
                       [("X", vx point); ("Y", vy point); ("Z", final_z)] /\
         final_z = (if Qltb (SafeHeight cfg) (resolved + (vz point - z0))
                    then SafeHeight cfg
                    else resolved + (vz point - z0)) /\
         final_z <= SafeHeight cfg)
    pts cs.
Proof.
  revert o o' cs. induction pts as [|point pts IH]; intros o o' cs; simpl.
  - unfold ret. intros [= <- <-]. constructor.
  - intros H. apply mbind_ok in H. destruct H as (o1 & c & Hc & H).
    apply mbind_ok in H. destruct H as (o2 & cs' & Hcs & H).
    unfold ret in H. injection H as _ <-.
    constructor; [|exact (IH _ _ _ Hcs)].
    exact (project_point_z _ _ _ _ _ _ _ _ _ Hc).
Qed.

Lemma projected_z_below_safe_height_witness :
  project_points flat_kernel 10 demo_setup IS_ON_PLANE 0
                 [mkVector 1 1 0; mkVector 2 1 30] demo_obj =
  (fst project_points_demo, Ok (snd project_points_demo)) /\
  Forall2
    (fun point c =>
       exists resolved final_z,
         c = mkCommand MoveStraight
                       [("X", vx point); ("Y", vy point); ("Z", final_z)] /\
         final_z = (if Qltb (SafeHeight demo_setup) (resolved + (vz point - 0))
                    then SafeHeight demo_setup
                    else resolved + (vz point - 0)) /\
         final_z <= SafeHeight demo_setup)
    [mkVector 1 1 0; mkVector 2 1 30] (snd project_points_demo).
Proof.
  assert (H : project_points flat_kernel 10 demo_setup IS_ON_PLANE 0
                [mkVector 1 1 0; mkVector 2 1 30] demo_obj =
              (fst project_points_demo, Ok (snd project_points_demo)))
    by (vm_compute; reflexivity).
  split; [exact H|].
  exact (projected_z_below_safe_height flat_kernel 10 demo_setup IS_ON_PLANE 0
           [mkVector 1 1 0; mkVector 2 1 30] demo_obj _ _ H).
Defined.

Example projection_demo_heights :
  map (fun c => attr c "Z") (snd project_points_demo) = [Some 5; Some 25].
Proof. vm_compute. reflexivity. Qed.

(** *** Exceptions of the kernel *)

(** A run against the compound raises exactly when the kernel does. *)
Lemma try_intersect_z_compound_raise k fc faces x y run e :
  use_compound run = true ->
  k (make_tool run x y) fc (use_approximation run) = Raise e ->
  try_intersect_z k fc faces x y run = Raise e.
Proof.
  intros Hc Hk. unfold try_intersect_z. now rewrite Hc, Hk.
Qed.

(** Exceptions of the cache insertion, on the other hand, are caught: once
    [intersect_z] has a height, the query returns it. *)
Lemma get_surface_z_returns_height k fuel cfg x y o qt z :
  runtime_quadtree o = Some qt ->
  cache_miss qt (CacheGrid cfg) x y ->
  intersect_z k (Compound (collected_faces cfg)) (collected_faces cfg)
              (ToolDiameter cfg / 2) x y = Ok (Some z) ->
  snd (get_surface_z k fuel cfg x y o) = Ok (Some z).
Proof.
  intros Hqt Hmiss Hz. unfold get_surface_z. rewrite Hqt.
  unfold cache_miss in Hmiss.
  destruct (QuadTree_nearest qt x y) as [[[[px py] pz] d2]|].
  - rewrite Hmiss, Hz. unfold mbind, try_except.
    destruct (_insert_cache_point fuel x y z o) as [o1 [u|e]]; [reflexivity|].
    reflexivity.
  - rewrite Hz. unfold mbind, try_except.
    destruct (_insert_cache_point fuel x y z o) as [o1 [u|e]]; reflexivity.
Qed.

(** The per-face loop stops at the first face for which the kernel
    raises. *)
Lemma face_sections_raise k cyl approx r e f rest before :
  forall sections,
    Forall (fun f' => exists s, k cyl (SingleFace f') approx = Ok s) before ->
    k cyl (SingleFace f) approx = Raise e ->
    face_sections k cyl (before ++ f :: rest) approx r sections = Raise e.
Proof.
  induction before as [|f0 before IH]; intros sections Hbefore Hf; simpl.
  - now rewrite Hf.
  - inversion Hbefore as [|? ? (s0 & Hs0) Hrest]; subst.
    rewrite Hs0. simpl.
    destruct (negb (is_valid_section s0 r)); [now apply IH|].
    destruct (negb (is_empty_section s0)); now apply IH.
Qed.

(** A run raises what the kernel raises in it: neither branch of
    [try_intersect_z] has a handler. *)
Lemma try_intersect_z_raises k fc faces x y run e :
  raises_in_run k fc faces x y run e ->
  try_intersect_z k fc faces x y run = Raise e.
Proof.
  intros [Hc Hk | before f rest Hc Hfaces Hbefore Hk].
  - now apply try_intersect_z_compound_raise.
  - unfold try_intersect_z. rewrite Hc, Hfaces.
    now rewrite (face_sections_raise k _ _ _ e f rest before [] Hbefore Hk).
Qed.

(** C3, as the code has it.  An exception that the kernel raises in a
    section call, against the compound or against a single face, in the
    first run that does not merely fail validation, is not caught anywhere
    on the way: it leaves [try_intersect_z] and [intersect_z] as it was
    raised, and on a cache miss it leaves [get_surface_z] as it was raised,
    with the cache as it was before the query. *)
Theorem kernel_exception_propagates k fuel cfg x y o qt pre run post res e :
  runtime_quadtree o = Some qt ->
  cache_miss qt (CacheGrid cfg) x y ->
  runs (ToolDiameter cfg / 2) = pre ++ run :: post ->
  outcomes k (Compound (collected_faces cfg)) (collected_faces cfg) x y pre res ->
  Forall (fun r => fst r = false) res ->
  raises_in_run k (Compound (collected_faces cfg)) (collected_faces cfg)
                x y run e ->
  try_intersect_z k (Compound (collected_faces cfg)) (collected_faces cfg)
                  x y run = Raise e /\
  intersect_z k (Compound (collected_faces cfg)) (collected_faces cfg)
              (ToolDiameter cfg / 2) x y = Raise e /\
  get_surface_z k fuel cfg x y o = (o, Raise e).
Proof.
  intros Hqt Hmiss Hruns Hout Hfail Hraise.
  pose proof (try_intersect_z_raises _ _ _ _ _ _ _ Hraise) as Hrun.
  assert (Hi : intersect_z k (Compound (collected_faces cfg))
                 (collected_faces cfg) (ToolDiameter cfg / 2) x y = Raise e).
  { unfold intersect_z. rewrite Hruns.
    eapply ZFaceSectionFacts.intersect_loop_raise; eauto. }
  split; [exact Hrun|]. split; [exact Hi|].
  unfold get_surface_z. rewrite Hqt. unfold cache_miss in Hmiss.
  destruct (QuadTree_nearest qt x y) as [[[[px py] pz] d2]|].
  - now rewrite Hmiss, Hi.
  - now rewrite Hi.
Qed.

Lemma kernel_exception_propagates_witness :
  runtime_quadtree demo_obj = Some (QuadTree_init 0 10 0 10 8) /\
  cache_miss (QuadTree_init 0 10 0 10 8) (CacheGrid demo_setup) 3 4 /\
  raises_in_run face_raising_kernel
                (Compound (collected_faces demo_setup))
                (collected_faces demo_setup) 3 4
                (nth 5 (runs (ToolDiameter demo_setup / 2)) (default_run 1 1))
                GeometryError /\
  try_intersect_z face_raising_kernel (Compound (collected_faces demo_setup))
                  (collected_faces demo_setup) 3 4
                  (nth 5 (runs (ToolDiameter demo_setup / 2)) (default_run 1 1))
  = Raise GeometryError /\
  intersect_z face_raising_kernel (Compound (collected_faces demo_setup))
              (collected_faces demo_setup) (ToolDiameter demo_setup / 2) 3 4
  = Raise GeometryError /\
  get_surface_z face_raising_kernel 10 demo_setup 3 4 demo_obj =
  (demo_obj, Raise GeometryError).
Proof.
  assert (Hraise : raises_in_run face_raising_kernel
                     (Compound (collected_faces demo_setup))
                     (collected_faces demo_setup) 3 4
                     (nth 5 (runs (ToolDiameter demo_setup / 2))
                          (default_run 1 1))
                     GeometryError).
  { apply (raises_on_face _ _ _ _ _ _ _ [] 0%nat []);
      [reflexivity | reflexivity | constructor | reflexivity]. }
  split; [reflexivity|]. split; [exact I|]. split; [exact Hraise|].
  apply (kernel_exception_propagates
           face_raising_kernel 10%nat demo_setup 3 4 demo_obj
           (QuadTree_init 0 10 0 10 8)
           (firstn 5 (runs (ToolDiameter demo_setup / 2)))
           (nth 5 (runs (ToolDiameter demo_setup / 2)) (default_run 1 1))
           (skipn 6 (runs (ToolDiameter demo_setup / 2)))
           [(false, None); (false, None); (false, None);
            (false, None); (false, None)]
           GeometryError).
  - reflexivity.
  - exact I.
  - reflexivity.
  - repeat constructor.
  - repeat constructor.
  - exact Hraise.
Defined.

(** C3, as the specification states it, fails: with a kernel that raises,
    the query on an empty cache does not return none, it raises. *)
Lemma kernel_exception_not_converted_to_none :
  raising_kernel
    (make_tool (nth 0 (runs (ToolDiameter demo_setup / 2)) (default_run 1 1)) 3 4)
    (Compound (collected_faces demo_setup)) false = Raise GeometryError /\
  snd (get_surface_z raising_kernel 10 demo_setup 3 4 demo_obj)
  = Raise GeometryError /\
  snd (get_surface_z raising_kernel 10 demo_setup 3 4 demo_obj) <> Ok None.
Proof.
  split; [reflexivity|]. split; [reflexivity | discriminate].
Qed.

(** *** Preconditions *)

(** C9, as the code has it.  When a precondition fails, the run ends
    without rebuilding the index, without a query and without a cache
    insertion, and [commandlist] is not assigned.  A tool that is not an
    endmill ends the run before anything is written.  Missing faces or a
    missing base program are only detected after the cache invalidation:
    if the stored hash is stale (and invalidation is not blocked) the
    cache has been cleared by then.  The output path becomes the base
    path as the host returns it when there are no faces, and the empty
    path when there are faces but no base program. *)
Theorem precondition_failure_effects k g feed fuel passes cfg o :
  precondition_fails cfg ->
  let o' := fst (opExecute k g feed fuel passes cfg o) in
  PointCache o' = (if invalidates cfg o then Dict None else PointCache o) /\
  runtime_quadtree o' =
    (if invalidates cfg o then None else runtime_quadtree o) /\
  commandlist o' = commandlist o /\
  Path o' =
    (if negb (String.eqb (ShapeID cfg) "endmill") then Path o
     else match collected_faces cfg with
          | [] => match PathWithPlacement cfg with
                  | Ok original => original
                  | Raise _ => Path o
                  end
          | _ :: _ => []
          end).
Proof.
  intros Hfail. unfold opExecute, invalidates.
  destruct (String.eqb (ShapeID cfg) "endmill") eqn:Hshape; simpl.
  2:{ repeat split. }
  destruct Hfail as [Hs | Hfail].
  { apply String.eqb_eq in Hshape. contradiction. }
  unfold mbind, modify, lift, _clear_cache.
  destruct (String.eqb (current_hash cfg) (CacheStateHash o)); simpl;
    destruct (BlockCacheInvalidation o); simpl;
    (destruct (collected_faces cfg) as [|f fs]; simpl;
     [ destruct (PathWithPlacement cfg); simpl; repeat split
     | destruct Hfail as [Hf | Hb]; [discriminate|];
       rewrite Hb; simpl; repeat split ]).
Qed.

Lemma precondition_failure_effects_witness :
  precondition_fails no_faces_setup /\
  PointCache (fst (opExecute flat_kernel line_geom flat_feed 10 10
                             no_faces_setup used_obj)) = Dict None /\
  Path (fst (opExecute flat_kernel line_geom flat_feed 10 10
                       no_faces_setup used_obj)) = [plunge_to_zero].
Proof.
  assert (H : precondition_fails no_faces_setup) by (right; left; reflexivity).
  split; [exact H|].
  pose proof (precondition_failure_effects flat_kernel line_geom flat_feed
                10 10 no_faces_setup used_obj H) as (Hpc & _ & _ & Hpath).
  split; [exact Hpc | exact Hpath].
Defined.

(** C9, as the specification states it, fails on two counts.  Without
    faces and with a stale hash the run is aborted after the cache has
    been cleared; and without a base program the output path is neither
    the prior path nor the original path, it is empty.  Only the tool
    check aborts before anything is written. *)
Lemma precondition_failure_clears_cache :
  (collected_faces no_faces_setup = [] /\
   PointCache used_obj = Dict (Some [(1, 1, 5)]) /\
   opExecute flat_kernel line_geom flat_feed 10 10 no_faces_setup used_obj =
   (mkObj (Dict None) None "h1" false [plunge_to_zero] [], Ok tt)) /\
  (usable_base no_base_setup = None /\
   Path used_obj <> [] /\
   Path (fst (opExecute flat_kernel line_geom flat_feed 10 10
                        no_base_setup used_obj)) = []) /\
  opExecute flat_kernel line_geom flat_feed 10 10 ball_setup used_obj =
  (used_obj, Ok tt).
Proof.
  split; [|split].
  - repeat split.
  - split; [reflexivity|]. split; [discriminate | reflexivity].
  - reflexivity.
Qed.

End ZFaceFacts.

(** * Facts about the stepdown *)

Module StepdownFacts.

Import ZFace ZFaceSpec.
Open Scope string_scope.
Open Scope list_scope.
Open Scope Q_scope.

Lemma Tolerance_pos : 0 < Tolerance.
Proof. reflexivity. Qed.

(** [isLower(z1, z2)]: below, by more than the tolerance. *)
Lemma isLower_iff a b :
  isLower (Some a) (Some b) = true <-> a < b - Tolerance.
Proof.
  pose proof Tolerance_pos as Ht.
  unfold isLower, isRoughly.
  destruct (Qleb (Qabs (a - b)) Tolerance) eqn:E.
  - apply Qleb_le in E. apply Qabs_Qle_condition in E. destruct E as [E1 E2].
    split; [discriminate|]. intros H. exfalso. lra.
  - apply Qleb_gt in E.
    destruct (Qltb a b) eqn:E2.
    + apply Qltb_lt in E2. split; [intros _ | reflexivity].
      rewrite Qabs_neg in E by lra. lra.
    + apply Qltb_ge in E2. split; [discriminate|]. intros H. exfalso. lra.
Qed.





Section Passes.

Variable feed : Vector -> Vector -> Q -> Q -> Q.
Variables step_depth start_depth clearance_height safe_height : Q.
Variables h_feed v_feed h_rapid : Q.
Variable rapid : bool.
Variable path : list Command.
Variable zlow : Q.

Hypothesis zlow_below :
  forall cmd z, In cmd path -> attr cmd "Z" = Some z -> zlow <= z.

Let step_command' :=
  step_command feed step_depth h_feed v_feed h_rapid rapid.
Let pass_loop' :=
  pass_loop feed step_depth clearance_height safe_height
            h_feed v_feed h_rapid rapid.
Let run_pass' :=
  run_pass feed step_depth clearance_height safe_height
           h_feed v_feed h_rapid rapid path.
Let stepdown_loop' :=
  stepdown_loop feed step_depth clearance_height safe_height
                h_feed v_feed h_rapid rapid.












End Passes.




Example deep_path_passes :
  option_map
    (map (fun c => attr c "Z"))
    (match process_stepdown flat_feed 1 0 30 25 100 50 1000 true 3 deep_path with
     | Ok cmds => Some cmds
     | Raise _ => None
     end)
  = Some [ Some (-(3)); None; Some (-(1)); Some (-(2)); Some (-(3)) ].
Proof. vm_compute. reflexivity. Qed.

End StepdownFacts.

(** * Facts about the feed interpolation *)

Module FeedFacts.

Import Feed FeedSpec.
Open Scope R_scope.

Lemma div_le_bound a b d : 0 < d -> a <= b * d -> a / d <= b.
Proof.
  intros Hd H. apply (Rmult_le_reg_r d); [exact Hd|].
  unfold Rdiv. rewrite Rmult_assoc, Rinv_l by lra. lra.
Qed.

(** The two lengths of a displacement: non-negative, and tied by
    Pythagoras. *)
Lemma lengths_facts dx dy dz :
  let dist_xy := hypot dx dy in
  let dist := sqrt (dx * dx + dy * dy + dz * dz) in
  0 <= dist_xy /\ 0 <= dist /\ dist * dist = dist_xy * dist_xy + dz * dz.
Proof.
  intros dist_xy dist.
  assert (H1 : 0 <= dx * dx + dy * dy) by nra.
  assert (H2 : 0 <= dx * dx + dy * dy + dz * dz) by nra.
  split; [apply sqrt_pos|]. split; [apply sqrt_pos|].
  unfold dist, dist_xy, hypot. rewrite !sqrt_sqrt by assumption. reflexivity.
Qed.

Lemma isRoughly_zero a : 0 <= a -> isRoughly a 0 = true <-> a <= Tolerance.
Proof.
  intros Ha. unfold isRoughly.
  rewrite Rminus_0_r, Rabs_pos_eq by exact Ha.
  destruct (Rle_dec a Tolerance); split; intros; try discriminate; auto;
    try contradiction.
Qed.

Lemma isRoughly_abs a : isRoughly a 0 = true <-> Rabs a <= Tolerance.
Proof.
  unfold isRoughly. rewrite Rminus_0_r.
  destruct (Rle_dec (Rabs a) Tolerance); split; intros; try discriminate; auto;
    try contradiction.
Qed.

Lemma gt_true a b : gt a b = true <-> b < a.
Proof.
  unfold gt. destruct (Rlt_dec b a); split; intros; try discriminate; auto;
    try contradiction.
Qed.

Lemma feed_tolerance_pos : 0 < Tolerance.
Proof. unfold Tolerance. lra. Qed.

Lemma interpolate_feedrate_branch p0 p1 h v :
  interpolate_feedrate p0 p1 h v =
  feed_branch (pz p1 - pz p0)
              (hypot (px p1 - px p0) (py p1 - py p0))
              (sqrt ((px p1 - px p0) * (px p1 - px p0) +
                     (py p1 - py p0) * (py p1 - py p0) +
                     (pz p1 - pz p0) * (pz p1 - pz p0)))
              h v.
Proof. reflexivity. Qed.

Section Bounds.

Variables dz dist_xy dist h v : R.
Hypothesis Hh : 0 < h.
Hypothesis Hv : 0 < v.
Hypothesis Hxy : 0 <= dist_xy.
Hypothesis Hd : 0 <= dist.
Hypothesis Hpyth : dist * dist = dist_xy * dist_xy + dz * dz.

Let F := feed_branch dz dist_xy dist h v.

Lemma dist_xy_le_dist : dist_xy <= dist.
Proof. nra. Qed.

Lemma abs_dz_le_dist : Rabs dz <= dist.
Proof.
  unfold Rabs. destruct (Rcase_abs dz); nra.
Qed.

Lemma branch_diagonal_descent :
  Tolerance < dist_xy -> Tolerance < Rabs dz -> dz < 0 ->
  F = Rmin (h * dist / dist_xy) (v * dist / Rabs dz).
Proof.
  intros H1 H2 H3. unfold F, feed_branch.
  pose proof dist_xy_le_dist as Hle.
  assert (E1 : isRoughly dist 0 = false).
  { destruct (isRoughly dist 0) eqn:E; [|reflexivity].
    apply isRoughly_zero in E; [lra | exact Hd]. }
  assert (E2 : isRoughly dist_xy 0 = false).
  { destruct (isRoughly dist_xy 0) eqn:E; [|reflexivity].
    apply isRoughly_zero in E; [lra | exact Hxy]. }
  assert (E3 : isRoughly dz 0 = false).
  { destruct (isRoughly dz 0) eqn:E; [|reflexivity].
    apply isRoughly_abs in E. lra. }
  assert (E4 : gt dz 0 = false).
  { destruct (gt dz 0) eqn:E; [|reflexivity]. apply gt_true in E. lra. }
  rewrite E1, E2, E3, E4. reflexivity.
Qed.

(** [F * dist_xy <= h * dist], unless the feed is the vertical feed of a
    near-vertical descent or of a near-zero move. *)
Lemma horizontal_product :
  v <= h \/ Tolerance < dist_xy \/ (0 < dz /\ Tolerance < dist) ->
  F * dist_xy <= h * dist.
Proof.
  intros Hcase. unfold F, feed_branch.
  pose proof dist_xy_le_dist as Hle. pose proof feed_tolerance_pos as Ht.
  destruct (isRoughly dist 0) eqn:E1; simpl.
  - apply isRoughly_zero in E1; [|exact Hd].
    destruct Hcase as [Hc | [Hc | [_ Hc]]]; [nra | lra | lra].
  - destruct (isRoughly dist_xy 0) eqn:E2.
    + apply isRoughly_zero in E2; [|exact Hxy].
      destruct (gt dz 0) eqn:E4; [nra|].
      destruct Hcase as [Hc | [Hc | [Hc _]]]; [nra | lra |].
      assert (gt dz 0 = true) by (apply gt_true; exact Hc). congruence.
    + assert (Hpos : 0 < dist_xy).
      { destruct (Rle_dec dist_xy Tolerance) as [Hc|Hc]; [|lra].
        apply (isRoughly_zero dist_xy Hxy) in Hc. congruence. }
      assert (Hfh : h * dist / dist_xy * dist_xy = h * dist).
      { field. lra. }
      destruct (isRoughly dz 0); [nra|].
      destruct (gt dz 0); [lra|].
      pose proof (Rmin_l (h * dist / dist_xy) (v * dist / Rabs dz)) as Hm.
      apply Rle_trans with (h * dist / dist_xy * dist_xy); [|lra].
      apply Rmult_le_compat_r; [exact Hxy | exact Hm].
Qed.

(** [F * |dz| <= v * dist] on a descent, unless the move counts as
    purely horizontal. *)
Lemma vertical_product :
  dz < 0 ->
  Tolerance < Rabs dz \/ dist_xy <= Tolerance ->
  F * Rabs dz <= v * dist.
Proof.
  intros Hz Hcase. unfold F, feed_branch.
  pose proof abs_dz_le_dist as Hle. pose proof feed_tolerance_pos as Ht.
  assert (Habs : 0 < Rabs dz) by (apply Rabs_pos_lt; lra).
  assert (E4 : gt dz 0 = false).
  { destruct (gt dz 0) eqn:E; [|reflexivity]. apply gt_true in E. lra. }
  rewrite E4.
  destruct (isRoughly dist 0) eqn:E1; simpl; [nra|].
  destruct (isRoughly dist_xy 0) eqn:E2; [nra|].
  destruct (isRoughly dz 0) eqn:E3.
  - exfalso. apply isRoughly_abs in E3.
    destruct Hcase as [Hc|Hc]; [lra|].
    apply (isRoughly_zero dist_xy Hxy) in Hc. congruence.
  - assert (Hfv : v * dist / Rabs dz * Rabs dz = v * dist).
    { field. lra. }
    pose proof (Rmin_r (h * dist / dist_xy) (v * dist / Rabs dz)) as Hm.
    apply Rle_trans with (v * dist / Rabs dz * Rabs dz); [|lra].
    apply Rmult_le_compat_r; [lra | exact Hm].
Qed.

End Bounds.

Lemma feed_components_branch p0 p1 h v :
  feed_components p0 p1 h v =
  let dz := pz p1 - pz p0 in
  let dist_xy := hypot (px p1 - px p0) (py p1 - py p0) in
  let dist := sqrt ((px p1 - px p0) * (px p1 - px p0) +
                    (py p1 - py p0) * (py p1 - py p0) + dz * dz) in
  let F := feed_branch dz dist_xy dist h v in
  (if gt dist 0 then F * dist_xy / dist else 0,
   if gt dist 0 then F * Rabs dz / dist else 0).
Proof. reflexivity. Qed.

(** X28.  What the self-test of the module asserts of the components of
    the feed, for every move and all positive feeds.  On a diagonal
    descent (planar length and drop both beyond the tolerance of
    [isRoughly]) the feed is
    [min(h_feed * dist / dist_xy, v_feed * dist / |dz|)].  On a descent
    the vertical component does not exceed [v_feed], unless the move
    counts as purely horizontal (drop within the tolerance, planar length
    beyond it).  The horizontal component does not exceed [h_feed] when
    [v_feed <= h_feed], or the planar length is beyond the tolerance, or
    the move ascends over more than the tolerance. *)
Theorem interpolate_feedrate_caps p0 p1 h_feed v_feed :
  0 < h_feed ->
  0 < v_feed ->
  let dz := pz p1 - pz p0 in
  let dist_xy := hypot (px p1 - px p0) (py p1 - py p0) in
  let dist := sqrt ((px p1 - px p0) * (px p1 - px p0) +
                    (py p1 - py p0) * (py p1 - py p0) + dz * dz) in
  let F := interpolate_feedrate p0 p1 h_feed v_feed in
  let h_comp := fst (feed_components p0 p1 h_feed v_feed) in
  let v_comp := snd (feed_components p0 p1 h_feed v_feed) in
  (Tolerance < dist_xy -> Tolerance < Rabs dz -> dz < 0 ->
   F = Rmin (h_feed * dist / dist_xy) (v_feed * dist / Rabs dz)) /\
  (dz < 0 -> Tolerance < Rabs dz \/ dist_xy <= Tolerance ->
   v_comp <= v_feed) /\
  (v_feed <= h_feed \/ Tolerance < dist_xy \/ (0 < dz /\ Tolerance < dist) ->
   h_comp <= h_feed).
Proof.
  intros Hh Hv dz dist_xy dist F h_comp v_comp.
  destruct (lengths_facts (px p1 - px p0) (py p1 - py p0) dz)
    as (Hxy & Hd & Hpyth).
  fold dist_xy in Hxy, Hpyth. fold dist in Hd, Hpyth.
  assert (HF : F = feed_branch dz dist_xy dist h_feed v_feed)
    by apply interpolate_feedrate_branch.
  assert (Hc : feed_components p0 p1 h_feed v_feed =
               (if gt dist 0 then F * dist_xy / dist else 0,
                if gt dist 0 then F * Rabs dz / dist else 0))
    by (rewrite HF; apply feed_components_branch).
  split; [|split].
  - intros H1 H2 H3. rewrite HF.
    now apply branch_diagonal_descent.
  - intros Hz Hcase. unfold v_comp. rewrite Hc. simpl.
    destruct (gt dist 0) eqn:E; [|lra].
    apply gt_true in E. apply div_le_bound; [exact E|].
    rewrite HF. now apply vertical_product.
  - intros Hcase. unfold h_comp. rewrite Hc. simpl.
    destruct (gt dist 0) eqn:E; [|lra].
    apply gt_true in E. apply div_le_bound; [exact E|].
    rewrite HF. now apply horizontal_product.
Qed.

Lemma interpolate_feedrate_caps_witness :
  0 < 100 /\
  0 < 50 /\
  snd (feed_components origin (3, 0, -4) 100 50) <= 50 /\
  fst (feed_components origin (3, 0, -4) 100 50) <= 100.
Proof.
  assert (H1 : 0 < 100) by lra.
  assert (H2 : 0 < 50) by lra.
  assert (Hz : pz (3, 0, -4) - pz origin = -4).
  { unfold origin, pz. simpl. lra. }
  split; [exact H1|]. split; [exact H2|].
  destruct (interpolate_feedrate_caps origin (3, 0, -4) 100 50 H1 H2)
    as (_ & Hvert & Hhoriz).
  split.
  - apply Hvert.
    + rewrite Hz. lra.
    + left. rewrite Hz. unfold Tolerance, Rabs.
      destruct (Rcase_abs (-4)); lra.
  - apply Hhoriz. left. lra.
Defined.

Lemma shallow_lengths :
  hypot (px shallow_target - px origin) (py shallow_target - py origin)
  = 12 / 10000000 /\
  sqrt ((px shallow_target - px origin) * (px shallow_target - px origin) +
        (py shallow_target - py origin) * (py shallow_target - py origin) +
        (pz shallow_target - pz origin) * (pz shallow_target - pz origin))
  = 15 / 10000000.
Proof.
  unfold hypot, origin, shallow_target, px, py, pz. simpl.
  split; apply sqrt_lem_1; lra.
Qed.

(** C5 fails in the code.  The move from the origin to
    (12e-7, 0, -9e-7) descends; its drop is within the tolerance of
    [isRoughly], so it counts as purely horizontal and gets
    [h_feed = 100]; the vertical component of that feed is 60, above
    [v_feed = 50] by more than 1e-6.  This is the hard cap that the
    docstring of [interpolate_feedrate] promises for downward moves, and
    the bound [v_comp <= vf + 1e-6] that the self-test of the module
    asserts for every move that does not rise. *)
Lemma vertical_cap_exceeded_on_shallow_descent :
  pz shallow_target - pz origin < 0 /\
  interpolate_feedrate origin shallow_target 100 50 = 100 /\
  snd (feed_components origin shallow_target 100 50) = 60 /\
  ~ (snd (feed_components origin shallow_target 100 50) <= 50 + 1 / 1000000).
Proof.
  destruct shallow_lengths as (Hxy & Hd).
  assert (Hz : pz shallow_target - pz origin = - (9 / 10000000)).
  { unfold origin, shallow_target, pz. simpl. lra. }
  assert (HF : interpolate_feedrate origin shallow_target 100 50 = 100).
  { rewrite interpolate_feedrate_branch, Hxy, Hd, Hz.
    unfold feed_branch, isRoughly, Tolerance.
    rewrite !Rminus_0_r.
    rewrite (Rabs_pos_eq (15 / 10000000)) by lra.
    rewrite (Rabs_pos_eq (12 / 10000000)) by lra.
    rewrite Rabs_Ropp, (Rabs_pos_eq (9 / 10000000)) by lra.
    destruct (Rle_dec (15 / 10000000) (1 / 1000000)); [lra|]. simpl.
    destruct (Rle_dec (12 / 10000000) (1 / 1000000)); [lra|].
    destruct (Rle_dec (9 / 10000000) (1 / 1000000)); [reflexivity | lra]. }
  assert (Hv : snd (feed_components origin shallow_target 100 50) = 60).
  { unfold feed_components. cbv zeta. rewrite HF, Hd, Hz. simpl.
    unfold gt. destruct (Rlt_dec 0 (15 / 10000000)); [|lra].
    rewrite Rabs_Ropp, (Rabs_pos_eq (9 / 10000000)) by lra. lra. }
  split; [lra|]. split; [exact HF|]. split; [exact Hv|].
  rewrite Hv. lra.
Qed.

Lemma tiny_lengths :
  hypot (px tiny_target - px origin) (py tiny_target - py origin)
  = 3 / 10000000 /\
  sqrt ((px tiny_target - px origin) * (px tiny_target - px origin) +
        (py tiny_target - py origin) * (py tiny_target - py origin) +
        (pz tiny_target - pz origin) * (pz tiny_target - pz origin))
  = 5 / 10000000.
Proof.
  unfold hypot, origin, tiny_target, px, py, pz. simpl.
  split; apply sqrt_lem_1; lra.
Qed.

(** The horizontal bound needs its side condition as well: with
    [v_feed = 100] above [h_feed = 50], the move from the origin to
    (3e-7, 0, -4e-7) has a length within the tolerance, gets [v_feed], and
    the horizontal component of that feed is 60. *)
Example horizontal_cap_exceeded_on_tiny_move :
  interpolate_feedrate origin tiny_target 50 100 = 100 /\
  fst (feed_components origin tiny_target 50 100) = 60.
Proof.
  destruct tiny_lengths as (Hxy & Hd).
  assert (HF : interpolate_feedrate origin tiny_target 50 100 = 100).
  { rewrite interpolate_feedrate_branch, Hxy, Hd.
    unfold feed_branch, isRoughly, Tolerance.
    rewrite !Rminus_0_r.
    rewrite (Rabs_pos_eq (5 / 10000000)) by lra.
    destruct (Rle_dec (5 / 10000000) (1 / 1000000)); [reflexivity | lra]. }
  split; [exact HF|].
  unfold feed_components. cbv zeta. rewrite HF, Hd, Hxy. simpl.
  unfold gt. destruct (Rlt_dec 0 (5 / 10000000)); lra.
Qed.

End FeedFacts.

(** * More about the quadtree *)

Module QuadTreeMore.

Import QuadTree QuadTreeSpec QuadTreeMoreSpec QuadTreeFacts.
Open Scope Q_scope.

Lemma insert_unfold fuel n x y z :
  insert (S fuel) n x y z =
  if negb (contains n x y) then (n, Ok false)
  else
    match children n with
    | None =>
        if (List.length (points n) <? capacity n)%nat then
          (set_points n (points n ++ [(x, y, z)]), Ok true)
        else
          match fuel with
          | O => (n, Raise RecursionError)
          | S _ =>
              let '(chs, kept, r) :=
                move_points
                  (fun p ch => let '(px, py, pz) := p in insert fuel ch px py pz)
                  (points n) (subdivide n) [] in
              match r with
              | Raise e => (set_children (set_points n kept) (Some chs), Raise e)
              | Ok _ =>
                  insert_into_children (fun ch => insert fuel ch x y z)
                                       (set_points n kept) chs (x, y, z)
              end
          end
    | Some chs =>
        insert_into_children (fun ch => insert fuel ch x y z) n chs (x, y, z)
    end.
Proof. reflexivity. Qed.

Lemma insert_into_children_not_false ins n chs p :
  snd (insert_into_children ins n chs p) <> Ok false.
Proof.
  unfold insert_into_children.
  destruct (insert_first ins chs) as [chs' [[|]|e]]; simpl; discriminate.
Qed.

(** X1.  With stack left for the call, [insert] returns [False] exactly for
    a point outside the node's region, and then the node is as it was. *)
Theorem insert_false_iff_outside fuel n x y z :
  (snd (insert (S fuel) n x y z) = Ok false <-> contains n x y = false) /\
  (contains n x y = false -> insert (S fuel) n x y z = (n, Ok false)).
Proof.
  rewrite insert_unfold.
  destruct (contains n x y) eqn:Hc; simpl.
  - split; [|discriminate]. split; [|discriminate].
    destruct (children n) as [chs|].
    + intros H. now apply insert_into_children_not_false in H.
    + destruct (List.length (points n) <? capacity n)%nat; [discriminate|].
      destruct fuel as [|fuel']; [discriminate|].
      destruct (move_points _ _ _ _) as [[chs kept] [u|e]]; [|discriminate].
      intros H. now apply insert_into_children_not_false in H.
  - split; [split|]; reflexivity.
Qed.

(** X2.  A call of [insert] that returns [True] was made with a point of
    the node's region, adds exactly that sample to the samples under the
    node (none is lost or doubled when the node is subdivided), leaves the
    region as it was, and keeps every sample within the region of every node
    above it. *)
Theorem insert_true_adds_the_sample fuel n x y z n' :
  insert fuel n x y z = (n', Ok true) ->
  contains n x y = true /\
  Permutation (tree_points n') ((x, y, z) :: tree_points n) /\
  same_box n n' /\
  (node_inv n -> node_inv n').
Proof.
  intros H.
  destruct (insert_spec fuel x y z n n' (Ok true) H) as (Hbox & Hacc & _).
  destruct (Hacc eq_refl) as (_ & Hperm & Hinv).
  split; [|auto].
  destruct fuel as [|fuel]; [discriminate|].
  destruct (contains n x y) eqn:Hc; [reflexivity|].
  destruct (insert_false_iff_outside fuel n x y z) as (_ & Hout).
  rewrite (Hout Hc) in H. discriminate.
Qed.

Lemma insert_true_adds_the_sample_witness :
  insert 5 demo_root1 6 6 7 = (demo_root2, Ok true) /\
  contains demo_root1 6 6 = true /\
  Permutation (tree_points demo_root2) ((6, 6, 7) :: tree_points demo_root1) /\
  same_box demo_root1 demo_root2 /\
  (node_inv demo_root1 -> node_inv demo_root2).
Proof.
  assert (H : insert 5 demo_root1 6 6 7 = (demo_root2, Ok true)) by reflexivity.
  split; [exact H|].
  exact (insert_true_adds_the_sample 5 demo_root1 6 6 7 demo_root2 H).
Defined.

Lemma insert_first_keeps_capacity (ins : Node -> Node * Exc bool) chs :
  (forall ch, leaves_within_capacity ch -> leaves_within_capacity (fst (ins ch))) ->
  Forall leaves_within_capacity chs ->
  Forall leaves_within_capacity (fst (insert_first ins chs)).
Proof.
  intros Hins. induction chs as [|ch rest IH]; intros Hall; simpl.
  - constructor.
  - inversion Hall as [|? ? Hch Hrest]; subst.
    specialize (Hins ch Hch). specialize (IH Hrest).
    destruct (ins ch) as [ch1 [[|]|e]]; simpl in *.
    + now constructor.
    + destruct (insert_first ins rest) as [rest1 r1]. simpl in *.
      now constructor.
    + now constructor.
Qed.

Lemma move_points_keeps_capacity (ins : Sample -> Node -> Node * Exc bool) pts :
  (forall p ch, leaves_within_capacity ch ->
                leaves_within_capacity (fst (ins p ch))) ->
  forall chs kept,
    Forall leaves_within_capacity chs ->
    Forall leaves_within_capacity (fst (fst (move_points ins pts chs kept))).
Proof.
  intros Hins. induction pts as [|p pts IH]; intros chs kept Hall; simpl.
  - exact Hall.
  - pose proof (insert_first_keeps_capacity (ins p) chs (Hins p) Hall) as H1.
    destruct (insert_first (ins p) chs) as [chs1 [[|]|e]]; simpl in *.
    + now apply IH.
    + now apply IH.
    + exact H1.
Qed.

Lemma insert_into_children_keeps_capacity ins n chs p :
  (forall ch, leaves_within_capacity ch -> leaves_within_capacity (fst (ins ch))) ->
  Forall leaves_within_capacity chs ->
  leaves_within_capacity (fst (insert_into_children ins n chs p)).
Proof.
  intros Hins Hall. unfold insert_into_children.
  pose proof (insert_first_keeps_capacity ins chs Hins Hall) as H1.
  destruct (insert_first ins chs) as [chs1 [[|]|e]]; simpl in *;
    eapply within_capacity_inner; try reflexivity; exact H1.
Qed.

Lemma subdivide_within_capacity n : Forall leaves_within_capacity (subdivide n).
Proof.
  unfold subdivide, new_node.
  repeat constructor; simpl; lia.
Qed.

(** X3.  Whatever a call of [insert] returns or raises, it leaves no leaf
    with more samples than its capacity, if there was none before.  In
    particular a full leaf that cannot be subdivided for lack of stack
    (fewer than the two frames that [subdivide] and the [Node] it builds
    take) is left as it was: the exception comes before the leaf is
    touched. *)
Theorem insert_keeps_leaves_within_capacity fuel n x y z :
  leaves_within_capacity n ->
  leaves_within_capacity (fst (insert fuel n x y z)) /\
  ((fuel <= 1)%nat ->
   children n = None ->
   (capacity n <= List.length (points n))%nat ->
   fst (insert fuel n x y z) = n /\
   (contains n x y = true ->
    snd (insert fuel n x y z) = Raise RecursionError)).
Proof.
  intros Hn. split.
  - revert n x y z Hn.
    induction fuel as [|fuel IH]; intros n x y z Hn; [exact Hn|].
    rewrite insert_unfold.
    destruct (contains n x y); simpl; [|exact Hn].
    destruct (children n) as [chs|] eqn:Hch.
    + apply insert_into_children_keeps_capacity.
      * intros ch. apply IH.
      * inversion Hn as [? Hnone _|? chs0 Hsome Hall]; subst; [congruence|].
        rewrite Hch in Hsome. now injection Hsome as <-.
    + destruct (List.length (points n) <? capacity n)%nat eqn:Hlt.
      * apply Nat.ltb_lt in Hlt. simpl. apply within_capacity_leaf.
        -- simpl. exact Hch.
        -- simpl. rewrite length_app. simpl. lia.
      * pose proof (move_points_keeps_capacity
                      (fun p ch =>
                         let '(px, py, pz) := p in insert fuel ch px py pz)
                      (points n)
                      (fun p ch =>
                         match p with (px, py, pz) => IH ch px py pz end)
                      (subdivide n) [] (subdivide_within_capacity n)) as Hmv.
        destruct fuel as [|fuel'] eqn:Ef; [exact Hn|]. rewrite <- Ef in *.
        destruct (move_points _ (points n) (subdivide n) [])
          as [[chs1 kept] [u|e]]; simpl in *.
        -- apply insert_into_children_keeps_capacity; [|exact Hmv].
           intros ch. apply IH.
        -- eapply within_capacity_inner; [reflexivity | exact Hmv].
  - intros Hfuel Hleaf Hfull.
    destruct fuel as [|[|fuel]]; [split; reflexivity | | lia].
    rewrite insert_unfold, Hleaf.
    apply Nat.ltb_ge in Hfull. rewrite Hfull.
    destruct (contains n x y); simpl; split; try reflexivity; discriminate.
Qed.

Lemma insert_keeps_leaves_within_capacity_witness :
  leaves_within_capacity demo_root1_nw /\
  leaves_within_capacity (fst (insert 1 demo_root1_nw 1 1 6)) /\
  fst (insert 1 demo_root1_nw 1 1 6) = demo_root1_nw /\
  snd (insert 1 demo_root1_nw 1 1 6) = Raise RecursionError.
Proof.
  assert (H : leaves_within_capacity demo_root1_nw).
  { apply within_capacity_leaf; [reflexivity | simpl; lia]. }
  split; [exact H|].
  destruct (insert_keeps_leaves_within_capacity 1 demo_root1_nw 1 1 6 H)
    as (Hcap & Hsame).
  split; [exact Hcap|].
  destruct Hsame as (Hn & Hr); [lia | reflexivity | simpl; lia |].
  split; [exact Hn | exact (Hr eq_refl)].
Defined.

Lemma sum_of_squares_zero (a b : Q) : a * a + b * b <= 0 -> a == 0 /\ b == 0.
Proof.
  intros H.
  assert (Ha : 0 <= a * a) by nra.
  assert (Hb : 0 <= b * b) by nra.
  assert (Ha0 : a * a == 0) by lra.
  assert (Hb0 : b * b == 0) by lra.
  split.
  - destruct (Qmult_integral _ _ Ha0); assumption.
  - destruct (Qmult_integral _ _ Hb0); assumption.
Qed.

Lemma nearest_is_best root x y :
  node_inv root ->
  best_for x y (fun q => In q (tree_points root)) (nearest root x y None).
Proof.
  intros Hinv.
  eapply best_for_ext;
    [|apply (nearest_best x y root Hinv (fun _ => False) None); simpl; tauto].
  intros q. tauto.
Qed.

(** X4.  Insert, then look up: after a call of [insert] on a well-formed
    index has returned [True], [nearest] at the inserted position answers
    with a stored sample at that position, at squared distance zero. *)
Theorem nearest_after_insert_is_at_distance_zero fuel root x y z root' :
  node_inv root ->
  insert fuel root x y z = (root', Ok true) ->
  exists p d2,
    QuadTree_nearest root' x y = Some (p, d2) /\
    d2 == 0 /\
    fst (fst p) == x /\ snd (fst p) == y /\
    In p ((x, y, z) :: tree_points root).
Proof.
  intros Hinv Hins.
  destruct (insert_spec fuel x y z root root' (Ok true) Hins) as (_ & Hacc & _).
  destruct (Hacc eq_refl) as (_ & Hperm & Hinv').
  pose proof (nearest_is_best root' x y (Hinv' Hinv)) as Hbest.
  assert (Hnew : In (x, y, z) (tree_points root')).
  { eapply Permutation_in; [symmetry; exact Hperm | now left]. }
  unfold QuadTree_nearest.
  destruct (nearest root' x y None) as [[d2 p]|]; simpl in Hbest.
  - destruct Hbest as (Hp & Hd & Hmin).
    exists p, d2. split; [reflexivity|].
    pose proof (Hmin _ Hnew) as Hle.
    assert (Hzero : dist_sq (x, y, z) x y == 0) by (unfold dist_sq; ring).
    rewrite Hzero in Hle.
    destruct p as [[px py] pz]. unfold dist_sq in Hd. cbv zeta in Hd.
    rewrite Hd in Hle.
    destruct (sum_of_squares_zero _ _ Hle) as (Hx & Hy).
    split; [rewrite Hd; apply Qle_antisym;
            [exact Hle | clear; generalize (px - x) (py - y); intros a b; nra]|].
    cbn [fst snd]. split; [lra|]. split; [lra|].
    eapply Permutation_in; [exact Hperm | exact Hp].
  - elim (Hbest _ Hnew).
Qed.

Lemma nearest_after_insert_is_at_distance_zero_witness :
  node_inv demo_root0 /\
  insert 5 demo_root0 1 1 5 = (demo_root1, Ok true) /\
  exists p d2,
    QuadTree_nearest demo_root1 1 1 = Some (p, d2) /\
    d2 == 0 /\
    fst (fst p) == 1 /\ snd (fst p) == 1 /\
    In p ((1, 1, 5) :: tree_points demo_root0).
Proof.
  assert (H0 : node_inv demo_root0).
  { constructor.
    - repeat constructor; simpl; lra.
    - intros chs [= <-]. apply subdivide_inv. }
  assert (H1 : insert 5 demo_root0 1 1 5 = (demo_root1, Ok true)) by reflexivity.
  split; [exact H0|]. split; [exact H1|].
  exact (nearest_after_insert_is_at_distance_zero 5 demo_root0 1 1 5 demo_root1
           H0 H1).
Defined.

(** X5.  Inserting a sample that is already stored changes the distance
    that [nearest] reports for no query point. *)
Theorem duplicate_insert_keeps_nearest_distance fuel root x y z root' qx qy :
  node_inv root ->
  In (x, y, z) (tree_points root) ->
  insert fuel root x y z = (root', Ok true) ->
  exists p d2 p' d2',
    QuadTree_nearest root qx qy = Some (p, d2) /\
    QuadTree_nearest root' qx qy = Some (p', d2') /\
    d2 == d2'.
Proof.
  intros Hinv Hold Hins.
  destruct (insert_spec fuel x y z root root' (Ok true) Hins) as (_ & Hacc & _).
  destruct (Hacc eq_refl) as (_ & Hperm & Hinv').
  pose proof (nearest_is_best root qx qy Hinv) as Hb.
  pose proof (nearest_is_best root' qx qy (Hinv' Hinv)) as Hb'.
  assert (Hsub : forall q, In q (tree_points root') -> In q (tree_points root)).
  { intros q Hq. apply (Permutation_in _ Hperm) in Hq.
    destruct Hq as [<-|Hq]; assumption. }
  assert (Hsup : forall q, In q (tree_points root) -> In q (tree_points root')).
  { intros q Hq. eapply Permutation_in; [symmetry; exact Hperm | now right]. }
  unfold QuadTree_nearest.
  destruct (nearest root qx qy None) as [[d2 p]|]; simpl in Hb;
    [|elim (Hb _ Hold)].
  destruct (nearest root' qx qy None) as [[d2' p']|]; simpl in Hb';
    [|elim (Hb' _ (Hsup _ Hold))].
  destruct Hb as (Hp & Hd & Hmin). destruct Hb' as (Hp' & Hd' & Hmin').
  exists p, d2, p', d2'. split; [reflexivity|]. split; [reflexivity|].
  apply Qle_antisym.
  - rewrite Hd'. apply Hmin. now apply Hsub.
  - rewrite Hd. apply Hmin'. now apply Hsup.
Qed.

Lemma duplicate_insert_keeps_nearest_distance_witness :
  node_inv demo_root0 /\
  In (4, 4, 9) (tree_points demo_root0) /\
  insert 5 demo_root0 4 4 9 = (fst (insert 5 demo_root0 4 4 9), Ok true) /\
  exists p d2 p' d2',
    QuadTree_nearest demo_root0 1 2 = Some (p, d2) /\
    QuadTree_nearest (fst (insert 5 demo_root0 4 4 9)) 1 2 = Some (p', d2') /\
    d2 == d2'.
Proof.
  assert (H0 : node_inv demo_root0).
  { constructor.
    - repeat constructor; simpl; lra.
    - intros chs [= <-]. apply subdivide_inv. }
  assert (H1 : In (4, 4, 9) (tree_points demo_root0)) by (now left).
  assert (H2 : insert 5 demo_root0 4 4 9 =
               (fst (insert 5 demo_root0 4 4 9), Ok true)) by reflexivity.
  split; [exact H0|]. split; [exact H1|]. split; [exact H2|].
  exact (duplicate_insert_keeps_nearest_distance 5 demo_root0 4 4 9 _ 1 2
           H0 H1 H2).
Defined.

(** *** Samples at one position *)

Lemma contains_bounds n x y :
  contains n x y = true <->
  (xmin n <= x /\ x <= xmax n) /\ (ymin n <= y /\ y <= ymax n).
Proof.
  unfold contains. rewrite !andb_true_iff, !Qleb_le. tauto.
Qed.

(** The children of a subdivided node cover its region: the loop over the
    children finds one for every point of the node. *)
Lemma subdivide_covers n x y :
  contains n x y = true ->
  exists pre c post,
    subdivide n = pre ++ c :: post /\
    Forall (fun ch => contains ch x y = false) pre /\
    contains c x y = true /\
    children c = None /\ points c = [] /\ capacity c = capacity n.
Proof.
  intros Hc. apply contains_bounds in Hc. destruct Hc as [[Hx0 Hx1] [Hy0 Hy1]].
  set (mx := (1 # 2) * (xmin n + xmax n)).
  set (my := (1 # 2) * (ymin n + ymax n)).
  set (nw := new_node (xmin n) mx my (ymax n) (capacity n)).
  set (ne := new_node mx (xmax n) my (ymax n) (capacity n)).
  set (sw := new_node (xmin n) mx (ymin n) my (capacity n)).
  set (se := new_node mx (xmax n) (ymin n) my (capacity n)).
  assert (Hsub : subdivide n = [nw; ne; sw; se]) by reflexivity.
  destruct (contains nw x y) eqn:E1.
  { exists [], nw, [ne; sw; se]. rewrite Hsub. repeat split; auto. }
  destruct (contains ne x y) eqn:E2.
  { exists [nw], ne, [sw; se]. rewrite Hsub. repeat split; auto. }
  destruct (contains sw x y) eqn:E3.
  { exists [nw; ne], sw, [se]. rewrite Hsub. repeat split; auto. }
  exists [nw; ne; sw], se, []. rewrite Hsub.
  split; [reflexivity|]. split; [repeat constructor; assumption|].
  split; [|repeat split].
  apply contains_bounds. simpl.
  assert (N1 : ~ ((xmin n <= x /\ x <= mx) /\ (my <= y /\ y <= ymax n))).
  { intros H. apply (contains_bounds nw) in H. congruence. }
  assert (N2 : ~ ((mx <= x /\ x <= xmax n) /\ (my <= y /\ y <= ymax n))).
  { intros H. apply (contains_bounds ne) in H. congruence. }
  assert (N3 : ~ ((xmin n <= x /\ x <= mx) /\ (ymin n <= y /\ y <= my))).
  { intros H. apply (contains_bounds sw) in H. congruence. }
  destruct (Qlt_le_dec mx x) as [Hmx|Hmx];
    destruct (Qlt_le_dec my y) as [Hmy|Hmy].
  - exfalso. apply N2. repeat split; lra.
  - repeat split; lra.
  - exfalso. apply N1. repeat split; lra.
  - exfalso. apply N3. repeat split; lra.
Qed.

Lemma insert_first_reaches (ins : Node -> Node * Exc bool) x y pre c post :
  (forall ch, contains ch x y = false -> ins ch = (ch, Ok false)) ->
  Forall (fun ch => contains ch x y = false) pre ->
  (forall c', ins c = (c', Ok true) ->
              insert_first ins (pre ++ c :: post) = (pre ++ c' :: post, Ok true)) /\
  (forall c' e, ins c = (c', Raise e) ->
                insert_first ins (pre ++ c :: post) = (pre ++ c' :: post, Raise e)).
Proof.
  intros Hout Hpre. induction Hpre as [|ch pre Hch _ [IH1 IH2]]; simpl.
  - split.
    + intros c' ->. reflexivity.
    + intros c' e ->. reflexivity.
  - rewrite (Hout ch Hch). split.
    + intros c' Hc. now rewrite (IH1 c' Hc).
    + intros c' e Hc. now rewrite (IH2 c' e Hc).
Qed.

Lemma insert_outside fuel ch x y z :
  contains ch x y = false -> insert (S fuel) ch x y z = (ch, Ok false).
Proof. intros H. rewrite insert_unfold, H. reflexivity. Qed.

Lemma insert_raise_pair fuel n x y z e :
  snd (insert fuel n x y z) = Raise e ->
  insert fuel n x y z = (fst (insert fuel n x y z), Raise e).
Proof. destruct (insert fuel n x y z) as [n' r]; simpl. now intros ->. Qed.

Section Coincident.

Variables (x y : Q) (g : nat).

Hypothesis overflow :
  forall n z,
    children n = None ->
    contains n x y = true ->
    Forall (at_xy x y) (points n) ->
    (capacity n <= List.length (points n))%nat ->
    snd (insert (S g) n x y z) = Raise RecursionError.

Lemma move_coincident pts :
  forall pre c post kept,
    Forall (fun ch => contains ch x y = false) pre ->
    children c = None ->
    contains c x y = true ->
    Forall (at_xy x y) (points c) ->
    Forall (at_xy x y) pts ->
    let res :=
      move_points
        (fun p ch => let '(px, py, pz) := p in insert (S g) ch px py pz)
        pts (pre ++ c :: post) kept in
    snd res = Raise RecursionError \/
    (exists u c',
        res = (pre ++ c' :: post, kept, Ok u) /\
        children c' = None /\
        contains c' x y = true /\
        points c' = points c ++ pts /\
        capacity c' = capacity c).
Proof.
  induction pts as [|p pts IH]; intros pre c post kept Hpre Hleaf Hc Hxy Hpts res.
  - right. exists tt, c. unfold res. simpl. rewrite app_nil_r. auto.
  - inversion Hpts as [|? ? Hp Hpts']; subst.
    destruct p as [[px py] pz]. destruct Hp as [Hpx Hpy]. simpl in Hpx, Hpy.
    subst px py. unfold res. cbn [move_points].
    destruct (insert_first_reaches (fun ch => insert (S g) ch x y pz) x y
                pre c post (fun ch => insert_outside g ch x y pz) Hpre)
      as (Hacc & Hraise).
    destruct (List.length (points c) <? capacity c)%nat eqn:Hlt.
    + assert (Hins : insert (S g) c x y pz =
                     (set_points c (points c ++ [(x, y, pz)]), Ok true)).
      { rewrite insert_unfold, Hc, Hleaf, Hlt. reflexivity. }
      rewrite (Hacc _ Hins).
      specialize (IH pre (set_points c (points c ++ [(x, y, pz)])) post kept
                     Hpre Hleaf Hc).
      cbn [set_points points] in IH.
      destruct IH as [IH | (u & c' & IH & Hl' & Hc' & Hp' & Hcap')].
      * apply Forall_app. split; [exact Hxy|]. repeat constructor.
      * exact Hpts'.
      * left. exact IH.
      * right. exists u, c'. rewrite IH. repeat split; auto.
        rewrite Hp', <- app_assoc. reflexivity.
    + apply Nat.ltb_ge in Hlt.
      pose proof (overflow c pz Hleaf Hc Hxy Hlt) as Hr.
      apply insert_raise_pair in Hr.
      rewrite (Hraise _ _ Hr). left. reflexivity.
Qed.

End Coincident.

(** X6.  A leaf that is full of samples at one planar position cannot take
    another sample there: every subdivision hands all of them to the same
    child, so the call of [insert] raises [RecursionError], however deep
    the stack. *)
Theorem insert_coincident_overflow_raises x y fuel :
  forall n z,
    children n = None ->
    contains n x y = true ->
    Forall (at_xy x y) (points n) ->
    (capacity n <= List.length (points n))%nat ->
    snd (insert fuel n x y z) = Raise RecursionError.
Proof.
  induction fuel as [|f IH]; intros n z Hleaf Hc Hxy Hcap; [reflexivity|].
  rewrite insert_unfold, Hc, Hleaf. simpl.
  apply Nat.ltb_ge in Hcap. rewrite Hcap.
  destruct (subdivide_covers n x y Hc)
    as (pre & c & post & Hsub & Hpre & Hcc & Hcl & Hcp & Hccap).
  rewrite Hsub.
  destruct f as [|g].
  - destruct (points n) as [|[[px py] pz] pts]; simpl.
    + unfold insert_into_children.
      destruct pre as [|ch pre]; reflexivity.
    + destruct pre as [|ch pre]; reflexivity.
  - pose proof (move_coincident x y g IH (points n) pre c post []
                  Hpre Hcl Hcc) as Hmv.
    rewrite Hcp in Hmv. specialize (Hmv (Forall_nil _) Hxy).
    cbv zeta in Hmv.
    destruct Hmv as [Hmv | (u & c' & Hmv & Hl' & Hc' & Hp' & Hcap')].
    + destruct (move_points _ (points n) (pre ++ c :: post) [])
        as [[chs kept] r]. simpl in Hmv. subst r. reflexivity.
    + rewrite Hmv. unfold insert_into_children.
      destruct (insert_first_reaches (fun ch => insert (S g) ch x y z) x y
                  pre c' post (fun ch => insert_outside g ch x y z) Hpre)
        as (_ & Hraise).
      assert (Hr : snd (insert (S g) c' x y z) = Raise RecursionError).
      { apply IH; auto.
        - rewrite Hp'. simpl. exact Hxy.
        - rewrite Hcap', Hccap, Hp'. simpl. apply Nat.ltb_ge. exact Hcap. }
      apply insert_raise_pair in Hr. rewrite (Hraise _ _ Hr). reflexivity.
Qed.

Lemma insert_coincident_overflow_raises_witness :
  children demo_root1_nw = None /\
  contains demo_root1_nw 1 1 = true /\
  Forall (at_xy 1 1) (points demo_root1_nw) /\
  (capacity demo_root1_nw <= List.length (points demo_root1_nw))%nat /\
  snd (insert 900 demo_root1_nw 1 1 6) = Raise RecursionError.
Proof.
  assert (H1 : children demo_root1_nw = None) by reflexivity.
  assert (H2 : contains demo_root1_nw 1 1 = true) by reflexivity.
  assert (H3 : Forall (at_xy 1 1) (points demo_root1_nw)).
  { repeat constructor. }
  assert (H4 : (capacity demo_root1_nw
                <= List.length (points demo_root1_nw))%nat).
  { simpl. lia. }
  split; [exact H1|]. split; [exact H2|]. split; [exact H3|].
  split; [exact H4|].
  exact (insert_coincident_overflow_raises 1 1 900 demo_root1_nw 6 H1 H2 H3 H4).
Defined.

(** *** Bulk construction *)

Lemma py_min_is_min l : forall a,
    py_min a l <= a /\ forall v, In v l -> py_min a l <= v.
Proof.
  unfold py_min. induction l as [|w l IH]; intro a; simpl.
  - split; [apply Qle_refl | intros v []].
  - destruct (Qltb w a) eqn:E.
    + apply Qltb_lt in E. destruct (IH w) as (H1 & H2). split.
      * apply Qle_trans with w; [exact H1 | now apply Qlt_le_weak].
      * intros v [<-|Hv]; [exact H1 | now apply H2].
    + apply Qltb_ge in E. destruct (IH a) as (H1 & H2). split; [exact H1|].
      intros v [<-|Hv]; [|now apply H2].
      apply Qle_trans with a; assumption.
Qed.

Lemma py_max_is_greatest l a :
  a <= py_max a l /\ forall v, In v l -> v <= py_max a l.
Proof.
  destruct (ZFaceSectionFacts.py_max_is_max l a) as (_ & H).
  split; [apply H; now left | intros v Hv; apply H; now right].
Qed.

Lemma insert_ok_false_outside fuel n x y z n' :
  insert fuel n x y z = (n', Ok false) -> contains n x y = false.
Proof.
  destruct fuel as [|fuel]; [discriminate|].
  rewrite insert_unfold.
  destruct (contains n x y); simpl; [|reflexivity].
  intros H. exfalso.
  assert (Hs : snd (insert_into_children
                      (fun ch => insert fuel ch x y z) n [] (x, y, z)) <> Ok false)
    by apply insert_into_children_not_false.
  destruct (children n) as [chs|].
  - apply (insert_into_children_not_false
             (fun ch => insert fuel ch x y z) n chs (x, y, z)).
    now rewrite H.
  - destruct (List.length (points n) <? capacity n)%nat; [discriminate|].
    destruct fuel as [|fuel'] eqn:Ef; [discriminate|]. rewrite <- Ef in *.
    destruct (move_points _ _ _ _) as [[chs kept] [u|e]]; [|discriminate].
    apply (insert_into_children_not_false
             (fun ch => insert fuel ch x y z) (set_points n kept) chs (x, y, z)).
    now rewrite H.
Qed.

Lemma contains_same_box n n' x y :
  same_box n n' -> contains n' x y = contains n x y.
Proof.
  unfold same_box, contains. intros (-> & -> & -> & ->). reflexivity.
Qed.

(** The loop of [from_point_list]: when every point lies in the root's
    region and no call raises, every point is stored. *)
Lemma insert_each_stores_all fuel pts :
  forall root qt,
    node_inv root ->
    Forall (fun p => contains root (fst (fst p)) (snd (fst p)) = true) pts ->
    insert_each fuel root pts = Ok qt ->
    node_inv qt /\ Permutation (tree_points qt) (pts ++ tree_points root).
Proof.
  induction pts as [|[[x y] z] pts IH]; intros root qt Hinv Hall; simpl.
  - intros [= <-]. split; [exact Hinv | reflexivity].
  - inversion Hall as [|? ? Hp Hrest]; subst. simpl in Hp.
    unfold QuadTree_insert.
    destruct (insert fuel root x y z) as [root' r] eqn:Hins.
    destruct r as [[|]|e]; [| |discriminate].
    + destruct (insert_spec fuel x y z root root' (Ok true) Hins)
        as (Hbox & Hacc & _).
      destruct (Hacc eq_refl) as (_ & Hperm & Hinv').
      intros Hrec.
      destruct (IH root' qt (Hinv' Hinv)) as (Hq & Hpq); [|exact Hrec|].
      * rewrite Forall_forall in *. intros p Hin.
        rewrite (contains_same_box root root' _ _ Hbox). now apply Hrest.
      * split; [exact Hq|]. rewrite Hpq, Hperm.
        symmetry. apply Permutation_middle.
    + apply insert_ok_false_outside in Hins. congruence.
Qed.

(** For a list with points, [from_point_list] inserts them into an empty
    root whose region holds all of them. *)
Lemma from_point_list_root fuel p rest bounds_padding cap :
  exists root,
    from_point_list fuel (p :: rest) bounds_padding cap =
    (qt <- insert_each fuel root (p :: rest) ;; Ok (Some qt)) /\
    node_inv root /\
    tree_points root = [] /\
    Forall (fun q => contains root (fst (fst q)) (snd (fst q)) = true) (p :: rest).
Proof.
  destruct p as [[x0 y0] z0].
  unfold from_point_list. cbv zeta.
  set (xs := map (fun p : Q * Q * Q => fst (fst p)) rest).
  set (ys := map (fun p : Q * Q * Q => snd (fst p)) rest).
  destruct (py_min_is_min xs x0) as (Hxl0 & Hxl).
  destruct (py_max_is_greatest xs x0) as (Hxh0 & Hxh).
  destruct (py_min_is_min ys y0) as (Hyl0 & Hyl).
  destruct (py_max_is_greatest ys y0) as (Hyh0 & Hyh).
  set (x_lo := py_min x0 xs) in *. set (x_hi := py_max x0 xs) in *.
  set (y_lo := py_min y0 ys) in *. set (y_hi := py_max y0 ys) in *.
  set (dx := if Qeq_bool (x_hi - x_lo) 0 then 1 else x_hi - x_lo).
  set (dy := if Qeq_bool (y_hi - y_lo) 0 then 1 else y_hi - y_lo).
  set (padx := if Qltb 0 bounds_padding then bounds_padding else (1 # 100) * dx).
  set (pady := if Qltb 0 bounds_padding then bounds_padding else (1 # 100) * dy).
  assert (Hdx : 0 < dx).
  { unfold dx. destruct (Qeq_bool (x_hi - x_lo) 0) eqn:E; [reflexivity|].
    apply Qeq_bool_neq in E. lra. }
  assert (Hdy : 0 < dy).
  { unfold dy. destruct (Qeq_bool (y_hi - y_lo) 0) eqn:E; [reflexivity|].
    apply Qeq_bool_neq in E. lra. }
  assert (Hpx : 0 < padx).
  { unfold padx. destruct (Qltb 0 bounds_padding) eqn:E.
    - now apply Qltb_lt in E.
    - lra. }
  assert (Hpy : 0 < pady).
  { unfold pady. destruct (Qltb 0 bounds_padding) eqn:E.
    - now apply Qltb_lt in E.
    - lra. }
  assert (Hroot : QuadTree_init (x_lo - padx) (x_hi + padx)
                                (y_lo - pady) (y_hi + pady) cap =
                  new_node (x_lo - padx) (x_hi + padx)
                           (y_lo - pady) (y_hi + pady) cap).
  { unfold QuadTree_init.
    assert (E1 : Qleb (x_hi + padx) (x_lo - padx) = false)
      by (apply Qleb_gt; lra).
    assert (E2 : Qleb (y_hi + pady) (y_lo - pady) = false)
      by (apply Qleb_gt; lra).
    now rewrite E1, E2. }
  rewrite Hroot.
  exists (new_node (x_lo - padx) (x_hi + padx) (y_lo - pady) (y_hi + pady) cap).
  split; [reflexivity|].
  split; [constructor; simpl; [constructor | discriminate]|].
  split; [reflexivity|].
  assert (Hin : forall px py pz,
             In (px, py, pz) ((x0, y0, z0) :: rest) ->
             (x_lo <= px /\ px <= x_hi) /\ (y_lo <= py /\ py <= y_hi)).
  { intros px py pz [[= <- <- <-]|Hin]; [tauto|].
    assert (In px xs) by (apply (in_map (fun p : Sample => fst (fst p)) _ _ Hin)).
    assert (In py ys) by (apply (in_map (fun p : Sample => snd (fst p)) _ _ Hin)).
    auto. }
  rewrite Forall_forall. intros [[px py] pz] Hp. simpl.
  destruct (Hin px py pz Hp) as [[? ?] [? ?]].
  apply contains_bounds. simpl. repeat split; lra.
Qed.

(** X7.  [from_point_list] returns no tree for an empty list.  For a list
    with points, it pads the bounding box so that no point is turned away:
    the tree it returns (when no call raises) is well-formed and stores
    exactly the points of the list. *)
Theorem from_point_list_stores_the_points fuel pts bounds_padding cap r :
  from_point_list fuel pts bounds_padding cap = Ok r ->
  match r with
  | None => pts = []
  | Some qt =>
      pts <> [] /\ node_inv qt /\ Permutation (tree_points qt) pts
  end.
Proof.
  destruct pts as [|p rest].
  - intros [= <-]. reflexivity.
  - destruct (from_point_list_root fuel p rest bounds_padding cap)
      as (root & -> & Hinv & Hempty & Hall).
    destruct (insert_each fuel root (p :: rest)) as [qt|e] eqn:Hins; simpl;
      [|discriminate].
    intros [= <-]. split; [discriminate|].
    destruct (insert_each_stores_all fuel (p :: rest) root qt Hinv Hall Hins)
      as (Hq & Hperm).
    split; [exact Hq|]. now rewrite Hempty, app_nil_r in Hperm.
Qed.

Lemma from_point_list_stores_the_points_witness :
  from_point_list 5 [(1, 1, 5); (6, 6, 7); (7, 7, 2)] 0 1 =
  Ok (Some from_point_list_demo) /\
  [(1, 1, 5); (6, 6, 7); (7, 7, 2)] <> [] /\
  node_inv from_point_list_demo /\
  Permutation (tree_points from_point_list_demo)
              [(1, 1, 5); (6, 6, 7); (7, 7, 2)].
Proof.
  assert (H : from_point_list 5 [(1, 1, 5); (6, 6, 7); (7, 7, 2)] 0 1 =
              Ok (Some from_point_list_demo)) by (vm_compute; reflexivity).
  split; [exact H|].
  exact (from_point_list_stores_the_points 5 _ 0 1 _ H).
Defined.

End QuadTreeMore.

(** * More about the intersection retries *)

Module ZFaceSectionMore.

Import QuadTree ZFaceSection ZFaceSectionSpec ZFaceSectionMoreSpec.
Import ZFaceSectionFacts.
Open Scope Q_scope.

Lemma valid_section_zmax_bounded s r :
  is_valid_section s r = true -> Qabs (ZMax (BoundBox_ s)) <= 1000000.
Proof.
  unfold is_valid_section.
  destruct (negb (isValid s)); [discriminate|].
  destruct (isNull s); [discriminate|].
  destruct (existsb _ _) eqn:E; [discriminate|]. intros _.
  apply Qltb_ge.
  destruct (Qltb 1000000 (Qabs (ZMax (BoundBox_ s)))) eqn:E1; [|reflexivity].
  assert (Hex : existsb (fun v => Qltb 1000000 (Qabs v)) (bound_list (BoundBox_ s))
                = true).
  { apply existsb_exists. exists (ZMax (BoundBox_ s)). split; [|exact E1].
    unfold bound_list. simpl. tauto. }
  congruence.
Qed.

(** The per-face loop keeps a section only if it is valid and has no
    edge. *)
Lemma face_sections_kept k cyl approx r faces :
  forall acc sections,
    Forall (fun s => is_valid_section s r = true /\ Edges s = 0%nat) acc ->
    face_sections k cyl faces approx r acc = Ok sections ->
    Forall (fun s => is_valid_section s r = true /\ Edges s = 0%nat) sections.
Proof.
  induction faces as [|f faces IH]; intros acc sections Hacc; simpl.
  - now intros [= <-].
  - destruct (k cyl (SingleFace f) approx) as [s|e]; simpl; [|discriminate].
    destruct (is_valid_section s r) eqn:Hv; simpl; [|now apply IH].
    unfold is_empty_section.
    destruct (Nat.eqb (Edges s) 0) eqn:He; simpl; [|now apply IH].
    apply IH. apply Forall_app. split; [exact Hacc|].
    constructor; [|constructor]. split; [exact Hv|]. now apply Nat.eqb_eq.
Qed.

Lemma try_intersect_z_height_bounded k fc faces x y run b z :
  try_intersect_z k fc faces x y run = Ok (b, Some z) ->
  Qabs z <= 1000000.
Proof.
  unfold try_intersect_z.
  destruct (use_compound run).
  - destruct (k _ fc _) as [s|e]; simpl; [|discriminate].
    destruct (is_valid_section s (radius run)) eqn:Hv; simpl; [|discriminate].
    pose proof (valid_section_zmax_bounded s _ Hv) as Hb.
    destruct (_ && _); intros [= <- <-]; exact Hb.
  - destruct (face_sections _ _ _ _ _ _) as [sections|e] eqn:Hfs; simpl;
      [|discriminate].
    pose proof (face_sections_kept _ _ _ _ _ [] sections (Forall_nil _) Hfs)
      as Hkept.
    destruct sections as [|s0 rest]; [discriminate|].
    assert (Hz : Qabs (py_max (ZMax (BoundBox_ s0))
                              (map (fun s => ZMax (BoundBox_ s)) rest))
                 <= 1000000).
    { destruct (py_max_is_max (map (fun s => ZMax (BoundBox_ s)) rest)
                              (ZMax (BoundBox_ s0))) as (Hin & _).
      change (ZMax (BoundBox_ s0) :: map (fun s => ZMax (BoundBox_ s)) rest)
        with (map (fun s => ZMax (BoundBox_ s)) (s0 :: rest)) in Hin.
      apply in_map_iff in Hin. destruct Hin as (s & <- & Hs).
      rewrite Forall_forall in Hkept.
      apply (valid_section_zmax_bounded s (radius run)).
      now apply Hkept. }
    destruct (_ && _); intros [= <- <-]; exact Hz.
Qed.

(** What the loop of [intersect_z] has done when it answers with a height:
    a run of the list validated, and the answer is the greatest of heights
    that were collected before or reported by runs of the list. *)
Lemma intersect_loop_some k fc faces x y todo :
  forall zmaxs m,
    intersect_loop k fc faces x y todo zmaxs = Ok (Some m) ->
    exists run z zs,
      In run todo /\
      try_intersect_z k fc faces x y run = Ok (true, Some z) /\
      is_max m zs /\ In z zs /\
      forall v, In v zs ->
                In v zmaxs \/
                exists run' b', In run' todo /\
                                try_intersect_z k fc faces x y run' = Ok (b', Some v).
Proof.
  induction todo as [|run todo IH]; intros zmaxs m; simpl; [discriminate|].
  destruct (try_intersect_z k fc faces x y run) as [[ok z]|e] eqn:Hrun; simpl;
    [|discriminate].
  destruct ok.
  - destruct (try_intersect_z_success _ _ _ _ _ _ _ Hrun) as (v & ->).
    destruct (max_of (zmaxs ++ [v])) as [m'|e] eqn:Hmax; simpl; [|discriminate].
    intros [= <-].
    exists run, v, (zmaxs ++ [v]).
    split; [now left|]. split; [exact Hrun|].
    split; [now apply max_of_is_max|].
    split; [apply in_or_app; right; now left|].
    intros w Hw. apply in_app_or in Hw. destruct Hw as [Hw|[<-|[]]].
    + now left.
    + right. exists run, true. split; [now left | exact Hrun].
  - intros Hloop. apply IH in Hloop.
    destruct Hloop as (run1 & z1 & zs & Hin & Hrun1 & Hmax & Hz1 & Hfrom).
    exists run1, z1, zs. split; [now right|]. split; [exact Hrun1|].
    split; [exact Hmax|]. split; [exact Hz1|].
    intros w Hw. destruct (Hfrom w Hw) as [Hold | (run' & b' & Hin' & Hrun')].
    + destruct z as [v|].
      * apply in_app_or in Hold. destruct Hold as [Hold|[<-|[]]].
        -- now left.
        -- right. exists run, false. split; [now left | exact Hrun].
      * now left.
    + right. exists run', b'. split; [now right | exact Hrun'].
Qed.

(** X8.  The height that [intersect_z] returns never exceeds the sanity
    magnitude of [is_valid_section]: sections with a bound beyond 1e6 are
    turned away before their height is looked at, in the merged and in the
    per-face runs, for validated heights and for best guesses alike. *)
Theorem intersect_z_height_within_sanity_bound k fc faces tool_radius x y m :
  intersect_z k fc faces tool_radius x y = Ok (Some m) ->
  Qabs m <= 1000000.
Proof.
  intros H. apply intersect_loop_some in H.
  destruct H as (run & z & zs & _ & _ & (Hm & _) & _ & Hfrom).
  destruct (Hfrom m Hm) as [[] | (run' & b' & _ & Hrun')].
  exact (try_intersect_z_height_bounded _ _ _ _ _ _ _ _ Hrun').
Qed.

Lemma intersect_z_height_within_sanity_bound_witness :
  intersect_z flaky_kernel (Compound [0%nat]) [0%nat] 1 0 0 = Ok (Some 10) /\
  Qabs 10 <= 1000000.
Proof.
  assert (H : intersect_z flaky_kernel (Compound [0%nat]) [0%nat] 1 0 0
              = Ok (Some 10)) by (vm_compute; reflexivity).
  split; [exact H|].
  exact (intersect_z_height_within_sanity_bound _ _ _ _ _ _ _ H).
Defined.

(** X9.  [intersect_z] answers with a height only if one of the eight runs
    validated, and its answer is at least the height of that run. *)
Theorem intersect_z_height_needs_validated_run k fc faces tool_radius x y m :
  intersect_z k fc faces tool_radius x y = Ok (Some m) ->
  exists run z,
    In run (runs tool_radius) /\
    try_intersect_z k fc faces x y run = Ok (true, Some z) /\
    z <= m.
Proof.
  intros H. apply intersect_loop_some in H.
  destruct H as (run & z & zs & Hin & Hrun & (_ & Hmax) & Hz & _).
  exists run, z. split; [exact Hin|]. split; [exact Hrun|]. now apply Hmax.
Qed.

Lemma intersect_z_height_needs_validated_run_witness :
  intersect_z flaky_kernel (Compound [0%nat]) [0%nat] 1 0 0 = Ok (Some 10) /\
  exists run z,
    In run (runs 1) /\
    try_intersect_z flaky_kernel (Compound [0%nat]) [0%nat] 0 0 run
    = Ok (true, Some z) /\
    z <= 10.
Proof.
  assert (H : intersect_z flaky_kernel (Compound [0%nat]) [0%nat] 1 0 0
              = Ok (Some 10)) by (vm_compute; reflexivity).
  split; [exact H|].
  exact (intersect_z_height_needs_validated_run _ _ _ _ _ _ _ H).
Defined.

Lemma face_sections_all_cut k cyl approx r faces :
  (forall f, In f faces ->
             exists s, k cyl (SingleFace f) approx = Ok s /\ Edges s <> 0%nat) ->
  forall acc, face_sections k cyl faces approx r acc = Ok acc.
Proof.
  induction faces as [|f faces IH]; intros Hall acc; simpl; [reflexivity|].
  destruct (Hall f (or_introl eq_refl)) as (s & -> & He). simpl.
  assert (Hrest : face_sections k cyl faces approx r acc = Ok acc).
  { apply IH. intros f' Hf'. apply Hall. now right. }
  destruct (is_valid_section s r); simpl; [|exact Hrest].
  unfold is_empty_section.
  apply Nat.eqb_neq in He. rewrite He. simpl. exact Hrest.
Qed.

(** X10.  In a per-face run, a face whose section has edges is passed over:
    [is_empty_section] returns [True] for it and only sections for which it
    returns [False] are kept.  So a per-face run in which the kernel cuts
    every face along an edge fails, and has no best guess. *)
Theorem per_face_run_passes_over_cut_faces k fc faces x y run :
  use_compound run = false ->
  (forall f, In f faces ->
     exists s, k (make_tool run x y) (SingleFace f) (use_approximation run) = Ok s /\
               Edges s <> 0%nat) ->
  try_intersect_z k fc faces x y run = Ok (false, None).
Proof.
  intros Hc Hall. unfold try_intersect_z. rewrite Hc.
  rewrite (face_sections_all_cut _ _ _ (radius run) faces Hall []).
  reflexivity.
Qed.

Lemma per_face_run_passes_over_cut_faces_witness :
  use_compound (nth 5 (runs 2) (default_run 2 1000)) = false /\
  (forall f, In f [0%nat; 1%nat] ->
     exists s,
       cutting_kernel (make_tool (nth 5 (runs 2) (default_run 2 1000)) 0 0)
                      (SingleFace f)
                      (use_approximation (nth 5 (runs 2) (default_run 2 1000)))
       = Ok s /\ Edges s <> 0%nat) /\
  try_intersect_z cutting_kernel (Compound [0%nat; 1%nat]) [0%nat; 1%nat] 0 0
                  (nth 5 (runs 2) (default_run 2 1000)) = Ok (false, None).
Proof.
  assert (H1 : use_compound (nth 5 (runs 2) (default_run 2 1000)) = false)
    by reflexivity.
  assert (H2 : forall f, In f [0%nat; 1%nat] ->
     exists s,
       cutting_kernel (make_tool (nth 5 (runs 2) (default_run 2 1000)) 0 0)
                      (SingleFace f)
                      (use_approximation (nth 5 (runs 2) (default_run 2 1000)))
       = Ok s /\ Edges s <> 0%nat).
  { intros f _. eexists. split; [reflexivity | discriminate]. }
  split; [exact H1|]. split; [exact H2|].
  exact (per_face_run_passes_over_cut_faces cutting_kernel
           (Compound [0%nat; 1%nat]) [0%nat; 1%nat] 0 0 _ H1 H2).
Defined.

End ZFaceSectionMore.

(** * More about the oracle and its cache *)

Module OracleMore.

Import QuadTree QuadTreeSpec ZFaceSection ZFaceSectionSpec ZFace ZFaceSpec.
Import ZFaceMoreSpec QuadTreeFacts.
Open Scope string_scope.
Open Scope list_scope.
Open Scope Q_scope.

Lemma within_true d2 tol :
  within d2 tol = true <-> 0 <= tol /\ d2 <= tol * tol.
Proof.
  unfold within. rewrite andb_true_iff, !Qleb_le. tauto.
Qed.

Lemma get_surface_z_hit k fuel cfg x y o qt p d2 :
  runtime_quadtree o = Some qt ->
  QuadTree_nearest qt x y = Some (p, d2) ->
  within d2 (CacheGrid cfg) = true ->
  get_surface_z k fuel cfg x y o = (o, Ok (Some (snd p))).
Proof.
  intros Hqt Hn Hw. unfold get_surface_z. rewrite Hqt, Hn.
  destruct p as [[px py] pz]. now rewrite Hw.
Qed.

(** X11.  A cache hit.  When the runtime index is well-formed and stores a
    sample within the tolerance [CacheGrid] of the query point,
    [get_surface_z] returns the height of a stored sample nearest to the
    query point, itself within the tolerance; it does so whatever the
    geometry kernel would answer, and leaves the object as it was. *)
Theorem get_surface_z_answers_from_cache fuel cfg x y o qt s :
  runtime_quadtree o = Some qt ->
  node_inv qt ->
  In s (tree_points qt) ->
  0 <= CacheGrid cfg ->
  dist_sq s x y <= CacheGrid cfg * CacheGrid cfg ->
  exists p,
    In p (tree_points qt) /\
    dist_sq p x y <= CacheGrid cfg * CacheGrid cfg /\
    (forall q, In q (tree_points qt) -> dist_sq p x y <= dist_sq q x y) /\
    forall k, get_surface_z k fuel cfg x y o = (o, Ok (Some (snd p))).
Proof.
  intros Hqt Hinv Hs Htol Hd.
  pose proof (QuadTreeMore.nearest_is_best qt x y Hinv) as Hbest.
  destruct (nearest qt x y None) as [[d2 p]|] eqn:Hn; simpl in Hbest;
    [|elim (Hbest _ Hs)].
  destruct Hbest as (Hp & Hd2 & Hmin).
  exists p. split; [exact Hp|].
  assert (Hle : d2 <= CacheGrid cfg * CacheGrid cfg).
  { eapply Qle_trans; [apply (Hmin _ Hs) | exact Hd]. }
  split; [now rewrite <- Hd2|].
  split; [intros q Hq; rewrite <- Hd2; now apply Hmin|].
  intros k. apply (get_surface_z_hit k fuel cfg x y o qt p d2 Hqt).
  - unfold QuadTree_nearest. now rewrite Hn.
  - apply within_true. split; assumption.
Qed.

Lemma warm_index_inv :
  node_inv (fst (QuadTree_insert 5 (QuadTree_init 0 10 0 10 8) 1 1 5)).
Proof.
  destruct (insert_spec 5 1 1 5 (QuadTree_init 0 10 0 10 8) _ (Ok true) eq_refl)
    as (_ & Hacc & _).
  destruct (Hacc eq_refl) as (_ & _ & Hinv).
  apply Hinv, empty_root_inv.
Qed.

Lemma get_surface_z_answers_from_cache_witness :
  runtime_quadtree warm_obj
  = Some (fst (QuadTree_insert 5 (QuadTree_init 0 10 0 10 8) 1 1 5)) /\
  0 <= CacheGrid demo_setup /\
  dist_sq (1, 1, 5) 2 3 <= CacheGrid demo_setup * CacheGrid demo_setup /\
  exists p,
    In p (tree_points (fst (QuadTree_insert 5 (QuadTree_init 0 10 0 10 8) 1 1 5))) /\
    dist_sq p 2 3 <= CacheGrid demo_setup * CacheGrid demo_setup /\
    (forall q,
        In q (tree_points (fst (QuadTree_insert 5 (QuadTree_init 0 10 0 10 8) 1 1 5))) ->
        dist_sq p 2 3 <= dist_sq q 2 3) /\
    forall k, get_surface_z k 10 demo_setup 2 3 warm_obj
              = (warm_obj, Ok (Some (snd p))).
Proof.
  assert (H1 : runtime_quadtree warm_obj
               = Some (fst (QuadTree_insert 5 (QuadTree_init 0 10 0 10 8) 1 1 5)))
    by reflexivity.
  assert (H2 : 0 <= CacheGrid demo_setup) by discriminate.
  assert (H3 : dist_sq (1, 1, 5) 2 3
               <= CacheGrid demo_setup * CacheGrid demo_setup) by discriminate.
  split; [exact H1|]. split; [exact H2|]. split; [exact H3|].
  apply (get_surface_z_answers_from_cache 10 demo_setup 2 3 warm_obj _ (1, 1, 5)
           H1 warm_index_inv).
  - now left.
  - exact H2.
  - exact H3.
Defined.

Lemma get_surface_z_miss k fuel cfg x y o qt :
  runtime_quadtree o = Some qt ->
  cache_miss qt (CacheGrid cfg) x y ->
  get_surface_z k fuel cfg x y o =
  match intersect_z k (Compound (collected_faces cfg)) (collected_faces cfg)
                    (ToolDiameter cfg / 2) x y with
  | Raise e => (o, Raise e)
  | Ok None => (o, Ok None)
  | Ok (Some z_val) =>
      (try_except (_insert_cache_point fuel x y z_val)
                  (persist_point x y z_val) ;;;
       ret (Some z_val)) o
  end.
Proof.
  intros Hqt Hmiss. unfold get_surface_z. rewrite Hqt.
  unfold cache_miss in Hmiss.
  destruct (QuadTree_nearest qt x y) as [[[[px py] pz] d2]|]; [|reflexivity].
  now rewrite Hmiss.
Qed.

(** X12.  Compute once, then answer from the cache.  After a query that
    missed the cache, got a height from [intersect_z] and inserted it into
    the runtime index, the object holds the sample at the end of its
    persistent cache and in its index; and the same query on that object
    returns the same height and changes nothing, whatever the kernel would
    answer then. *)
Theorem get_surface_z_second_query_hits
        k fuel cfg x y o qt d z qt' :
  PointCache o = Dict d ->
  runtime_quadtree o = Some qt ->
  node_inv qt ->
  0 <= CacheGrid cfg ->
  cache_miss qt (CacheGrid cfg) x y ->
  intersect_z k (Compound (collected_faces cfg)) (collected_faces cfg)
              (ToolDiameter cfg / 2) x y = Ok (Some z) ->
  QuadTree_insert fuel qt x y z = (qt', Ok true) ->
  let o1 := set_runtime_quadtree
              (set_PointCache o (Dict (Some (cache_points o ++ [(x, y, z)]))))
              (Some qt') in
  get_surface_z k fuel cfg x y o = (o1, Ok (Some z)) /\
  forall k' fuel', get_surface_z k' fuel' cfg x y o1 = (o1, Ok (Some z)).
Proof.
  intros Hpc Hqt Hinv Htol Hmiss Hz Hins o1.
  assert (Hfirst : get_surface_z k fuel cfg x y o = (o1, Ok (Some z))).
  { rewrite (get_surface_z_miss k fuel cfg x y o qt Hqt Hmiss), Hz.
    unfold mbind, try_except, _insert_cache_point, ret.
    rewrite Hpc. cbn [set_PointCache runtime_quadtree]. rewrite Hqt, Hins.
    unfold o1, cache_points. rewrite Hpc. now destruct d. }
  split; [exact Hfirst|].
  intros k' fuel'.
  unfold QuadTree_insert in Hins.
  destruct (insert_spec fuel x y z qt qt' (Ok true) Hins) as (_ & Hacc & _).
  destruct (Hacc eq_refl) as (_ & Hperm & Hinv').
  pose proof (QuadTreeMore.nearest_is_best qt' x y (Hinv' Hinv)) as Hb'.
  assert (Hnew : In (x, y, z) (tree_points qt')).
  { eapply Permutation_in; [symmetry; exact Hperm | now left]. }
  destruct (nearest qt' x y None) as [[d2 p]|] eqn:Hn'; simpl in Hb';
    [|elim (Hb' _ Hnew)].
  destruct Hb' as (Hp & Hd2 & Hmin).
  assert (Hzero : d2 <= 0).
  { eapply Qle_trans; [apply (Hmin _ Hnew)|]. unfold dist_sq.
    assert (Hr : (x - x) * (x - x) + (y - y) * (y - y) == 0) by ring.
    rewrite Hr. apply Qle_refl. }
  assert (Hsq : 0 <= CacheGrid cfg * CacheGrid cfg).
  { generalize (CacheGrid cfg) Htol. intros t Ht. nra. }
  assert (Hpeq : p = (x, y, z)).
  { apply (Permutation_in _ Hperm) in Hp. destruct Hp as [<-|Hold]; [reflexivity|].
    exfalso.
    pose proof (QuadTreeMore.nearest_is_best qt x y Hinv) as Hb.
    unfold cache_miss, QuadTree_nearest in Hmiss.
    destruct (nearest qt x y None) as [[d0 p0]|]; simpl in Hb;
      [|elim (Hb _ Hold)].
    destruct Hb as (_ & _ & Hmin0).
    assert (Hw : within d0 (CacheGrid cfg) = true).
    { apply within_true. split; [exact Htol|].
      eapply Qle_trans; [apply (Hmin0 _ Hold)|].
      rewrite <- Hd2. lra. }
    congruence. }
  assert (Hhit : get_surface_z k' fuel' cfg x y o1 = (o1, Ok (Some (snd p)))).
  { apply (get_surface_z_hit k' fuel' cfg x y o1 qt' p d2).
    - reflexivity.
    - unfold QuadTree_nearest. now rewrite Hn'.
    - apply within_true. split; [exact Htol | lra]. }
  rewrite Hhit, Hpeq. reflexivity.
Qed.

Lemma get_surface_z_second_query_hits_witness :
  PointCache demo_obj = Dict None /\
  cache_miss (QuadTree_init 0 10 0 10 8) (CacheGrid demo_setup) 3 4 /\
  intersect_z flat_kernel (Compound (collected_faces demo_setup))
              (collected_faces demo_setup) (ToolDiameter demo_setup / 2) 3 4
  = Ok (Some 5) /\
  forall k' fuel',
    get_surface_z k' fuel' demo_setup 3 4
      (fst (get_surface_z flat_kernel 10 demo_setup 3 4 demo_obj))
    = (fst (get_surface_z flat_kernel 10 demo_setup 3 4 demo_obj), Ok (Some 5)).
Proof.
  assert (H1 : PointCache demo_obj = Dict None) by reflexivity.
  assert (H2 : cache_miss (QuadTree_init 0 10 0 10 8) (CacheGrid demo_setup) 3 4)
    by exact I.
  assert (H3 : intersect_z flat_kernel (Compound (collected_faces demo_setup))
                 (collected_faces demo_setup) (ToolDiameter demo_setup / 2) 3 4
               = Ok (Some 5)) by (vm_compute; reflexivity).
  split; [exact H1|]. split; [exact H2|]. split; [exact H3|].
  destruct (get_surface_z_second_query_hits
              flat_kernel 10 demo_setup 3 4 demo_obj
              (QuadTree_init 0 10 0 10 8) None 5
              (fst (QuadTree_insert 10 (QuadTree_init 0 10 0 10 8) 3 4 5))
              H1 eq_refl (empty_root_inv 0 10 0 10 8)) as (Hfirst & Hsecond).
  - discriminate.
  - exact H2.
  - exact H3.
  - reflexivity.
  - rewrite Hfirst. exact Hsecond.
Defined.

(** X13.  When the runtime index turns the computed sample away (the
    query missed the cache and its position lies outside the region of the
    root), the query still returns the height and the index stays as it
    was; the sample has by then been appended to the persistent cache by
    [_insert_cache_point], and the handler appends it once more. *)
Theorem get_surface_z_persists_rejected_sample k fuel cfg x y o qt pts z :
  PointCache o = Dict (Some pts) ->
  runtime_quadtree o = Some qt ->
  cache_miss qt (CacheGrid cfg) x y ->
  contains qt x y = false ->
  intersect_z k (Compound (collected_faces cfg)) (collected_faces cfg)
              (ToolDiameter cfg / 2) x y = Ok (Some z) ->
  get_surface_z k (S fuel) cfg x y o =
  (set_runtime_quadtree
     (set_PointCache o (Dict (Some ((pts ++ [(x, y, z)]) ++ [(x, y, z)]))))
     (Some qt),
   Ok (Some z)).
Proof.
  intros Hpc Hqt Hmiss Hout Hz.
  rewrite (get_surface_z_miss k (S fuel) cfg x y o qt Hqt Hmiss), Hz.
  unfold mbind, try_except, _insert_cache_point, persist_point, ret.
  rewrite Hpc. cbn [set_PointCache runtime_quadtree]. rewrite Hqt.
  unfold QuadTree_insert.
  rewrite (QuadTreeMore.insert_outside fuel qt x y z Hout).
  reflexivity.
Qed.

Lemma get_surface_z_persists_rejected_sample_witness :
  get_surface_z flat_kernel 5 demo_setup 20 20 warm_obj =
  (set_runtime_quadtree
     (set_PointCache warm_obj
        (Dict (Some (([(1, 1, 5)] ++ [(20, 20, 5)]) ++ [(20, 20, 5)]))))
     (runtime_quadtree warm_obj),
   Ok (Some 5)).
Proof.
  apply (get_surface_z_persists_rejected_sample
           flat_kernel 4 demo_setup 20 20 warm_obj
           (fst (QuadTree_insert 5 (QuadTree_init 0 10 0 10 8) 1 1 5))
           [(1, 1, 5)] 5).
  - reflexivity.
  - reflexivity.
  - vm_compute. reflexivity.
  - vm_compute. reflexivity.
  - vm_compute. reflexivity.
Defined.

Lemma rebuild_quadtree_cases fuel bounds o :
  (cache_points o = [] /\
   exists x0 x1 y0 y1,
     _rebuild_quadtree fuel bounds o =
     (set_runtime_quadtree o (Some (QuadTree_init x0 x1 y0 y1 8)), Ok tt)) \/
  (exists p rest, cache_points o = p :: rest /\
     _rebuild_quadtree fuel bounds o =
     match from_point_list fuel (p :: rest) 0 8 with
     | Ok qt => (set_runtime_quadtree o qt, Ok tt)
     | Raise e => (o, Raise e)
     end).
Proof.
  unfold _rebuild_quadtree, cache_points.
  destruct (PointCache o) as [|[[|p rest]|]].
  - left. split; [reflexivity|].
    destruct bounds as [[[[x0 x1] y0] y1]|]; repeat eexists.
  - left. split; [reflexivity|].
    destruct bounds as [[[[x0 x1] y0] y1]|]; repeat eexists.
  - right. exists p, rest. split; reflexivity.
  - left. split; [reflexivity|].
    destruct bounds as [[[[x0 x1] y0] y1]|]; repeat eexists.
Qed.

Lemma rebuild_quadtree_ok fuel bounds o o' :
  _rebuild_quadtree fuel bounds o = (o', Ok tt) ->
  exists qt,
    o' = set_runtime_quadtree o (Some qt) /\
    node_inv qt /\
    Permutation (tree_points qt) (cache_points o).
Proof.
  intros Hrun.
  destruct (rebuild_quadtree_cases fuel bounds o)
    as [(Hnil & x0 & x1 & y0 & y1 & Heq) | (p & rest & Hpts & Heq)];
    rewrite Heq in Hrun.
  - injection Hrun as <-. exists (QuadTree_init x0 x1 y0 y1 8).
    split; [reflexivity|]. split; [apply empty_root_inv|].
    rewrite Hnil. reflexivity.
  - destruct (QuadTreeMore.from_point_list_root fuel p rest 0 8)
      as (root & Hfrom & Hinv & Hempty & Hall).
    rewrite Hfrom in Hrun.
    destruct (insert_each fuel root (p :: rest)) as [qt|e] eqn:Hins;
      simpl in Hrun; [|discriminate].
    injection Hrun as <-. exists qt. split; [reflexivity|].
    destruct (QuadTreeMore.insert_each_stores_all
                fuel (p :: rest) root qt Hinv Hall Hins) as (Hq & Hperm).
    split; [exact Hq|]. rewrite Hpts.
    now rewrite Hempty, app_nil_r in Hperm.
Qed.

(** X14.  [_rebuild_quadtree] rebuilds the runtime index from the
    persistent cache and writes nothing else: when it returns, the index is
    well-formed and stores exactly the samples of [PointCache], an empty
    tree when there are none; when [from_point_list] raises, the object is
    as it was. *)
Theorem rebuild_quadtree_indexes_the_cache fuel bounds o :
  match _rebuild_quadtree fuel bounds o with
  | (o', Ok _) =>
      exists qt,
        o' = set_runtime_quadtree o (Some qt) /\
        node_inv qt /\
        Permutation (tree_points qt) (cache_points o)
  | (o', Raise _) => o' = o /\ cache_points o <> []
  end.
Proof.
  destruct (_rebuild_quadtree fuel bounds o) as [o' [[]|e]] eqn:Hrun.
  - exact (rebuild_quadtree_ok fuel bounds o o' Hrun).
  - destruct (rebuild_quadtree_cases fuel bounds o)
      as [(_ & x0 & x1 & y0 & y1 & Heq) | (p & rest & Hpts & Heq)];
      rewrite Heq in Hrun; [discriminate|].
    split; [|rewrite Hpts; discriminate].
    destruct (from_point_list fuel (p :: rest) 0 8); [discriminate|].
    now injection Hrun as <- _.
Qed.

(** X15.  The persistent cache answers after a reload.  Once
    [_rebuild_quadtree] has rebuilt the index of an object, a query at the
    position of any sample of its [PointCache] is a cache hit: it returns
    the height of a cached sample at that very position, without calling
    the kernel and without changing the object. *)
Theorem rebuilt_index_answers_cached_positions
        fuel bounds cfg o o' x y z :
  _rebuild_quadtree fuel bounds o = (o', Ok tt) ->
  0 <= CacheGrid cfg ->
  In (x, y, z) (cache_points o) ->
  exists p,
    In p (cache_points o) /\
    dist_sq p x y == 0 /\
    forall k fuel', get_surface_z k fuel' cfg x y o' = (o', Ok (Some (snd p))).
Proof.
  intros Hrun Htol Hin.
  destruct (rebuild_quadtree_ok fuel bounds o o' Hrun)
    as (qt & -> & Hinv & Hperm).
  assert (Hs : In (x, y, z) (tree_points qt)).
  { eapply Permutation_in; [symmetry; exact Hperm | exact Hin]. }
  pose proof (QuadTreeMore.nearest_is_best qt x y Hinv) as Hbest.
  destruct (nearest qt x y None) as [[d2 p]|] eqn:Hn; simpl in Hbest;
    [|elim (Hbest _ Hs)].
  destruct Hbest as (Hp & Hd2 & Hmin).
  assert (Hself : dist_sq (x, y, z) x y == 0) by (unfold dist_sq; ring).
  assert (Hnonneg : 0 <= dist_sq p x y).
  { destruct p as [[px py] pz]. unfold dist_sq.
    generalize (px - x) (py - y). intros a b.
    assert (Ha : 0 <= a * a) by nra.
    assert (Hb : 0 <= b * b) by nra.
    lra. }
  assert (Hzero : dist_sq p x y == 0).
  { apply Qle_antisym; [|exact Hnonneg].
    rewrite <- Hd2, <- Hself. apply (Hmin _ Hs). }
  exists p. split; [eapply Permutation_in; [exact Hperm | exact Hp]|].
  split; [exact Hzero|].
  intros k fuel'.
  apply (get_surface_z_hit k fuel' cfg x y _ qt p d2).
  - reflexivity.
  - unfold QuadTree_nearest. now rewrite Hn.
  - apply within_true. split; [exact Htol|].
    rewrite Hd2, Hzero. generalize (CacheGrid cfg) Htol. intros t Ht. nra.
Qed.

Lemma rebuilt_index_answers_cached_positions_witness :
  exists p,
    In p (cache_points used_obj) /\
    dist_sq p 1 1 == 0 /\
    forall k fuel',
      get_surface_z k fuel' demo_setup 1 1
        (fst (_rebuild_quadtree 5 None used_obj))
      = (fst (_rebuild_quadtree 5 None used_obj), Ok (Some (snd p))).
Proof.
  apply (rebuilt_index_answers_cached_positions
           5 None demo_setup used_obj
           (fst (_rebuild_quadtree 5 None used_obj)) 1 1 5).
  - vm_compute. reflexivity.
  - discriminate.
  - simpl. now left.
Defined.

(** ** The cache only grows *)

Lemma cache_grown_refl o : cache_grown o o.
Proof.
  unfold cache_grown. repeat split; try reflexivity; try tauto.
  exists []. now rewrite app_nil_r.
Qed.

Lemma cache_grown_trans o1 o2 o3 :
  cache_grown o1 o2 -> cache_grown o2 o3 -> cache_grown o1 o3.
Proof.
  intros ((a1 & H1) & Hd1 & Hh1 & Hb1 & Hp1 & Hc1)
         ((a2 & H2) & Hd2 & Hh2 & Hb2 & Hp2 & Hc2).
  unfold cache_grown. repeat split; try congruence; try tauto.
  exists (a1 ++ a2). now rewrite H2, H1, app_assoc.
Qed.

Lemma cache_grown_index o qt : cache_grown o (set_runtime_quadtree o qt).
Proof.
  unfold cache_grown, cache_points, is_dict. cbn.
  repeat split; try reflexivity; try tauto.
  exists []. now rewrite app_nil_r.
Qed.

Lemma cache_grown_append o p :
  cache_grown o (set_PointCache o (Dict (Some (cache_points o ++ [p])))).
Proof.
  unfold cache_grown, cache_points, is_dict. cbn.
  repeat split; try reflexivity; eauto.
Qed.

Lemma grows_ret {A} (a : A) : grows (ret a).
Proof. intros o. apply cache_grown_refl. Qed.

Lemma grows_bind {A B} (m : M A) (f : A -> M B) :
  grows m -> (forall a, grows (f a)) -> grows (mbind m f).
Proof.
  intros Hm Hf o. unfold mbind. specialize (Hm o).
  destruct (m o) as [o1 [a|e]]; cbn [fst] in Hm; [|exact Hm].
  eapply cache_grown_trans; [exact Hm | apply Hf].
Qed.

Lemma grows_try {A} (m h : M A) : grows m -> grows h -> grows (try_except m h).
Proof.
  intros Hm Hh o. unfold try_except. specialize (Hm o).
  destruct (m o) as [o1 [a|e]]; cbn [fst] in Hm; [exact Hm|].
  eapply cache_grown_trans; [exact Hm | apply Hh].
Qed.

Lemma insert_cache_point_grows fuel x y z : grows (_insert_cache_point fuel x y z).
Proof.
  intros o. unfold _insert_cache_point.
  destruct (PointCache o) as [|d] eqn:Hpc; [apply cache_grown_refl|].
  assert (Happ : cache_grown o (set_PointCache o (Dict (Some
                   (match d with Some l => l | None => [] end ++ [(x, y, z)]))))).
  { generalize (cache_grown_append o (x, y, z)). unfold cache_points.
    rewrite Hpc. now destruct d. }
  cbn [set_PointCache runtime_quadtree].
  destruct (runtime_quadtree o) as [qt|]; [|exact Happ].
  destruct (QuadTree_insert fuel qt x y z) as [qt' r].
  eapply cache_grown_trans; [exact Happ|].
  assert (Hidx : forall o1, cache_grown o1 (set_runtime_quadtree o1 (Some qt')))
    by (intro; apply cache_grown_index).
  destruct r as [[|]|e]; apply Hidx.
Qed.

Lemma persist_point_grows x y z : grows (persist_point x y z).
Proof.
  intros o. unfold persist_point. cbn [fst]. apply cache_grown_append.
Qed.

Lemma get_surface_z_grows k fuel cfg x y : grows (get_surface_z k fuel cfg x y).
Proof.
  intros o. unfold get_surface_z.
  destruct (runtime_quadtree o) as [qt|]; [|apply cache_grown_refl].
  destruct (match QuadTree_nearest qt x y with
            | Some (_, _, pz, d2) =>
                if within d2 (CacheGrid cfg) then Some pz else None
            | None => None
            end); [apply cache_grown_refl|].
  destruct (intersect_z k (Compound (collected_faces cfg)) (collected_faces cfg)
                        (ToolDiameter cfg / 2) x y) as [[z|]|e];
    try apply cache_grown_refl.
  apply grows_bind; [|intros; apply grows_ret].
  apply grows_try; [apply insert_cache_point_grows | apply persist_point_grows].
Qed.

Lemma project_point_grows k fuel cfg sk zmin pt :
  grows (project_point k fuel cfg sk zmin pt).
Proof.
  unfold project_point. apply grows_bind; [|intros; apply grows_ret].
  destruct sk; try apply grows_ret. apply get_surface_z_grows.
Qed.

Lemma project_points_grows k fuel cfg sk zmin pts :
  grows (project_points k fuel cfg sk zmin pts).
Proof.
  induction pts as [|pt pts IH]; cbn [project_points]; [apply grows_ret|].
  apply grows_bind; [apply project_point_grows|]. intros c.
  apply grows_bind; [exact IH|]. intros cs. apply grows_ret.
Qed.

Lemma project_segment_grows k fuel cfg zmin seg :
  grows (project_segment k fuel cfg zmin seg).
Proof.
  unfold project_segment.
  destruct (kind seg); try apply grows_ret;
    (destruct (pointlist seg) as [|pt pts]; [apply grows_ret|];
     apply project_points_grows).
Qed.

(** X16.  Projection is append-only on the cache.  Whatever the kernel
    answers or raises, and however far the loop over the segments gets,
    the object it leaves keeps every sample of the persistent cache, in the
    same order, in front of the ones it added; it keeps a dictionary a
    dictionary, and it does not touch the state hash, the invalidation
    flag, the output path or the command list. *)
Theorem project_segments_only_appends_to_cache k fuel cfg zmin segs o :
  let o' := fst (project_segments k fuel cfg zmin segs o) in
  (exists added, cache_points o' = cache_points o ++ added) /\
  (is_dict o -> is_dict o') /\
  CacheStateHash o' = CacheStateHash o /\
  BlockCacheInvalidation o' = BlockCacheInvalidation o /\
  Path o' = Path o /\
  commandlist o' = commandlist o.
Proof.
  change (cache_grown o (fst (project_segments k fuel cfg zmin segs o))).
  revert o. change (grows (project_segments k fuel cfg zmin segs)).
  induction segs as [|seg segs IH]; cbn [project_segments]; [apply grows_ret|].
  apply grows_bind; [apply project_segment_grows|]. intros cs.
  apply grows_bind; [exact IH|]. intros rest. apply grows_ret.
Qed.

End OracleMore.

(** * More about discretisation and projection *)

Module PathMore.

Import QuadTree QuadTreeSpec ZFaceSection ZFaceSectionSpec ZFace ZFaceSpec.
Import ZFaceMoreSpec ZFaceFacts.
Open Scope string_scope.
Open Scope list_scope.
Open Scope Q_scope.

Lemma segments_of_cases g c loc sD cD :
  (is_motion c = false /\
   segments_of g c loc sD cD = [mkSegment OTHER c []]) \/
  (is_motion c = true /\ segments_of g c loc sD cD = []) \/
  (is_motion c = true /\
   exists pts, segments_of g c loc sD cD = [mkSegment (classify c loc) c pts] /\
               classify c loc <> OTHER).
Proof.
  unfold segments_of.
  destruct (is_motion c) eqn:Hm.
  - right. destruct (edgeForCmd g c loc) as [edge|]; [right | left; auto].
    split; [reflexivity|]. eexists. split; [reflexivity|].
    intros H. apply classify_other in H. congruence.
  - left. split; [reflexivity|].
    assert (H : classify c loc = OTHER) by (apply classify_other; exact Hm).
    now rewrite H.
Qed.

Lemma subseq_refl {A} (l : list A) : subseq l l.
Proof. induction l; constructor; assumption. Qed.

Lemma discretize_commands_structure g cmds loc sD cD :
  filter non_motion (map command (discretize_loop g cmds loc sD cD))
  = filter non_motion cmds /\
  Forall (fun seg =>
            (kind seg = OTHER <-> is_motion (command seg) = false) /\
            (kind seg = OTHER -> pointlist seg = []))
         (discretize_loop g cmds loc sD cD).
Proof.
  revert loc. induction cmds as [|c cmds IH]; intros loc;
    cbn [discretize_loop].
  - split; [reflexivity | constructor].
  - destruct (IH (update_location c loc)) as (Hfil & Hall).
    rewrite map_app, filter_app. cbn [filter]. unfold non_motion at 3.
    destruct (segments_of_cases g c loc sD cD)
      as [(Hm & ->) | [(Hm & ->) | (Hm & pts & -> & Hk)]];
      rewrite Hm; cbn [map filter app command negb].
    + unfold non_motion at 1. rewrite Hm. cbn [negb].
      split; [now rewrite Hfil|].
      constructor; [|exact Hall]. cbn. tauto.
    + split; [exact Hfil|exact Hall].
    + unfold non_motion at 1. rewrite Hm. cbn [negb].
      split; [exact Hfil|].
      constructor; [|exact Hall]. cbn. rewrite Hm.
      split; [split; [contradiction | discriminate] | contradiction].
Qed.

(** X17.  [discretize_commands] goes through the program in order and
    leaves out nothing but motions for which the host builds no edge.  Its
    segments are, in order, one for every command that is not a motion and
    one for every motion with an edge, each with its command, the tag the
    command has at the location tracked before it, and the points sampled
    on its edge.  So the commands of the segments are a subsequence of the
    program, the commands that are not motions are all there, in their
    order and once each; a segment is tagged [OTHER] exactly when its
    command is not a motion, and then it has no points. *)
Theorem discretize_commands_keeps_program_order g cmds start sh ch sD cD :
  let segs := discretize_commands g cmds start sh ch sD cD in
  Forall2 (segment_of g sD cD)
          (filter (has_segment g)
                  (located cmds (mkVector (vx start) (vy start) (vz start))))
          segs /\
  subseq (map command segs) cmds /\
  filter non_motion (map command segs) = filter non_motion cmds /\
  Forall (fun seg =>
            (kind seg = OTHER <-> is_motion (command seg) = false) /\
            (kind seg = OTHER -> pointlist seg = [])) segs.
Proof.
  unfold discretize_commands.
  generalize (mkVector (vx start) (vy start) (vz start)) as loc.
  induction cmds as [|c cmds IH]; intros loc;
    cbn [discretize_loop located filter].
  - repeat split; constructor.
  - destruct (IH (update_location c loc)) as (Hexact & Hsub & Hfil & Hall).
    assert (Hhead :
              Forall2 (segment_of g sD cD)
                      (if has_segment g (c, loc) then [(c, loc)] else [])
                      (segments_of g c loc sD cD)).
    { unfold has_segment, non_motion, segments_of, segment_of. cbn [fst snd].
      destruct (is_motion c) eqn:Hm; cbn [negb orb].
      - destruct (edgeForCmd g c loc) as [edge|] eqn:He; [|constructor].
        constructor; [|constructor]. cbn. rewrite Hm, He. auto.
      - constructor; [|constructor]. cbn. rewrite Hm. auto. }
    split.
    { destruct (has_segment g (c, loc));
        (eapply (Forall2_app Hhead) in Hexact; exact Hexact). }
    rewrite map_app, filter_app. cbn [filter]. unfold non_motion at 3.
    destruct (segments_of_cases g c loc sD cD)
      as [(Hm & ->) | [(Hm & ->) | (Hm & pts & -> & Hk)]];
      rewrite Hm; cbn [map filter app command negb].
    + unfold non_motion at 1. rewrite Hm. cbn [negb].
      split; [now constructor|]. split; [now rewrite Hfil|].
      constructor; [|exact Hall]. cbn. tauto.
    + split; [now constructor|]. split; [exact Hfil|exact Hall].
    + unfold non_motion at 1. rewrite Hm. cbn [negb].
      split; [now constructor|]. split; [exact Hfil|].
      constructor; [|exact Hall]. cbn. rewrite Hm.
      split; [split; [contradiction | discriminate] | contradiction].
Qed.

(** ** Segments that do not reach the oracle *)

Lemma project_point_off_plane cfg sk zmin pt :
  sk <> IS_ON_PLANE ->
  exists c, Name c = MoveStraight /\
            forall (k : Kernel) fuel o,
              project_point k fuel cfg sk zmin pt o = (o, Ok c).
Proof.
  intros Hk. unfold project_point, mbind, ret.
  destruct sk; [contradiction| |]; eexists; split; try reflexivity;
    intros; reflexivity.
Qed.

Lemma project_points_off_plane cfg sk zmin pts :
  sk <> IS_ON_PLANE ->
  exists cs,
    List.length cs = List.length pts /\
    Forall (fun c => Name c = MoveStraight) cs /\
    forall (k : Kernel) fuel o,
      project_points k fuel cfg sk zmin pts o = (o, Ok cs).
Proof.
  intros Hk. induction pts as [|pt pts (cs & Hlen & Hall & IH)].
  - exists []. split; [reflexivity|]. split; [constructor|].
    intros. reflexivity.
  - destruct (project_point_off_plane cfg sk zmin pt Hk)
      as (c & Hc & Hpt).
    exists (c :: cs). split; [simpl; now rewrite Hlen|].
    split; [now constructor|].
    intros k fuel o. cbn [project_points]. unfold mbind.
    rewrite Hpt, IH. reflexivity.
Qed.

(** X18.  A segment that is not on the reference plane, or that has no
    sampled point, is projected without the surface oracle: the commands it
    contributes are the same for every kernel and every state of the cache,
    the projection of the segment raises nothing and leaves the object as
    it was; it contributes as many commands as the progress count gives it
    steps, when its tag [OTHER] comes with no points. *)
Theorem off_plane_segment_needs_no_oracle cfg zmin seg :
  off_oracle seg ->
  exists cs,
    (forall (k : Kernel) fuel o,
        project_segment k fuel cfg zmin seg o = (o, Ok cs)) /\
    ((kind seg = OTHER -> pointlist seg = []) ->
     List.length cs = steps seg).
Proof.
  intros Hoff. unfold project_segment, steps.
  destruct (pointlist seg) as [|pt pts] eqn:Hpts.
  - exists [command seg]. split; [|reflexivity].
    intros k fuel o. destruct (kind seg); reflexivity.
  - destruct Hoff as [Hk|Hk]; [|congruence].
    destruct (kind seg) eqn:Hkind; [contradiction| |].
    + destruct (project_points_off_plane cfg IS_HIGH zmin (pt :: pts))
        as (cs & Hlen & _ & Hrun); [discriminate|].
      exists cs. split; [exact Hrun|]. intros _. exact Hlen.
    + exists [command seg]. split; [reflexivity|].
      intros H. specialize (H eq_refl). discriminate.
Qed.

Lemma off_plane_segment_needs_no_oracle_witness :
  exists cs,
    (forall (k : Kernel) fuel o,
        project_segment k fuel demo_setup 0 high_segment o = (o, Ok cs)) /\
    ((kind high_segment = OTHER -> pointlist high_segment = []) ->
     List.length cs = steps high_segment).
Proof.
  apply (off_plane_segment_needs_no_oracle demo_setup 0 high_segment).
  left. discriminate.
Defined.

(** ** What the projection emits *)

Lemma project_points_shape k fuel cfg sk zmin pts :
  forall o o' cs,
    project_points k fuel cfg sk zmin pts o = (o', Ok cs) ->
    List.length cs = List.length pts /\
    Forall (fun c => is_motion c = true) cs.
Proof.
  induction pts as [|pt pts IH]; intros o o' cs; cbn [project_points].
  - unfold ret. intros [= _ <-]. split; [reflexivity | constructor].
  - intros H. apply mbind_ok in H. destruct H as (o1 & c & Hc & H).
    apply mbind_ok in H. destruct H as (o2 & cs' & Hcs & H).
    unfold ret in H. injection H as _ <-.
    destruct (IH _ _ _ Hcs) as (Hlen & Hall).
    destruct (project_point_z _ _ _ _ _ _ _ _ _ Hc) as (r & fz & -> & _).
    split; [simpl; now rewrite Hlen|]. constructor; [reflexivity | exact Hall].
Qed.

Lemma project_segment_shape k fuel cfg zmin seg o o' cs :
  (kind seg = OTHER <-> is_motion (command seg) = false) ->
  (kind seg = OTHER -> pointlist seg = []) ->
  project_segment k fuel cfg zmin seg o = (o', Ok cs) ->
  List.length cs = steps seg /\
  filter non_motion cs = filter non_motion [command seg].
Proof.
  intros Hkind Hother. unfold project_segment, steps.
  assert (Hone : forall u : Obj * Exc (list Command),
             u = (o, Ok [command seg]) -> u = (o', Ok cs) ->
             1%nat = 1%nat /\ cs = [command seg]).
  { intros u -> [= _ <-]. split; reflexivity. }
  assert (Hpts : forall sk pt pts,
             kind seg = sk -> sk <> OTHER ->
             project_points k fuel cfg sk zmin (pt :: pts) o = (o', Ok cs) ->
             List.length cs = List.length (pt :: pts) /\
             filter non_motion cs = filter non_motion [command seg]).
  { intros sk pt pts Hsk Hno Hrun.
    destruct (project_points_shape _ _ _ _ _ _ _ _ _ Hrun) as (Hlen & Hall).
    split; [exact Hlen|].
    assert (Hm : is_motion (command seg) = true).
    { destruct (is_motion (command seg)) eqn:E; [reflexivity|].
      exfalso. apply Hno. rewrite <- Hsk. now apply Hkind. }
    cbn [filter]. unfold non_motion at 2. rewrite Hm. cbn [negb].
    clear - Hall. induction Hall as [|c l Hc _ IH]; [reflexivity|].
    cbn [filter]. unfold non_motion at 1. now rewrite Hc. }
  destruct (kind seg) eqn:Hk.
  - destruct (pointlist seg) as [|pt pts].
    + unfold ret. intros [= _ <-]. split; reflexivity.
    + apply (Hpts IS_ON_PLANE); [reflexivity | discriminate].
  - destruct (pointlist seg) as [|pt pts].
    + unfold ret. intros [= _ <-]. split; reflexivity.
    + apply (Hpts IS_HIGH); [reflexivity | discriminate].
  - rewrite (Hother eq_refl). unfold ret. intros [= _ <-].
    split; reflexivity.
Qed.

(** X19.  Discretisation followed by projection: when the loop over the
    segments of a program runs to its end, it has emitted as many commands
    as [total_steps] counts, and the commands of the program that are not
    motions stand in the output unchanged, in their order and once each. *)
Theorem projection_emits_total_steps
        k g fuel cfg zmin cmds start sh ch sD cD o o' cs :
  project_segments k fuel cfg zmin
                   (discretize_commands g cmds start sh ch sD cD) o
  = (o', Ok cs) ->
  List.length cs
  = list_sum (map steps (discretize_commands g cmds start sh ch sD cD)) /\
  filter non_motion cs = filter non_motion cmds.
Proof.
  unfold discretize_commands.
  generalize (mkVector (vx start) (vy start) (vz start)) as loc.
  assert (Hgen : forall segs o o' cs,
             Forall (fun seg =>
                       (kind seg = OTHER <-> is_motion (command seg) = false) /\
                       (kind seg = OTHER -> pointlist seg = [])) segs ->
             project_segments k fuel cfg zmin segs o = (o', Ok cs) ->
             List.length cs = list_sum (map steps segs) /\
             filter non_motion cs = filter non_motion (map command segs)).
  { induction segs as [|seg segs IH]; intros o1 o2 cs1 Hall;
      cbn [project_segments].
    - unfold ret. intros [= _ <-]. split; reflexivity.
    - inversion Hall as [|? ? (Hk & Ho) Hrest]; subst.
      intros H. apply mbind_ok in H. destruct H as (o3 & c1 & Hc1 & H).
      apply mbind_ok in H. destruct H as (o4 & c2 & Hc2 & H).
      unfold ret in H. injection H as _ <-.
      destruct (project_segment_shape _ _ _ _ _ _ _ _ Hk Ho Hc1) as (Hl1 & Hf1).
      destruct (IH _ _ _ Hrest Hc2) as (Hl2 & Hf2).
      split.
      + rewrite length_app, Hl1, Hl2. reflexivity.
      + rewrite filter_app, Hf1, Hf2. cbn [map]. 
        change (command seg :: map command segs)
          with ([command seg] ++ map command segs).
        now rewrite filter_app. }
  intros loc Hrun.
  pose proof (discretize_commands_structure g cmds loc sD cD) as (Hfil & Hall).
  destruct (Hgen _ _ _ _ Hall Hrun) as (Hlen & Hf).
  split; [exact Hlen|]. now rewrite Hf.
Qed.

Lemma projection_emits_total_steps_witness :
  exists o' cs,
    project_segments flat_kernel 10 demo_setup 0
      (discretize_commands line_geom plunge_and_cut (mkVector 0 0 25)
                           25 30 1 (1 # 10)) demo_obj
    = (o', Ok cs) /\
    List.length cs
    = list_sum (map steps (discretize_commands line_geom plunge_and_cut
                             (mkVector 0 0 25) 25 30 1 (1 # 10))) /\
    filter non_motion cs = filter non_motion plunge_and_cut.
Proof.
  set (r := project_segments flat_kernel 10 demo_setup 0
              (discretize_commands line_geom plunge_and_cut (mkVector 0 0 25)
                                   25 30 1 (1 # 10)) demo_obj).
  assert (H : r = (fst r, Ok (match snd r with Ok cs => cs | Raise _ => [] end)))
    by (vm_compute; reflexivity).
  exists (fst r), (match snd r with Ok cs => cs | Raise _ => [] end).
  split; [exact H|].
  exact (projection_emits_total_steps
           flat_kernel line_geom 10 demo_setup 0 plunge_and_cut
           (mkVector 0 0 25) 25 30 1 (1 # 10) demo_obj _ _ H).
Defined.

(** ** The baseline and the safe height *)

Lemma py_min_in l : forall a, py_min a l = a \/ In (py_min a l) l.
Proof.
  unfold py_min. induction l as [|w l IH]; intro a; simpl; [now left|].
  destruct (Qltb w a).
  - destruct (IH w) as [H|H]; [right; left; now rewrite H | right; now right].
  - destruct (IH a) as [H|H]; [now left | right; now right].
Qed.

Lemma original_min_le segs seg p :
  In seg segs -> In p (pointlist seg) -> original_min segs <= vz p.
Proof.
  intros Hseg Hp. unfold original_min.
  assert (Hin : In p (flat_map pointlist segs)).
  { apply in_flat_map. eauto. }
  destruct (flat_map pointlist segs) as [|q qs]; [contradiction|].
  destruct (QuadTreeMore.py_min_is_min (map vz qs) (vz q)) as (H0 & Hrest).
  destruct Hin as [<-|Hin]; [exact H0|].
  apply Hrest. now apply in_map.
Qed.

(** X20.  The baseline [z_original_min] of a run is the least Z among the
    points sampled for its segments: no sampled point lies below it, some
    sampled point has it for its Z, and it is 0 when no point was
    sampled. *)
Theorem original_min_is_least_sampled_z segs :
  (flat_map pointlist segs = [] -> original_min segs = 0) /\
  (forall seg p, In seg segs -> In p (pointlist seg) ->
                 original_min segs <= vz p) /\
  (flat_map pointlist segs <> [] ->
   exists seg p, In seg segs /\ In p (pointlist seg) /\
                 original_min segs = vz p).
Proof.
  split; [|split].
  - unfold original_min. now intros ->.
  - intros seg p. apply original_min_le.
  - intros Hne. unfold original_min.
    destruct (flat_map pointlist segs) as [|q qs] eqn:Hfm; [contradiction|].
    assert (Hq : exists p, In p (q :: qs) /\ py_min (vz q) (map vz qs) = vz p).
    { destruct (py_min_in (map vz qs) (vz q)) as [H|H].
      - exists q. split; [now left | exact H].
      - apply in_map_iff in H. destruct H as (p & Hp & Hin).
        exists p. split; [now right | now rewrite Hp]. }
    destruct Hq as (p & Hin & Hp). rewrite <- Hfm in Hin.
    apply in_flat_map in Hin. destruct Hin as (seg & Hseg & Hpin).
    exists seg, p. auto.
Qed.

(** X21.  Where the oracle finds no height for a point on the reference
    plane, the projection sends the tool to the safe height: with the
    baseline of the run, the Z of the emitted move is the safe height. *)
Theorem unmapped_point_is_sent_to_safe_height k fuel cfg segs seg pt o o' :
  In seg segs ->
  In pt (pointlist seg) ->
  get_surface_z k fuel cfg (vx pt) (vy pt) o = (o', Ok None) ->
  exists z,
    project_point k fuel cfg IS_ON_PLANE (original_min segs) pt o
    = (o', Ok (mkCommand MoveStraight
                         [("X", vx pt); ("Y", vy pt); ("Z", z)])) /\
    z == SafeHeight cfg.
Proof.
  intros Hseg Hpt Hq.
  pose proof (original_min_le segs seg pt Hseg Hpt) as Hmin.
  unfold project_point, mbind. rewrite Hq. unfold ret.
  eexists. split; [reflexivity|].
  destruct (Qltb (SafeHeight cfg)
                 (SafeHeight cfg + (vz pt - original_min segs))) eqn:E.
  - reflexivity.
  - apply Qltb_ge in E. lra.
Qed.

Lemma unmapped_point_is_sent_to_safe_height_witness :
  get_surface_z blind_kernel 10 demo_setup 1 1 demo_obj = (demo_obj, Ok None) /\
  exists z,
    project_point blind_kernel 10 demo_setup IS_ON_PLANE
                  (original_min [plane_segment]) (mkVector 1 1 0) demo_obj
    = (demo_obj, Ok (mkCommand MoveStraight [("X", 1); ("Y", 1); ("Z", z)])) /\
    z == SafeHeight demo_setup.
Proof.
  assert (H : get_surface_z blind_kernel 10 demo_setup
                            (vx (mkVector 1 1 0)) (vy (mkVector 1 1 0)) demo_obj
              = (demo_obj, Ok None)) by (vm_compute; reflexivity).
  split; [exact H|].
  apply (unmapped_point_is_sent_to_safe_height
           blind_kernel 10 demo_setup [plane_segment] plane_segment
           (mkVector 1 1 0) demo_obj demo_obj).
  - simpl. now left.
  - simpl. now left.
  - exact H.
Defined.

End PathMore.

(** * More about the stepdown *)

Module StepdownMore.

Import ZFace ZFaceSpec ZFaceMoreSpec StepdownFacts.
Open Scope string_scope.
Open Scope list_scope.
Open Scope Q_scope.

Lemma getPoint_loop_first cmds :
  forall x y z,
    point_of x y z = None ->
    getPoint_loop cmds x y z =
    point_of (or_else x (first_attr "X" cmds))
             (or_else y (first_attr "Y" cmds))
             (or_else z (first_attr "Z" cmds)).
Proof.
  induction cmds as [|cmd cmds IH]; intros x y z Hnone.
  - cbn [getPoint_loop first_attr].
    destruct x, y, z; try reflexivity; discriminate.
  - cbn [getPoint_loop first_attr].
    destruct x as [x|], y as [y|], z as [z|]; try discriminate;
      destruct (attr cmd "X") as [ax|], (attr cmd "Y") as [ay|],
               (attr cmd "Z") as [az|];
      cbn; try reflexivity; rewrite IH by reflexivity; reflexivity.
Qed.

(** X22.  [getPoint] returns the first X, the first Y and the first Z that
    the commands carry, each found on its own, whichever commands they come
    from; it returns [None] exactly when one of the three axes appears in no
    command. *)
Theorem getPoint_takes_first_of_each_axis cmds :
  getPoint cmds = point_of (first_attr "X" cmds) (first_attr "Y" cmds)
                           (first_attr "Z" cmds) /\
  (getPoint cmds = None <->
   first_attr "X" cmds = None \/ first_attr "Y" cmds = None \/
   first_attr "Z" cmds = None).
Proof.
  assert (H : getPoint cmds =
              point_of (first_attr "X" cmds) (first_attr "Y" cmds)
                       (first_attr "Z" cmds)).
  { unfold getPoint. rewrite getPoint_loop_first by reflexivity. reflexivity. }
  split; [exact H|]. rewrite H.
  destruct (first_attr "X" cmds), (first_attr "Y" cmds), (first_attr "Z" cmds);
    cbn; split; intros Hx; try discriminate; auto;
    destruct Hx as [Hx|[Hx|Hx]]; discriminate.
Qed.

Section Loop.

Variable feed : Vector -> Vector -> Q -> Q -> Q.
Variables step_depth start_depth clearance_height safe_height : Q.
Variables h_feed v_feed h_rapid : Q.
Variable rapid : bool.

Let step_command' :=
  step_command feed step_depth h_feed v_feed h_rapid rapid.
Let pass_loop' :=
  pass_loop feed step_depth clearance_height safe_height
            h_feed v_feed h_rapid rapid.
Let run_pass' :=
  run_pass feed step_depth clearance_height safe_height
           h_feed v_feed h_rapid rapid.
Let stepdown_loop' :=
  stepdown_loop feed step_depth clearance_height safe_height
                h_feed v_feed h_rapid rapid.

Lemma stepdown_loop_unfold m path sp ep limit fs :
  stepdown_loop' (S m) path sp ep limit fs =
  ('(cmds, repeat) <- run_pass' path sp ep (limit - step_depth) fs ;;
   if (repeat : bool) then
     rest <- stepdown_loop' m path sp ep (limit - step_depth) false ;;
     Ok (cmds ++ rest)
   else Ok cmds).
Proof. reflexivity. Qed.

Lemma run_pass_some path sp ep limit fs :
  exists cmds rep, run_pass' path (Some sp) ep limit fs = Ok (cmds, rep).
Proof.
  unfold run_pass', run_pass.
  destruct (pass_loop _ _ _ _ _ _ _ _ _ _ _ _ _ _) as [body rep]. eauto.
Qed.

Lemma stepdown_loop_with_start m path sp ep :
  forall limit fs,
    stepdown_loop' m path (Some sp) ep limit fs <> Raise AttributeError.
Proof.
  induction m as [|m IH]; intros limit fs; [discriminate|].
  rewrite stepdown_loop_unfold.
  destruct (run_pass_some path sp ep (limit - step_depth) fs)
    as (cmds & rep & ->).
  cbn. destruct rep; [|discriminate].
  specialize (IH (limit - step_depth) false).
  destruct (stepdown_loop' m path (Some sp) ep (limit - step_depth) false)
    as [rest|e]; cbn; [discriminate|]. congruence.
Qed.

(** ** The floor of a pass *)

Lemma step_command_floor limit prev cur rep cmd :
  limit - Tolerance <= vz cur ->
  let '(cur', _, out) := step_command' limit prev cur rep cmd in
  limit - Tolerance <= vz cur' /\
  (forall z, attr out "Z" = Some z -> limit - Tolerance <= z).
Proof.
  intros Hcur. unfold step_command', step_command.
  pose proof Tolerance_pos as Ht.
  set (cz1 := match attr cmd "Z" with
              | Some z => if isLower (Some z) (Some limit)
                          then (limit, true) else (z, rep)
              | None => (vz cur, rep)
              end).
  assert (H1 : limit - Tolerance <= fst cz1).
  { unfold cz1. destruct (attr cmd "Z") as [z|]; [|exact Hcur].
    destruct (isLower (Some z) (Some limit)) eqn:E; cbn [fst]; [lra|].
    destruct (Qlt_le_dec z (limit - Tolerance)) as [Hlt|Hge]; [|exact Hge].
    apply isLower_iff in Hlt. congruence. }
  destruct cz1 as [z1 r1]. cbn [fst] in H1.
  set (cz2 := if isLower (attr cmd "Z") (Some limit)
              then (limit, true) else (z1, r1)).
  assert (H2 : limit - Tolerance <= fst cz2).
  { unfold cz2. destruct (isLower (attr cmd "Z") (Some limit)); cbn [fst]; lra. }
  destruct cz2 as [z2 r2]. cbn [fst] in H2.
  destruct (rapid && negb (isLower (Some z2)
                             (Some (limit + step_depth + rapid_margin)))).
  - cbn [vz]. unfold attr. cbn. split; [unfold rapid_margin; lra|].
    intros z [= <-]. unfold rapid_margin. lra.
  - cbn [vz]. unfold attr. cbn. split; [exact H2|].
    intros z [= <-]. exact H2.
Qed.

Lemma pass_loop_floor skipZ limit prev cmds :
  forall cur rep,
    limit - Tolerance <= vz cur ->
    z_not_below (limit - Tolerance)
                (fst (pass_loop' skipZ limit prev cmds cur rep)).
Proof.
  unfold z_not_below, pass_loop'.
  induction cmds as [|cmd cmds IH]; intros cur rep Hcur; cbn [pass_loop];
    [constructor|].
  destruct (skipped _ _ _ _); [now apply IH|].
  pose proof (step_command_floor limit prev cur rep cmd Hcur) as Hstep.
  unfold step_command' in Hstep.
  destruct (step_command _ _ _ _ _ _ _ _ _ _ _) as [[cur' rep'] out].
  destruct Hstep as (Hcur' & Hout).
  specialize (IH cur' rep' Hcur').
  destruct (pass_loop _ _ _ _ _ _ _ _ _ _ _ _ _ _) as [outs r].
  cbn [fst] in *. constructor; assumption.
Qed.

(** ** Passes that clamp *)

Lemma step_command_keeps_repeat limit prev cur cmd :
  snd (fst (step_command' limit prev cur true cmd)) = true.
Proof.
  unfold step_command', step_command.
  destruct (attr cmd "Z") as [z|]; cbn [isLower];
    repeat match goal with
           | |- context [if ?b then _ else _] => destruct b
           end; reflexivity.
Qed.

Lemma step_command_sets_repeat limit prev cur rep cmd :
  isLower (attr cmd "Z") (Some limit) = true ->
  snd (fst (step_command' limit prev cur rep cmd)) = true.
Proof.
  unfold step_command', step_command. intros Hl.
  destruct (attr cmd "Z") as [z|]; [|discriminate]. rewrite Hl.
  destruct (rapid && _); reflexivity.
Qed.

Lemma pass_loop_keeps_repeat skipZ limit prev cmds :
  forall cur, snd (pass_loop' skipZ limit prev cmds cur true) = true.
Proof.
  unfold pass_loop'.
  induction cmds as [|cmd cmds IH]; intros cur; cbn [pass_loop];
    [reflexivity|].
  destruct (skipped _ _ _ _); [apply IH|].
  pose proof (step_command_keeps_repeat limit prev cur cmd) as Hrep.
  unfold step_command' in Hrep.
  destruct (step_command _ _ _ _ _ _ _ _ _ _ _) as [[cur' rep'] out].
  cbn in Hrep. subst rep'. specialize (IH cur').
  destruct (pass_loop _ _ _ _ _ _ _ _ _ _ _ _ _ _) as [outs r].
  exact IH.
Qed.

Lemma pass_loop_clamps skipZ limit prev cmds cmd :
  In cmd cmds ->
  attr cmd "X" <> None ->
  isLower (attr cmd "Z") (Some limit) = true ->
  forall cur rep, snd (pass_loop' skipZ limit prev cmds cur rep) = true.
Proof.
  unfold pass_loop'. intros Hin Hx Hlow.
  induction cmds as [|c cmds IH]; intros cur rep; [contradiction|].
  cbn [pass_loop].
  destruct Hin as [->|Hin].
  - assert (Hsk : skipped clearance_height safe_height skipZ cmd = false).
    { unfold skipped. destruct (attr cmd "X"); [|contradiction].
      cbn. now rewrite andb_false_r. }
    rewrite Hsk.
    pose proof (step_command_sets_repeat limit prev cur rep cmd Hlow) as Hrep.
    unfold step_command' in Hrep.
    destruct (step_command _ _ _ _ _ _ _ _ _ _ _) as [[cur' rep'] out].
    cbn in Hrep. subst rep'.
    pose proof (pass_loop_keeps_repeat skipZ limit prev cmds cur') as Hk.
    unfold pass_loop' in Hk.
    destruct (pass_loop _ _ _ _ _ _ _ _ _ _ _ _ _ _) as [outs r].
    exact Hk.
  - destruct (skipped _ _ _ _); [now apply IH|].
    destruct (step_command _ _ _ _ _ _ _ _ _ _ _) as [[cur' rep'] out].
    specialize (IH Hin cur' rep').
    destruct (pass_loop _ _ _ _ _ _ _ _ _ _ _ _ _ _) as [outs r].
    exact IH.
Qed.

Lemma stepdown_loop_never_done path sp ep cmd z :
  step_depth <= 0 ->
  In cmd path ->
  attr cmd "X" <> None ->
  attr cmd "Z" = Some z ->
  forall m limit fs,
    z < limit - step_depth - Tolerance ->
    stepdown_loop' m path (Some sp) ep limit fs = Raise OutOfFuel.
Proof.
  intros Hstep Hin Hx Hz.
  induction m as [|m IH]; intros limit fs Hlow; [reflexivity|].
  rewrite stepdown_loop_unfold. unfold run_pass', run_pass.
  assert (Hl : isLower (attr cmd "Z") (Some (limit - step_depth)) = true).
  { rewrite Hz. apply isLower_iff. lra. }
  pose proof (pass_loop_clamps
                (negb fs && isClosedPath (Some sp) ep) (limit - step_depth)
                (mkVector (vx sp) (vy sp) (vz sp)) path cmd Hin Hx Hl sp false)
    as Hrep.
  unfold pass_loop' in Hrep.
  destruct (pass_loop _ _ _ _ _ _ _ _ _ _ _ _ _ _) as [body rep].
  cbn in Hrep. subst rep. cbn.
  fold stepdown_loop'. rewrite IH by lra. reflexivity.
Qed.

End Loop.

(** X23.  [process_stepdown] reads the start point of the path before its
    first pass: with at least one pass it raises [AttributeError] exactly
    when X, Y or Z appears in no command of the path, as for the empty
    path. *)
Theorem process_stepdown_needs_all_three_axes
        feed step start clr safe hf vf hr rapid passes path :
  process_stepdown feed step start clr safe hf vf hr rapid (S passes) path
  = Raise AttributeError <->
  first_attr "X" path = None \/ first_attr "Y" path = None \/
  first_attr "Z" path = None.
Proof.
  unfold process_stepdown.
  assert (Hg : getPoint path =
               point_of (first_attr "X" path) (first_attr "Y" path)
                        (first_attr "Z" path)).
  { unfold getPoint. rewrite getPoint_loop_first by reflexivity. reflexivity. }
  rewrite Hg.
  destruct (first_attr "X" path) as [x|], (first_attr "Y" path) as [y|],
           (first_attr "Z" path) as [z|]; cbn [point_of];
    try (split; [intros _; auto | intros _; reflexivity]).
  split.
  - intros H. exfalso. revert H. apply stepdown_loop_with_start.
  - intros [H|[H|H]]; discriminate.
Qed.

(** X24.  No cutting move of a pass goes below its limit depth: when the
    start point of the path is not below the limit (by more than the
    tolerance), every command that the pass emits, the two lead-in rapids
    included, carries a Z that is not below the limit either. *)
Theorem run_pass_stays_above_limit
        feed step clr safe hf vf hr rapid path sp ep limit fs cmds rep :
  limit - Tolerance <= vz sp ->
  run_pass feed step clr safe hf vf hr rapid path (Some sp) ep limit fs
  = Ok (cmds, rep) ->
  z_not_below (limit - Tolerance) cmds.
Proof.
  intros Hsp. unfold run_pass.
  pose proof (pass_loop_floor feed step clr safe hf vf hr rapid
                (negb fs && isClosedPath (Some sp) ep) limit
                (mkVector (vx sp) (vy sp) (vz sp)) path sp false Hsp) as Hbody.
  destruct (pass_loop _ _ _ _ _ _ _ _ _ _ _ _ _ _) as [body r].
  cbn [fst] in Hbody. intros [= <- _].
  unfold z_not_below in *. apply Forall_app. split; [|exact Hbody].
  match goal with
  | |- Forall _ (if ?b then _ else _) => destruct b; [|constructor]
  end.
  constructor; [|constructor; [|constructor]].
  - unfold attr. cbn. intros z [= <-]. exact Hsp.
  - unfold attr. cbn. discriminate.
Qed.

Lemma run_pass_stays_above_limit_witness :
  exists cmds rep,
    run_pass flat_feed 1 30 25 100 50 1000 true deep_path
             (Some (mkVector 0 0 (-(3)))) (Some (mkVector 0 0 (-(3))))
             (-(3)) true
    = Ok (cmds, rep) /\
    z_not_below (-(3) - Tolerance) cmds.
Proof.
  set (r := run_pass flat_feed 1 30 25 100 50 1000 true deep_path
              (Some (mkVector 0 0 (-(3)))) (Some (mkVector 0 0 (-(3))))
              (-(3)) true).
  assert (H : r = Ok (match r with Ok p => fst p | Raise _ => [] end,
                      match r with Ok p => snd p | Raise _ => false end))
    by (vm_compute; reflexivity).
  eexists. eexists. split; [exact H|].
  apply (run_pass_stays_above_limit
           flat_feed 1 30 25 100 50 1000 true deep_path
           (mkVector 0 0 (-(3))) (Some (mkVector 0 0 (-(3)))) (-(3)) true
           _ _ ltac:(vm_compute; discriminate) H).
Defined.

(** X25.  With a step-down of zero or less the limit depth never sinks:
    a path that has a start point and a move with an X below the first
    limit keeps [repeat] set in every pass, so the [while] loop is never
    done, however many passes it is given. *)
Theorem process_stepdown_never_done_without_step
        feed step start clr safe hf vf hr rapid path sp cmd z :
  step <= 0 ->
  getPoint path = Some sp ->
  In cmd path ->
  attr cmd "X" <> None ->
  attr cmd "Z" = Some z ->
  z < start - step - Tolerance ->
  forall passes,
    process_stepdown feed step start clr safe hf vf hr rapid passes path
    = Raise OutOfFuel.
Proof.
  intros Hstep Hsp Hin Hx Hz Hlow passes.
  unfold process_stepdown. rewrite Hsp.
  exact (stepdown_loop_never_done feed step clr safe hf vf hr rapid
           path sp (getPoint (rev path)) cmd z Hstep Hin Hx Hz
           passes start true Hlow).
Qed.

Lemma process_stepdown_never_done_without_step_witness :
  0 <= 0 /\
  getPoint deep_path = Some (mkVector 0 0 (-(3))) /\
  -(3) < 0 - 0 - Tolerance /\
  process_stepdown flat_feed 0 0 30 25 100 50 1000 true 1000 deep_path
  = Raise OutOfFuel.
Proof.
  assert (H1 : 0 <= 0) by discriminate.
  assert (H2 : getPoint deep_path = Some (mkVector 0 0 (-(3)))) by reflexivity.
  assert (H3 : -(3) < 0 - 0 - Tolerance) by reflexivity.
  split; [exact H1|]. split; [exact H2|]. split; [exact H3|].
  apply (process_stepdown_never_done_without_step
           flat_feed 0 0 30 25 100 50 1000 true deep_path
           (mkVector 0 0 (-(3)))
           (mkCommand MoveStraight [("X", 0); ("Y", 0); ("Z", -(3))]) (-(3))
           H1 H2).
  - simpl. now left.
  - discriminate.
  - reflexivity.
  - exact H3.
Defined.

End StepdownMore.

(** * More about the execution *)

Module ExecuteMore.

Import QuadTree QuadTreeSpec ZFaceSection ZFaceSectionSpec ZFace ZFaceSpec.
Import ZFaceMoreSpec.
Open Scope string_scope.
Open Scope list_scope.
Open Scope Q_scope.

Lemma cache_kept_refl o : cache_kept o o.
Proof.
  unfold cache_kept. repeat split; try tauto.
  exists []. now rewrite app_nil_r.
Qed.

Lemma cache_kept_trans o1 o2 o3 :
  cache_kept o1 o2 -> cache_kept o2 o3 -> cache_kept o1 o3.
Proof.
  intros ((a1 & H1) & Hd1 & Hh1 & Hb1) ((a2 & H2) & Hd2 & Hh2 & Hb2).
  unfold cache_kept. repeat split; try congruence; try tauto.
  exists (a1 ++ a2). now rewrite H2, H1, app_assoc.
Qed.

Lemma cache_grown_kept o o' : cache_grown o o' -> cache_kept o o'.
Proof. unfold cache_grown, cache_kept. tauto. Qed.

Lemma keeps_ret {A} (a : A) : keeps cache_kept (ret a).
Proof. intros o. apply cache_kept_refl. Qed.

Lemma keeps_lift {A} (r : Exc A) : keeps cache_kept (lift r).
Proof. intros o. apply cache_kept_refl. Qed.

Lemma keeps_bind {A B} (m : M A) (f : A -> M B) :
  keeps cache_kept m -> (forall a, keeps cache_kept (f a)) ->
  keeps cache_kept (mbind m f).
Proof.
  intros Hm Hf o. unfold mbind. specialize (Hm o).
  destruct (m o) as [o1 [a|e]]; cbn [fst] in Hm; [|exact Hm].
  eapply cache_kept_trans; [exact Hm | apply Hf].
Qed.

Ltac same_cache :=
  unfold cache_kept, cache_points, is_dict; cbn;
  repeat split; try tauto; exists []; now rewrite app_nil_r.

Lemma keeps_set_Path p : keeps cache_kept (modify (fun o => set_Path o p)).
Proof. intros o. same_cache. Qed.

Lemma keeps_set_commandlist l :
  keeps cache_kept (modify (fun o => set_commandlist o l)).
Proof. intros o. same_cache. Qed.

Lemma keeps_rebuild fuel bounds :
  keeps cache_kept (_rebuild_quadtree fuel bounds).
Proof.
  intros o.
  destruct (OracleMore.rebuild_quadtree_cases fuel bounds o)
    as [(_ & x0 & x1 & y0 & y1 & ->) | (p & rest & _ & ->)].
  - same_cache.
  - destruct (from_point_list fuel (p :: rest) 0 8);
      [same_cache | apply cache_kept_refl].
Qed.

Lemma keeps_project_segments k fuel cfg zmin segs :
  keeps cache_kept (project_segments k fuel cfg zmin segs).
Proof.
  induction segs as [|seg segs IH]; cbn [project_segments]; [apply keeps_ret|].
  apply keeps_bind.
  - intros o. apply cache_grown_kept, OracleMore.project_segment_grows.
  - intros cs. apply keeps_bind; [exact IH|]. intros rest. apply keeps_ret.
Qed.

(** What [opExecute] runs once the state hash is stored. *)
Lemma opExecute_after_hash k g feed fuel passes cfg :
  keeps cache_kept
    (match collected_faces cfg with
     | [] =>
         original <~ lift (PathWithPlacement cfg) ;;
         modify (fun o1 => set_Path o1 original)
     | _ :: _ =>
         match usable_base cfg with
         | None => modify (fun o1 => set_Path o1 [])
         | Some b =>
             _rebuild_quadtree fuel (compound_bounds cfg) ;;;
             (newcommandlist <~
                project_segments k fuel cfg
                  (original_min
                     (discretize_commands g (Commands b)
                        (mkVector 0 0 (SafeHeight cfg))
                        (SafeHeight cfg) (ClearanceHeight cfg)
                        (SegInterpolate cfg) (ArcInterpolate cfg)))
                  (discretize_commands g (Commands b)
                     (mkVector 0 0 (SafeHeight cfg))
                     (SafeHeight cfg) (ClearanceHeight cfg)
                     (SegInterpolate cfg) (ArcInterpolate cfg)) ;;
              stepped_down <~
                lift (process_stepdown feed
                        (StepDown cfg) (StartDepth cfg)
                        (ClearanceHeight cfg) (SafeHeight cfg)
                        (HorizFeed cfg) (VertFeed cfg) (HorizRapid cfg)
                        true passes newcommandlist) ;;
              modify (fun o1 => set_commandlist o1 stepped_down))
         end
     end).
Proof.
  destruct (collected_faces cfg) as [|f fs].
  - apply keeps_bind; [apply keeps_lift|]. intros p. apply keeps_set_Path.
  - destruct (usable_base cfg) as [b|]; [|apply keeps_set_Path].
    apply keeps_bind; [apply keeps_rebuild|]. intros _.
    apply keeps_bind; [apply keeps_project_segments|]. intros cs.
    apply keeps_bind; [apply keeps_lift|]. intros sd.
    apply keeps_set_commandlist.
Qed.

(** X29.  Once the tool check has passed, [opExecute] leaves the current
    state hash in [_CacheStateHash], whatever comes after: a failed
    precondition, an exception of the kernel or of the stepdown, or a
    complete run; and it never changes [BlockCacheInvalidation]. *)
Theorem opExecute_stores_current_hash k g feed fuel passes cfg o :
  ShapeID cfg = "endmill" ->
  let o' := fst (opExecute k g feed fuel passes cfg o) in
  CacheStateHash o' = current_hash cfg /\
  BlockCacheInvalidation o' = BlockCacheInvalidation o.
Proof.
  intros Hshape. cbv zeta.
  remember (fst (opExecute k g feed fuel passes cfg o)) as o' eqn:Ho'.
  revert Ho'. unfold opExecute. rewrite Hshape, String.eqb_refl.
  cbn [negb]. unfold mbind at 1. cbv beta.
  set (o1 := if negb (String.eqb (current_hash cfg) (CacheStateHash o))
             then _clear_cache o else (o, Ok tt)).
  assert (H1 : exists o2, o1 = (o2, Ok tt) /\
                          BlockCacheInvalidation o2 = BlockCacheInvalidation o).
  { unfold o1, _clear_cache.
    destruct (negb (String.eqb (current_hash cfg) (CacheStateHash o)));
      [|eauto].
    destruct (negb (BlockCacheInvalidation o)); eauto. }
  destruct H1 as (o2 & -> & Hb2).
  unfold mbind at 1, modify at 1.
  pose proof (opExecute_after_hash k g feed fuel passes cfg
                (set_CacheStateHash o2 (current_hash cfg)))
    as (_ & _ & Hh & Hb).
  intros ->. split.
  - etransitivity; [exact Hh | reflexivity].
  - etransitivity; [exact Hb | exact Hb2].
Qed.

Lemma opExecute_stores_current_hash_witness :
  CacheStateHash (fst (opExecute flat_kernel line_geom flat_feed 10 10
                                 no_faces_setup used_obj)) = "h1" /\
  BlockCacheInvalidation (fst (opExecute flat_kernel line_geom flat_feed 10 10
                                         no_faces_setup used_obj)) = false.
Proof.
  exact (opExecute_stores_current_hash flat_kernel line_geom flat_feed 10 10
           no_faces_setup used_obj eq_refl).
Defined.

(** X30.  Unless it invalidates the cache (tool check passed, state hash
    changed, invalidation not blocked), a run of [opExecute] loses no
    cached sample: in every outcome the persistent cache holds the samples
    it held before, in the same order, followed by the ones the run
    added. *)
Theorem opExecute_keeps_cached_samples k g feed fuel passes cfg o :
  invalidates cfg o = false ->
  exists added,
    cache_points (fst (opExecute k g feed fuel passes cfg o))
    = cache_points o ++ added.
Proof.
  intros Hinv. unfold opExecute. unfold invalidates in Hinv.
  destruct (String.eqb (ShapeID cfg) "endmill"); cbn [negb].
  2:{ exists []. cbn [fst]. now rewrite app_nil_r. }
  cbn [andb] in Hinv.
  unfold mbind at 1. cbv beta.
  set (o1 := if negb (String.eqb (current_hash cfg) (CacheStateHash o))
             then _clear_cache o else (o, Ok tt)).
  assert (H1 : o1 = (o, Ok tt)).
  { unfold o1, _clear_cache.
    destruct (negb (String.eqb (current_hash cfg) (CacheStateHash o)));
      [|reflexivity].
    cbn [andb] in Hinv. now rewrite Hinv. }
  rewrite H1. unfold mbind at 1, modify at 1.
  pose proof (opExecute_after_hash k g feed fuel passes cfg
                (set_CacheStateHash o (current_hash cfg)))
    as ((added & Hadd) & _).
  exists added. exact Hadd.
Qed.

Lemma opExecute_keeps_cached_samples_witness :
  exists added,
    cache_points (fst (opExecute flat_kernel line_geom flat_feed 10 10
                                 cut_setup cached_obj))
    = cache_points cached_obj ++ added.
Proof.
  apply (opExecute_keeps_cached_samples flat_kernel line_geom flat_feed 10 10
           cut_setup cached_obj).
  reflexivity.
Defined.

End ExecuteMore.

(** * More about the feed interpolation *)

Module FeedMore.

Import Feed FeedSpec FeedMoreSpec FeedFacts.
Open Scope R_scope.

Lemma le_scaled a d e : 0 < a -> 0 < e -> e <= d -> a <= a * d / e.
Proof.
  intros Ha He Hd.
  apply (Rmult_le_reg_r e); [exact He|].
  replace (a * d / e * e) with (a * d) by (field; lra). nra.
Qed.

Lemma not_roughly_zero a : 0 <= a -> isRoughly a 0 = false -> Tolerance < a.
Proof.
  intros Ha H. destruct (Rle_dec a Tolerance) as [Hle|Hgt]; [|lra].
  apply (isRoughly_zero a Ha) in Hle. congruence.
Qed.

Lemma not_roughly_abs a : isRoughly a 0 = false -> Tolerance < Rabs a.
Proof.
  intros H. destruct (Rle_dec (Rabs a) Tolerance) as [Hle|Hgt]; [|lra].
  apply isRoughly_abs in Hle. congruence.
Qed.

Lemma abs_le_length dz dist_xy dist :
  0 <= dist -> dist * dist = dist_xy * dist_xy + dz * dz -> Rabs dz <= dist.
Proof.
  intros Hd Hp. unfold Rabs. destruct (Rcase_abs dz); nra.
Qed.

Lemma planar_le_length dz dist_xy dist :
  0 <= dist_xy -> 0 <= dist ->
  dist * dist = dist_xy * dist_xy + dz * dz -> dist_xy <= dist.
Proof. intros Hxy Hd Hp. nra. Qed.

Lemma feed_branch_floor dz dist_xy dist h v :
  0 < h -> 0 < v -> 0 <= dist_xy -> 0 <= dist ->
  dist * dist = dist_xy * dist_xy + dz * dz ->
  Rmin h v <= feed_branch dz dist_xy dist h v.
Proof.
  intros Hh Hv Hxy Hd Hp. unfold feed_branch.
  pose proof (Rmin_l h v) as Hl. pose proof (Rmin_r h v) as Hr.
  pose proof feed_tolerance_pos as Ht.
  destruct (isRoughly dist 0); cbn [negb]; [exact Hr|].
  destruct (isRoughly dist_xy 0) eqn:E2.
  - destruct (gt dz 0); assumption.
  - destruct (isRoughly dz 0) eqn:E3; [exact Hl|].
    apply (not_roughly_zero dist_xy Hxy) in E2.
    apply not_roughly_abs in E3.
    assert (Hfh : h <= h * dist / dist_xy).
    { apply le_scaled; [exact Hh | lra |].
      now apply (planar_le_length dz). }
    assert (Hfv : v <= v * dist / Rabs dz).
    { apply le_scaled; [exact Hv | lra |].
      now apply (abs_le_length dz dist_xy). }
    destruct (gt dz 0); [lra|].
    apply Rmin_glb; lra.
Qed.

(** X26.  For positive feeds the interpolated feed is never below the
    smaller of the two: whatever the move, [interpolate_feedrate] returns
    at least [min(horiz_feed, vert_feed)], so never zero or less. *)
Theorem interpolate_feedrate_floor p0 p1 h_feed v_feed :
  0 < h_feed ->
  0 < v_feed ->
  Rmin h_feed v_feed <= interpolate_feedrate p0 p1 h_feed v_feed /\
  0 < interpolate_feedrate p0 p1 h_feed v_feed.
Proof.
  intros Hh Hv.
  destruct (lengths_facts (px p1 - px p0) (py p1 - py p0) (pz p1 - pz p0))
    as (Hxy & Hd & Hp).
  rewrite interpolate_feedrate_branch.
  pose proof (feed_branch_floor _ _ _ h_feed v_feed Hh Hv Hxy Hd Hp) as Hfloor.
  split; [exact Hfloor|].
  apply Rlt_le_trans with (Rmin h_feed v_feed); [|exact Hfloor].
  apply Rmin_glb_lt; assumption.
Qed.

Lemma interpolate_feedrate_floor_witness :
  0 < 100 /\ 0 < 50 /\
  Rmin 100 50 <= interpolate_feedrate origin shallow_target 100 50 /\
  0 < interpolate_feedrate origin shallow_target 100 50.
Proof.
  assert (H1 : 0 < 100) by lra.
  assert (H2 : 0 < 50) by lra.
  split; [exact H1|]. split; [exact H2|].
  exact (interpolate_feedrate_floor origin shallow_target 100 50 H1 H2).
Defined.

Lemma feed_branch_ascent dz dist_xy dist h v :
  0 < h -> 0 <= dist_xy -> 0 <= dist ->
  dist * dist = dist_xy * dist_xy + dz * dz ->
  0 < dz -> Tolerance < dist ->
  feed_branch dz dist_xy dist h v =
  (if isRoughly dist_xy 0 then h
   else if isRoughly dz 0 then h else h * dist / dist_xy).
Proof.
  intros Hh Hxy Hd Hp Hz Hlen. unfold feed_branch.
  assert (E1 : isRoughly dist 0 = false).
  { destruct (isRoughly dist 0) eqn:E; [|reflexivity].
    apply (isRoughly_zero dist Hd) in E. lra. }
  assert (E4 : gt dz 0 = true) by (apply gt_true; exact Hz).
  rewrite E1, E4. reflexivity.
Qed.

(** X27.  An ascent is not limited by the vertical feed: for a move that
    goes up and is longer than the tolerance, the feed does not depend on
    [vert_feed] and is at least [horiz_feed]; when the move covers more
    than the tolerance both in the plane and in Z, the horizontal component
    of the feed is [horiz_feed]. *)
Theorem ascent_feed_ignores_vertical_feed p0 p1 h_feed v_feed :
  0 < h_feed ->
  0 < pz p1 - pz p0 ->
  let dz := pz p1 - pz p0 in
  let dist_xy := hypot (px p1 - px p0) (py p1 - py p0) in
  let dist := sqrt ((px p1 - px p0) * (px p1 - px p0) +
                    (py p1 - py p0) * (py p1 - py p0) + dz * dz) in
  Tolerance < dist ->
  (forall v', interpolate_feedrate p0 p1 h_feed v'
              = interpolate_feedrate p0 p1 h_feed v_feed) /\
  h_feed <= interpolate_feedrate p0 p1 h_feed v_feed /\
  (Tolerance < dist_xy -> Tolerance < dz ->
   fst (feed_components p0 p1 h_feed v_feed) = h_feed).
Proof.
  intros Hh Hz dz dist_xy dist Hlen.
  destruct (lengths_facts (px p1 - px p0) (py p1 - py p0) dz)
    as (Hxy & Hd & Hp).
  fold dist_xy in Hxy, Hp. fold dist in Hd, Hp.
  pose proof feed_tolerance_pos as Ht.
  assert (HF : forall v, interpolate_feedrate p0 p1 h_feed v =
                         (if isRoughly dist_xy 0 then h_feed
                          else if isRoughly dz 0 then h_feed
                               else h_feed * dist / dist_xy)).
  { intros v. rewrite interpolate_feedrate_branch.
    now apply feed_branch_ascent. }
  split; [intros v'; now rewrite !HF|].
  split.
  - rewrite HF. destruct (isRoughly dist_xy 0) eqn:E2; [lra|].
    destruct (isRoughly dz 0); [lra|].
    apply (not_roughly_zero dist_xy Hxy) in E2.
    apply le_scaled; [exact Hh | lra |].
    now apply (planar_le_length dz).
  - intros Hplanar Hrise.
    assert (Hc : fst (feed_components p0 p1 h_feed v_feed) =
                 if gt dist 0
                 then interpolate_feedrate p0 p1 h_feed v_feed * dist_xy / dist
                 else 0) by reflexivity.
    rewrite Hc, HF.
    assert (E : gt dist 0 = true) by (apply gt_true; lra).
    assert (E2 : isRoughly dist_xy 0 = false).
    { destruct (isRoughly dist_xy 0) eqn:E2; [|reflexivity].
      apply (isRoughly_zero dist_xy Hxy) in E2. lra. }
    assert (E3 : isRoughly dz 0 = false).
    { destruct (isRoughly dz 0) eqn:E3; [|reflexivity].
      apply isRoughly_abs in E3. rewrite Rabs_pos_eq in E3 by lra. lra. }
    rewrite E, E2, E3. field. lra.
Qed.

Lemma ascent_feed_ignores_vertical_feed_witness :
  (forall v', interpolate_feedrate origin (3, 0, 4) 100 v'
              = interpolate_feedrate origin (3, 0, 4) 100 50) /\
  100 <= interpolate_feedrate origin (3, 0, 4) 100 50.
Proof.
  assert (H1 : 0 < 100) by lra.
  assert (H2 : 0 < pz (3, 0, 4) - pz origin).
  { unfold origin, pz. simpl. lra. }
  assert (H3 : Tolerance <
               sqrt ((px (3, 0, 4) - px origin) * (px (3, 0, 4) - px origin) +
                     (py (3, 0, 4) - py origin) * (py (3, 0, 4) - py origin) +
                     (pz (3, 0, 4) - pz origin) * (pz (3, 0, 4) - pz origin))).
  { unfold origin, px, py, pz, Tolerance. simpl.
    replace ((3 - 0) * (3 - 0) + (0 - 0) * (0 - 0) + (4 - 0) * (4 - 0))
      with (5 * 5) by lra.
    rewrite sqrt_square by lra. lra. }
  destruct (ascent_feed_ignores_vertical_feed origin (3, 0, 4) 100 50 H1 H2 H3)
    as (Hindep & Hfloor & _).
  split; [exact Hindep | exact Hfloor].
Defined.

(** ** The self-test of the module *)

Lemma sqrt_between a b x :
  0 <= a -> 0 <= b -> a * a <= x -> x <= b * b -> a <= sqrt x <= b.
Proof.
  intros Ha Hb Hlo Hhi. split.
  - rewrite <- (sqrt_square a Ha). now apply sqrt_le_1_alt.
  - rewrite <- (sqrt_square b Hb). now apply sqrt_le_1_alt.
Qed.

(** The components of the feed, for [vert_feed <= horiz_feed]: the
    horizontal one is within [horiz_feed]; the vertical one is within
    [vert_feed] when the move neither rises nor sinks by less than the
    tolerance. *)
Lemma components_within p0 p1 h v :
  0 < h -> 0 < v -> v <= h ->
  fst (feed_components p0 p1 h v) <= h /\
  (pz p1 - pz p0 = 0 \/
   (pz p1 - pz p0 < 0 /\ Tolerance < Rabs (pz p1 - pz p0)) ->
   snd (feed_components p0 p1 h v) <= v).
Proof.
  intros Hh Hv Hvh.
  destruct (lengths_facts (px p1 - px p0) (py p1 - py p0) (pz p1 - pz p0))
    as (Hxy & Hd & Hp).
  rewrite feed_components_branch. cbv zeta. cbn [fst snd].
  set (dz := pz p1 - pz p0) in *.
  set (dist_xy := hypot (px p1 - px p0) (py p1 - py p0)) in *.
  set (dist := sqrt _) in *.
  destruct (gt dist 0) eqn:E; [|split; intros; lra].
  apply gt_true in E. split.
  - apply div_le_bound; [exact E|].
    apply horizontal_product; auto.
  - intros [H0|(Hneg & Hbig)].
    + rewrite H0, Rabs_R0. unfold Rdiv. rewrite Rmult_0_r, Rmult_0_l. lra.
    + apply div_le_bound; [exact E|].
      apply (vertical_product dz dist_xy dist h v); auto.
Qed.

Ltac lengths_tac :=
  unfold hypot, px, py, pz; cbn [fst snd]; apply sqrt_lem_1; lra.

Ltac branch_tac :=
  unfold feed_branch, isRoughly, gt, Tolerance, Rmin;
  rewrite ?Rminus_0_r; unfold Rabs;
  repeat match goal with
         | |- context [Rcase_abs ?a] => destruct (Rcase_abs a)
         end;
  repeat match goal with
         | |- context [Rle_dec ?a ?b] => destruct (Rle_dec a b)
         | |- context [Rlt_dec ?a ?b] => destruct (Rlt_dec a b)
         end;
  cbn [negb];
  repeat match goal with
         | |- context [Ropp (IZR (Zneg ?p))] =>
             let E := fresh "E" in
             assert (E : Ropp (IZR (Zneg p)) = IZR (Zpos p)) by lra;
             rewrite E in *; clear E
         | H : context [Ropp (IZR (Zneg ?p))] |- _ =>
             let E := fresh "E" in
             assert (E : Ropp (IZR (Zneg p)) = IZR (Zpos p)) by lra;
             rewrite E in *; clear E
         end;
  try lra.

Ltac bound_length lo hi :=
  unfold px, py, pz; cbn [fst snd];
  match goal with
  | |- context [sqrt ?x] =>
      let Hlo := fresh "Hlo" in
      let Hhi := fresh "Hhi" in
      destruct (sqrt_between lo hi x) as (Hlo & Hhi); [lra | lra | lra | lra |];
      generalize dependent (sqrt x); intros
  end.

Lemma self_test_rest :
  interpolate_feedrate (0, 0, 0) (0, 0, 0) 100 50 = 50.
Proof.
  rewrite interpolate_feedrate_branch.
  replace (hypot _ _) with 0 by (symmetry; lengths_tac).
  replace (sqrt _) with 0 by (symmetry; lengths_tac).
  unfold pz; cbn [snd]. branch_tac.
Qed.

Lemma self_test_along_x :
  interpolate_feedrate (0, 0, 0) (10, 0, 0) 100 50 = 100.
Proof.
  rewrite interpolate_feedrate_branch.
  replace (hypot _ _) with 10 by (symmetry; lengths_tac).
  replace (sqrt _) with 10 by (symmetry; lengths_tac).
  unfold pz; cbn [snd]. branch_tac.
Qed.

Lemma self_test_along_y :
  interpolate_feedrate (0, 0, 0) (0, 10, 0) 120 60 = 120.
Proof.
  rewrite interpolate_feedrate_branch.
  replace (hypot _ _) with 10 by (symmetry; lengths_tac).
  replace (sqrt _) with 10 by (symmetry; lengths_tac).
  unfold pz; cbn [snd]. branch_tac.
Qed.

Lemma self_test_up :
  interpolate_feedrate (0, 0, 0) (0, 0, 10) 100 50 = 100.
Proof.
  rewrite interpolate_feedrate_branch.
  replace (hypot _ _) with 0 by (symmetry; lengths_tac).
  replace (sqrt _) with 10 by (symmetry; lengths_tac).
  unfold pz; cbn [snd]. branch_tac.
Qed.

Lemma self_test_down :
  interpolate_feedrate (0, 0, 0) (0, 0, -10) 100 50 = 50.
Proof.
  rewrite interpolate_feedrate_branch.
  replace (hypot _ _) with 0 by (symmetry; lengths_tac).
  replace (sqrt _) with 10 by (symmetry; lengths_tac).
  unfold pz; cbn [snd]. branch_tac.
Qed.

Lemma self_test_diagonal_up :
  Rabs (interpolate_feedrate (0, 0, 0) (10, 0, 10) 100 50 - 14142 / 100)
  <= 1 / 100.
Proof.
  rewrite interpolate_feedrate_branch.
  replace (hypot _ _) with 10 by (symmetry; lengths_tac).
  bound_length (14142 / 1000) (14143 / 1000). branch_tac.
Qed.

Lemma self_test_diagonal_down :
  Rabs (interpolate_feedrate (0, 0, 0) (10, 0, -10) 100 50 - 7071 / 100)
  <= 1 / 100.
Proof.
  rewrite interpolate_feedrate_branch.
  replace (hypot _ _) with 10 by (symmetry; lengths_tac).
  bound_length (14142 / 1000) (14143 / 1000). branch_tac.
Qed.

Lemma self_test_steep_up :
  Rabs (interpolate_feedrate (0, 0, 0) (1, 0, 100) 100 50 - 1000050 / 100)
  <= 1 / 100.
Proof.
  rewrite interpolate_feedrate_branch.
  replace (hypot _ _) with 1 by (symmetry; lengths_tac).
  bound_length (10000499 / 100000) (100005 / 1000). branch_tac.
Qed.

Lemma self_test_steep_down :
  Rabs (interpolate_feedrate (0, 0, 0) (1, 0, -100) 100 50 - 500025 / 10000)
  <= 1 / 100.
Proof.
  rewrite interpolate_feedrate_branch.
  replace (hypot _ _) with 1 by (symmetry; lengths_tac).
  bound_length (10000499 / 100000) (100005 / 1000). branch_tac.
Qed.

Lemma self_test_shallow_down :
  Rabs (interpolate_feedrate (0, 0, 0) (100, 0, -1) 100 50 - 1000050 / 10000)
  <= 1 / 100.
Proof.
  rewrite interpolate_feedrate_branch.
  replace (hypot _ _) with 100 by (symmetry; lengths_tac).
  bound_length (10000499 / 100000) (100005 / 1000). branch_tac.
Qed.

Lemma test_case p0 p1 h v expected :
  0 < h -> 0 < v -> v <= h ->
  Rabs (interpolate_feedrate p0 p1 h v - expected) <= 1 / 100 ->
  pz p0 < pz p1 \/ pz p1 - pz p0 = 0 \/
  (pz p1 - pz p0 < 0 /\ Tolerance < Rabs (pz p1 - pz p0)) ->
  test_passes (p0, p1, h, v, expected).
Proof.
  intros Hh Hv Hvh Hres Hz. unfold test_passes.
  destruct (components_within p0 p1 h v Hh Hv Hvh) as (Hhc & Hvc).
  split; [exact Hres|]. split; [lra|].
  destruct Hz as [Hup|Hz]; [now left|]. right.
  specialize (Hvc Hz). lra.
Qed.

Ltac exact_result E :=
  rewrite E; unfold Rabs;
  match goal with
  | |- context [Rcase_abs ?a] => destruct (Rcase_abs a)
  end; lra.

Ltac level := right; left; unfold pz; cbn [snd]; lra.

Ltac rising := left; unfold pz; cbn [snd]; lra.

Ltac sinking :=
  right; right; unfold pz; cbn [snd]; split; [lra|];
  unfold Tolerance, Rabs;
  match goal with
  | |- context [Rcase_abs ?a] => destruct (Rcase_abs a)
  end; lra.

(** The ten rows of the table: for each the feed is within 0.01 of the
    expected one, the horizontal component is within [hfeed + 1e-6], and,
    unless the move rises, the vertical component is within
    [vfeed + 1e-6]. *)
Example module_self_test_passes : Forall test_passes tests.
Proof.
  unfold tests.
  repeat (apply Forall_cons; [apply test_case; [lra | lra | lra | |] |]);
    try apply Forall_nil.
  - exact_result self_test_rest.
  - level.
  - exact_result self_test_along_x.
  - level.
  - exact_result self_test_along_y.
  - level.
  - exact_result self_test_up.
  - rising.
  - exact_result self_test_down.
  - sinking.
  - exact self_test_diagonal_up.
  - rising.
  - exact self_test_diagonal_down.
  - sinking.
  - exact self_test_steep_up.
  - rising.
  - exact self_test_steep_down.
  - sinking.
  - exact self_test_shallow_down.
  - sinking.
Qed.

End FeedMore.
